(** * Crossword constraint-satisfaction solver (generate.py)

    A shallow embedding of [CrosswordCreator] from
    [src/Optimization/crossword/generate.py]: node consistency, AC-3,
    the two ordering heuristics, the assignment check, backtracking
    search and the letter grid, followed by the properties of the
    specification that hold of it, by the inputs on which the others
    fail, and by further properties of each method: what revision and
    AC-3 remove and keep, what the checks decide, which variable and
    which order of values are chosen, what the search returns.

    Python values are modelled as follows.
    - A [set] is a list in iteration order (no repeated element); a [dict]
      is an association list in insertion order (no repeated key).
    - A raised exception is a result [Raise e]; a [while] loop and the
      recursion of [backtrack] take a fuel argument and give [OutOfFuel]
      when it runs out.
    - [self.domains] and the dict objects created during the search live
      in a store that every method threads; a dict is passed by
      reference, so that the mutations [backtrack] performs on its
      argument are visible to its caller. *)

From Stdlib Require Import List String Ascii Arith Bool Lia Permutation Sorted.
Import ListNotations.

(* ================================================================= *)
(** ** Python values and effects *)

Module Py.

Inductive Exn := KeyError | IndexError | TypeError | ValueError.

Inductive Res (A : Type) : Type :=
| Ok (a : A)
| Raise (e : Exn)
| OutOfFuel.
Arguments Ok {A} a.
Arguments Raise {A} e.
Arguments OutOfFuel {A}.

Definition res_bind {A B} (c : Res A) (k : A -> Res B) : Res B :=
  match c with
  | Ok a => k a
  | Raise e => Raise e
  | OutOfFuel => OutOfFuel
  end.

(** [==] as Python dispatches it through [__eq__]. *)
Class Eq (A : Type) := eqb : A -> A -> bool.

#[export] Instance nat_Eq : Eq nat := Nat.eqb.
#[export] Instance ascii_Eq : Eq ascii := Ascii.eqb.
#[export] Instance string_Eq : Eq string := String.eqb.
#[export] Instance pair_Eq {A B} `{Eq A} `{Eq B} : Eq (A * B) :=
  fun p q => eqb (fst p) (fst q) && eqb (snd p) (snd q).
#[export] Instance option_Eq {A} `{Eq A} : Eq (option A) :=
  fun p q =>
    match p, q with
    | Some x, Some y => eqb x y
    | None, None => true
    | _, _ => false
    end.

Fixpoint list_eqb {A} `{Eq A} (l1 l2 : list A) : bool :=
  match l1, l2 with
  | [], [] => true
  | x :: l1', y :: l2' => eqb x y && list_eqb l1' l2'
  | _, _ => false
  end.
#[export] Instance list_Eq {A} `{Eq A} : Eq (list A) := list_eqb.

(** The values an assignment can hold: a word, or the list that the
    comprehension in [backtrack] builds. *)
Inductive Val :=
| Str (s : string)
| Lst (l : list string).

#[export] Instance Val_Eq : Eq Val :=
  fun v w =>
    match v, w with
    | Str s, Str t => eqb s t
    | Lst l, Lst m => eqb l m
    | _, _ => false
    end.

(** [s[k]]: the one-character string at index [k]. *)
Definition str_index (s : string) (k : nat) : Res string :=
  match String.get k s with
  | Some c => Ok (String c EmptyString)
  | None => Raise IndexError
  end.

Definition list_index {A} (l : list A) (k : nat) : Res A :=
  match nth_error l k with
  | Some x => Ok x
  | None => Raise IndexError
  end.

(** Iterating over a string yields its one-character strings. *)
Fixpoint chars (s : string) : list string :=
  match s with
  | EmptyString => []
  | String c s' => String c EmptyString :: chars s'
  end.

Definition len (v : Val) : nat :=
  match v with
  | Str s => String.length s
  | Lst l => List.length l
  end.

Definition index (v : Val) (k : nat) : Res string :=
  match v with
  | Str s => str_index s k
  | Lst l => list_index l k
  end.

Definition iter (v : Val) : list string :=
  match v with
  | Str s => chars s
  | Lst l => l
  end.

(** *** Sets, as lists in iteration order *)

Section Sets.
Context {A : Type} `{Eq A}.

(** [x in s] *)
Definition mem (x : A) (s : list A) : bool := existsb (eqb x) s.

(** [s.remove(x)] *)
Definition remove (x : A) (s : list A) : Res (list A) :=
  if mem x s then Ok (filter (fun y => negb (eqb x y)) s)
  else Raise KeyError.

(** [for x in xs: s.remove(x)] *)
Fixpoint remove_each (xs : list A) (s : list A) : Res (list A) :=
  match xs with
  | [] => Ok s
  | x :: xs' => res_bind (remove x s) (remove_each xs')
  end.
End Sets.

(** [enumerate(l)] *)
Definition enumerate {A} (l : list A) : list (nat * A) :=
  combine (seq 0 (List.length l)) l.

(** [sorted(l)] on integers. *)
Fixpoint insert_sorted (n : nat) (l : list nat) : list nat :=
  match l with
  | [] => [n]
  | m :: l' => if n <=? m then n :: l else m :: insert_sorted n l'
  end.

Definition sorted (l : list nat) : list nat :=
  fold_right insert_sorted [] l.

(** *** Dicts, as association lists in insertion order *)

Definition Dict (K V : Type) := list (K * V).

Section Dicts.
Context {K V : Type} `{Eq K}.

(** [d[k]] *)
Fixpoint get (k : K) (d : Dict K V) : Res V :=
  match d with
  | [] => Raise KeyError
  | (k', v) :: d' => if eqb k k' then Ok v else get k d'
  end.

(** [d[k] = v] *)
Fixpoint set (k : K) (v : V) (d : Dict K V) : Dict K V :=
  match d with
  | [] => [(k, v)]
  | (k', v') :: d' =>
      if eqb k k' then (k', v) :: d' else (k', v') :: set k v d'
  end.

Definition keys (d : Dict K V) : list K := map fst d.
Definition values (d : Dict K V) : list V := map snd d.
End Dicts.

(** *** State and exceptions *)

Definition M (S A : Type) : Type := S -> Res A * S.

Definition ret {S A} (a : A) : M S A := fun s => (Ok a, s).

Definition bind {S A B} (c : M S A) (k : A -> M S B) : M S B :=
  fun s =>
    match c s with
    | (Ok a, s') => k a s'
    | (Raise e, s') => (Raise e, s')
    | (OutOfFuel, s') => (OutOfFuel, s')
    end.

Definition lift {S A} (r : Res A) : M S A := fun s => (r, s).

Definition out_of_fuel {S A} : M S A := fun s => (OutOfFuel, s).

(** [for a in l: body(a)] *)
Fixpoint for_each {S A} (l : list A) (body : A -> M S unit) : M S unit :=
  match l with
  | [] => ret tt
  | a :: l' => bind (body a) (fun _ => for_each l' body)
  end.

(** A loop that updates local variables, collected in [acc]. *)
Fixpoint fold_each {S A B} (l : list A) (acc : B) (body : B -> A -> M S B)
  : M S B :=
  match l with
  | [] => ret acc
  | a :: l' => bind (body acc a) (fun acc' => fold_each l' acc' body)
  end.

(** The same loop when its body touches no state. *)
Fixpoint res_fold {A B} (l : list A) (acc : B) (body : B -> A -> Res B)
  : Res B :=
  match l with
  | [] => Ok acc
  | a :: l' => res_bind (body acc a) (fun acc' => res_fold l' acc' body)
  end.

End Py.

Import Py.

Declare Scope res_scope.
Delimit Scope res_scope with res.
Bind Scope res_scope with Res.
Declare Scope py_scope.
Delimit Scope py_scope with py.
Bind Scope py_scope with M.

Notation "x <- c ;; k" := (res_bind c (fun x => k))
  (at level 61, c at next level, right associativity) : res_scope.
Notation "' p <- c ;; k" := (res_bind c (fun p => k))
  (at level 61, p pattern, c at next level, right associativity) : res_scope.
Notation "x <- c ;; k" := (bind c (fun x => k))
  (at level 61, c at next level, right associativity) : py_scope.
Notation "c ;; k" := (bind c (fun _ => k))
  (at level 61, right associativity) : py_scope.
Notation "x == y" := (eqb x y) (at level 70, no associativity).
Notation "x != y" := (negb (eqb x y)) (at level 70, no associativity).

(* ================================================================= *)
(** ** The puzzle model (interface of crossword.py) *)

Inductive Direction := ACROSS | DOWN.

#[export] Instance Direction_Eq : Eq Direction :=
  fun d e =>
    match d, e with
    | ACROSS, ACROSS | DOWN, DOWN => true
    | _, _ => false
    end.

(** A word slot.  Two slots are equal iff their four attributes are. *)
Module Var.
Record t := mk { i : nat; j : nat; direction : Direction; length : nat }.

Definition eq (v w : t) : bool :=
  (i v == i w) && (j v == j w) && (direction v == direction w)
  && (length v == length w).
End Var.

#[export] Instance Var_Eq : Eq Var.t := Var.eq.

Module Crossword.
(** What the solver reads of a [Crossword]: the set of its variables, the
    set of its words, and the table [overlaps].  The table holds an
    entry, possibly [None], for every ordered pair of distinct variables;
    the solver only looks up such pairs, so it is taken as a function. *)
Record t := mk {
  variables : list Var.t;
  words : list string;
  overlaps : Var.t -> Var.t -> option (nat * nat)
}.

(** Modelled from the spec: [Crossword.neighbors], which is not among the
    sources.  The neighbours of [var] are the variables that overlap it:
    every variable other than [var] with an overlap entry against [var]. *)
Definition neighbors (c : t) (var : Var.t) : list Var.t :=
  filter
    (fun v => (v != var) &&
              match overlaps c v var with Some _ => true | None => false end)
    (variables c).
End Crossword.

(* ================================================================= *)
(** ** CrosswordCreator *)

Module CrosswordCreator.

Definition Domains := Dict Var.t (list string).
Definition Assignment := Dict Var.t Val.
Definition Arc := (Var.t * Var.t)%type.

(** A reference to a dict object of the store. *)
Definition ref := nat.

Record Self := mkSelf {
  domains : Domains;          (* self.domains *)
  dicts : list Assignment     (* the dict objects allocated so far *)
}.

Definition P := M Self.

(** [float('-inf')], an integer, or [float('inf')]. *)
Inductive Count := NegInf | Fin (n : nat) | Inf.

#[export] Instance Count_Eq : Eq Count :=
  fun a b =>
    match a, b with
    | NegInf, NegInf | Inf, Inf => true
    | Fin n, Fin m => n == m
    | _, _ => false
    end.

Definition count_ltb (a b : Count) : bool :=
  match a, b with
  | NegInf, NegInf => false
  | NegInf, _ => true
  | Fin n, Fin m => n <? m
  | Fin _, Inf => true
  | _, _ => false
  end.

(** [min(l)] *)
Definition count_min (l : list Count) : Res Count :=
  match l with
  | [] => Raise ValueError
  | a :: l' => Ok (fold_left (fun m b => if count_ltb b m then b else m) l' a)
  end.

(** *** Store primitives *)

Local Open Scope py_scope.

(** [self.domains[var]] *)
Definition get_domain (var : Var.t) : P (list string) :=
  fun s => (get var (domains s), s).

(** Writes back the set [self.domains[var]] after an in-place update. *)
Definition set_domain (var : Var.t) (d : list string) : P unit :=
  fun s => (Ok tt, mkSelf (set var d (domains s)) (dicts s)).

(** [dict()] *)
Definition dict_new : P ref :=
  fun s => (Ok (List.length (dicts s)), mkSelf (domains s) (dicts s ++ [[]])).

(** The contents of the dict [r] refers to. *)
Definition deref (r : ref) : P Assignment :=
  fun s => (list_index (dicts s) r, s).

Fixpoint update {A} (l : list A) (k : nat) (a : A) : list A :=
  match l, k with
  | [], _ => []
  | _ :: l', 0 => a :: l'
  | x :: l', S k' => x :: update l' k' a
  end.

Definition store (r : ref) (a : Assignment) : P unit :=
  fun s => (Ok tt, mkSelf (domains s) (update (dicts s) r a)).

(** [r.copy()] *)
Definition dict_copy (r : ref) : P ref :=
  a <- deref r ;;
  fun s => (Ok (List.length (dicts s)), mkSelf (domains s) (dicts s ++ [a])).

(** [r[k] = v] *)
Definition dict_set (r : ref) (k : Var.t) (v : Val) : P unit :=
  a <- deref r ;;
  store r (set k v a).

Section Methods.
Variable crossword : Crossword.t.

(** [__init__]: every domain is a copy of the word set. *)
Definition init : Self :=
  mkSelf
    (fold_left (fun d var => set var (Crossword.words crossword) d)
               (Crossword.variables crossword) [])
    [].

(** [letters[i][j] = x] *)
Definition put (letters : list (list (option string))) (i j : nat)
  (x : string) : Res (list (list (option string))) :=
  (row <- list_index letters i ;;
   if j <? List.length row
   then Ok (update letters i (update row j (Some x)))
   else Raise IndexError)%res.

(** [letter_grid]; [height] and [width] stand for the attributes
    [self.crossword.height] and [self.crossword.width]. *)
Definition letter_grid (height width : nat) (assignment : ref)
  : P (list (list (option string))) :=
  a <- deref assignment ;;
  let letters := repeat (repeat None width) height in
  lift (res_fold a letters (fun letters '(variable, word) =>
    let direction := Var.direction variable in
    res_fold (seq 0 (len word)) letters (fun letters k =>
      let i := Var.i variable + (if direction == DOWN then k else 0) in
      let j := Var.j variable + (if direction == ACROSS then k else 0) in
      (x <- index word k ;;
       put letters i j x)%res))).

Definition enforce_node_consistency : P unit :=
  for_each (Crossword.variables crossword) (fun var =>
    for_each (Crossword.words crossword) (fun word =>
      if String.length word != Var.length var then
        d <- get_domain var ;;
        d' <- lift (remove word d) ;;
        set_domain var d'
      else ret tt)).

(** The inner loop of [revise]: [conflict] after [w1] was compared with
    every word of [self.domains[y]]. *)
Definition conflict_with (ox oy : nat) (w1 : string) (dy : list string)
  : Res bool :=
  res_fold dy true (fun conflict w2 =>
    (c1 <- str_index w1 ox ;;
     c2 <- str_index w2 oy ;;
     Ok (if c1 == c2 then false else conflict))%res).

Definition revise (x y : Var.t) : P bool :=
  match Crossword.overlaps crossword x y with
  | None => ret false
  | Some (ox, oy) =>
      dx <- get_domain x ;;
      to_be_removed <-
        fold_each dx [] (fun to_be_removed w1 =>
          dy <- get_domain y ;;
          conflict <- lift (conflict_with ox oy w1 dy) ;;
          ret (if conflict then to_be_removed ++ [w1]
               else to_be_removed)) ;;
      dx <- get_domain x ;;
      dx' <- lift (remove_each to_be_removed dx) ;;
      set_domain x dx' ;;
      ret (negb (List.length to_be_removed == 0))
  end.

(** The initial queue of [ac3] when no arcs are supplied. *)
Definition all_arcs : list Arc :=
  fold_left (fun queue var =>
    fold_left (fun queue neighbour =>
      if negb (mem (var, neighbour) queue)
      then queue ++ [(var, neighbour)] else queue)
      (Crossword.neighbors crossword var) queue)
    (Crossword.variables crossword) [].

(** The [while] loop of [ac3]. *)
Fixpoint ac3_loop (fuel : nat) (queue : list Arc) : P bool :=
  match queue with
  | [] => ret true
  | (x, y) :: queue =>
      match fuel with
      | 0 => out_of_fuel
      | S fuel =>
          revised <- revise x y ;;
          if revised then
            dx <- get_domain x ;;
            if List.length dx == 0 then ret false
            else
              ac3_loop fuel
                (fold_left (fun queue z =>
                   if z != y then queue ++ [(z, x)] else queue)
                   (Crossword.neighbors crossword x) queue)
          else ac3_loop fuel queue
      end
  end.

Definition ac3 (fuel : nat) (arcs : option (list Arc)) : P bool :=
  match arcs with
  | None => ac3_loop fuel all_arcs
  | Some arcs => ac3_loop fuel arcs
  end.

Definition assignment_complete (assignment : ref) : P bool :=
  a <- deref assignment ;;
  ret (List.length a == List.length (Crossword.variables crossword)).

(** [val in values[i+1:]] for each [val] at index [i]. *)
Fixpoint repeated (values : list Val) : bool :=
  match values with
  | [] => false
  | val :: rest => mem val rest || repeated rest
  end.

(** [for key1 in keys[i+1:]], for one [key]; [Ok false] is the early
    [return False]. *)
Fixpoint agree_with (a : Assignment) (key : Var.t) (rest : list Var.t)
  : Res bool :=
  match rest with
  | [] => Ok true
  | key1 :: rest =>
      match Crossword.overlaps crossword key key1 with
      | None => agree_with a key rest
      | Some (o, o1) =>
          (v <- get key a ;;
           c <- index v o ;;
           v1 <- get key1 a ;;
           c1 <- index v1 o1 ;;
           if c != c1 then Ok false else agree_with a key rest)%res
      end
  end.

Fixpoint agree (a : Assignment) (keys : list Var.t) : Res bool :=
  match keys with
  | [] => Ok true
  | key :: rest =>
      (ok <- agree_with a key rest ;;
       if ok then agree a rest else Ok false)%res
  end.

(** [for var in assignment.keys()]: the length test. *)
Fixpoint lengths_match (a : Assignment) (keys : list Var.t) : Res bool :=
  match keys with
  | [] => Ok true
  | var :: rest =>
      (v <- get var a ;;
       if Var.length var != len v then Ok false
       else lengths_match a rest)%res
  end.

Definition consistent (assignment : ref) : P bool :=
  a <- deref assignment ;;
  if repeated (values a) then ret false
  else
    ok <- lift (lengths_match a (keys a)) ;;
    if negb ok then ret false
    else lift (agree a (keys a)).

(** The number [n] that [order_domain_values] computes for [val]
    against one neighbour. *)
Definition eliminated_in (var neighbour : Var.t) (val : string) (n : nat)
  : P nat :=
  dn <- get_domain neighbour ;;
  let n := if mem val dn then n + 1 else n in
  let overlaps := Crossword.overlaps crossword var neighbour in
  dn <- get_domain neighbour ;;
  lift (res_fold dn n (fun n val1 =>
    if val != val1 then
      match overlaps with
      | None => Raise TypeError
      | Some (o, o1) =>
          (c <- str_index val o ;;
           c1 <- str_index val1 o1 ;;
           Ok (if c != c1 then n + 1 else n))%res
      end
    else Ok n)).

(** One pass of [for j, val in enumerate(eliminate_count)]: the values
    whose count is [minim] are appended to [sorted_values] and their
    count becomes [float('inf')]. *)
Fixpoint take_min (minim : Count) (values : list string) (j : nat)
  (eliminate_count : list Count) (sorted_values : list string)
  : Res (list Count * list string) :=
  match eliminate_count with
  | [] => Ok ([], sorted_values)
  | val :: rest =>
      if val == minim then
        (v <- list_index values j ;;
         ' (rest', sorted_values) <-
           take_min minim values (S j) rest (sorted_values ++ [v]) ;;
         Ok (Inf :: rest', sorted_values))%res
      else
        (' (rest', sorted_values) <-
           take_min minim values (S j) rest sorted_values ;;
         Ok (val :: rest', sorted_values))%res
  end.

(** [for i in range(len(values))], with [k] iterations left. *)
Fixpoint sort_rounds (k : nat) (values : list string)
  (eliminate_count : list Count) (sorted_values : list string)
  : Res (list string) :=
  match k with
  | 0 => Ok sorted_values
  | S k =>
      if List.length sorted_values == List.length values
      then Ok sorted_values
      else
        (minim <- count_min eliminate_count ;;
         ' (eliminate_count, sorted_values) <-
           take_min minim values 0 eliminate_count sorted_values ;;
         sort_rounds k values eliminate_count sorted_values)%res
  end.

Definition order_domain_values (var : Var.t) (assignment : ref)
  : P (list string) :=
  values <- get_domain var ;;
  let neighbours := Crossword.neighbors crossword var in
  a <- deref assignment ;;
  neighbours <-
    lift (res_fold neighbours neighbours (fun neighbours neighbour =>
      if mem neighbour (keys a) then remove neighbour neighbours
      else Ok neighbours)) ;;
  eliminate_count <-
    fold_each values [] (fun eliminate_count val =>
      n <- fold_each neighbours 0 (fun n neighbour =>
             eliminated_in var neighbour val n) ;;
      ret (eliminate_count ++ [Fin n])) ;;
  lift (sort_rounds (List.length values) values eliminate_count []).

(** [for i, number in enumerate(options)] of
    [select_unassigned_variable], [break] included. *)
Fixpoint smallest_options (number_of_options : Dict nat Var.t)
  (options : list nat) (todo : list (nat * nat))
  (sorted_variables : list Var.t) : Res (list Var.t) :=
  match todo with
  | [] => Ok sorted_variables
  | (i, number) :: todo =>
      if i == 0 then
        (var <- get number number_of_options ;;
         smallest_options number_of_options options todo
           (sorted_variables ++ [var]))%res
      else
        (previous <- list_index options (i - 1) ;;
         if number == previous then
           var <- get number number_of_options ;;
           smallest_options number_of_options options todo
             (sorted_variables ++ [var])
         else Ok sorted_variables)%res
  end.

Definition degree (var : Var.t) : nat :=
  List.length (Crossword.neighbors crossword var).

(** Returns [None] where the Python falls off the end of the function. *)
Definition select_unassigned_variable (assignment : ref)
  : P (option Var.t) :=
  let variables := Crossword.variables crossword in
  a <- deref assignment ;;
  let var_to_be_removed :=
    filter (fun var => mem var (keys a)) variables in
  variables <- lift (remove_each var_to_be_removed variables) ;;
  number_of_options <-
    fold_each variables [] (fun number_of_options var =>
      d <- get_domain var ;;
      ret (set (List.length d) var number_of_options)) ;;
  let options := sorted (keys number_of_options) in
  sorted_variables <-
    lift (smallest_options number_of_options options
            (enumerate options) []) ;;
  if List.length sorted_variables != 1 then
    let maxi :=
      fold_left (fun maxi var =>
        if count_ltb maxi (Fin (degree var)) then Fin (degree var)
        else maxi) sorted_variables NegInf in
    ret (find (fun var => Fin (degree var) == maxi) sorted_variables)
  else
    var <- lift (list_index sorted_variables 0) ;;
    ret (Some var).

(** [[val for val in cur if val != value]] *)
Definition without (cur : Val) (value : string) : Val :=
  Lst (filter (fun val => val != value) (iter cur)).

(** The loop [for value in values] of [backtrack], for the variable [var]
    that was selected; [recurse] is [self.backtrack]. *)
Fixpoint try_values (recurse : ref -> P (option ref)) (var : Var.t)
  (assignment : ref) (values : list string) : P (option ref) :=
  match values with
  | [] => ret None
  | value :: values =>
      assignment_copy <- dict_copy assignment ;;
      dict_set assignment_copy var (Str value) ;;
      ok <- consistent assignment_copy ;;
      result <-
        (if ok then
           dict_set assignment var (Str value) ;;
           recurse assignment
         else ret None) ;;
      match result with
      | Some result => ret (Some result)
      | None =>
          a <- deref assignment ;;
          (if mem var (keys a) then
             cur <- lift (get var a) ;;
             dict_set assignment var (without cur value)
           else ret tt) ;;
          try_values recurse var assignment values
      end
  end.

(** [backtrack] returns its argument (the same dict object) or [None]. *)
Fixpoint backtrack (fuel : nat) (assignment : ref) : P (option ref) :=
  match fuel with
  | 0 => out_of_fuel
  | S fuel =>
      complete <- assignment_complete assignment ;;
      if complete then ret (Some assignment)
      else
        selected <- select_unassigned_variable assignment ;;
        match selected with
        | None => lift (Raise KeyError)   (* self.domains[None] *)
        | Some var =>
            values <- order_domain_values var assignment ;;
            try_values (backtrack fuel) var assignment values
        end
  end.

Definition solve (fuel : nat) : P (option ref) :=
  enforce_node_consistency ;;
  _ <- ac3 fuel None ;;
  assignment <- dict_new ;;
  backtrack fuel assignment.

(** What a caller of [solve] holds afterwards: the contents of the
    returned dict, or [None]. *)
Definition run_solve (fuel : nat) : Res (option Assignment) :=
  match solve fuel init with
  | (Ok (Some r), s) =>
      match deref r s with
      | (Ok a, _) => Ok (Some a)
      | (Raise e, _) => Raise e
      | (OutOfFuel, _) => OutOfFuel
      end
  | (Ok None, _) => Ok None
  | (Raise e, _) => Raise e
  | (OutOfFuel, _) => OutOfFuel
  end.
End Methods.
End CrosswordCreator.

(* ================================================================= *)
(** ** Grids used below *)

Module Grid.
Import CrosswordCreator.

(** The cells a slot covers, first to last. *)
Definition cells (v : Var.t) : list (nat * nat) :=
  map (fun k =>
         match Var.direction v with
         | DOWN => (Var.i v + k, Var.j v)
         | ACROSS => (Var.i v, Var.j v + k)
         end)
      (seq 0 (Var.length v)).

Fixpoint position (c : nat * nat) (l : list (nat * nat)) : option nat :=
  match l with
  | [] => None
  | c' :: l' =>
      if c == c' then Some 0
      else match position c l' with Some k => Some (S k) | None => None end
  end.

(** Modelled from the spec: the overlap table that crossword.py derives
    from the geometry.  For two slots that share a cell it holds the
    offset of that cell within each; for two slots that share none it
    holds [None]. *)
Definition overlap (v w : Var.t) : option (nat * nat) :=
  match find (fun c => mem c (cells w)) (cells v) with
  | None => None
  | Some c =>
      match position c (cells v), position c (cells w) with
      | Some k, Some l => Some (k, l)
      | _, _ => None
      end
  end.

Definition puzzle (variables : list Var.t) (words : list string)
  : Crossword.t :=
  Crossword.mk variables words overlap.

Local Open Scope string_scope.

(** Three rows of two cells, separated by blocked rows: three across
    slots that share no cell. *)
Definition row0 := Var.mk 0 0 ACROSS 2.
Definition row2 := Var.mk 2 0 ACROSS 2.
Definition row4 := Var.mk 4 0 ACROSS 2.

Definition three_rows : Crossword.t :=
  puzzle [row0; row2; row4] ["AB"; "CD"].

Definition two_rows : Crossword.t :=
  puzzle [row0; row2] ["AB"].

(** A top row of three cells with a column of three cells hanging from
    each end:
<<
    _ _ _
    _ # _
    _ # _
>>
 *)
Definition top := Var.mk 0 0 ACROSS 3.
Definition left := Var.mk 0 0 DOWN 3.
Definition right := Var.mk 0 2 DOWN 3.

Definition arch (words : list string) : Crossword.t :=
  puzzle [top; left; right] words.

(** Every order in which a set may be iterated. *)
Fixpoint insert_everywhere {A} (x : A) (l : list A) : list (list A) :=
  match l with
  | [] => [[x]]
  | y :: l' => (x :: l) :: map (cons y) (insert_everywhere x l')
  end.

Fixpoint orders {A} (l : list A) : list (list A) :=
  match l with
  | [] => [[]]
  | x :: l' => flat_map (insert_everywhere x) (orders l')
  end.

(** Some entry of the assignment is a list, not a word. *)
Definition holds_list (a : Assignment) : bool :=
  existsb (fun e => match snd e with Lst _ => true | Str _ => false end) a.

(** [solve] returns an assignment that holds a list. *)
Definition solve_returns_list (c : Crossword.t) (fuel : nat) : bool :=
  match run_solve c fuel with
  | Ok (Some a) => holds_list a
  | _ => false
  end.

(** [solve] returns [None] and leaves an entry in the dict it created,
    the first of the store. *)
Definition solve_leaves_entry (c : Crossword.t) (fuel : nat) : bool :=
  match solve c fuel (init c) with
  | (Ok None, s) =>
      match dicts s with
      | (_ :: _) :: _ => true
      | _ => false
      end
  | _ => false
  end.

Definition arch3 : Crossword.t := arch ["ABC"; "ADA"; "CAB"].
Definition arch2 : Crossword.t := arch ["ABA"; "ACA"].
Definition arch_dead : Crossword.t := arch ["ABC"; "DEF"].
Definition arch0 : Crossword.t := arch [].
Definition arch_mixed : Crossword.t := arch ["ABC"; "AB"].

(** The one way to fill [arch3]. *)
Definition arch3_filled : CrosswordCreator.Assignment :=
  [(top, Py.Str "ABC"); (left, Py.Str "ADA"); (right, Py.Str "CAB")].
End Grid.

(* ================================================================= *)
(** ** Properties the specification names *)

Module Spec.
Import CrosswordCreator.

(** [==] decides equality. *)
Class EqOk (A : Type) `{Eq A} : Prop :=
  eqb_iff : forall x y : A, (x == y) = true <-> x = y.
Arguments EqOk A {_}.

(** A relation on stores that a computation never leaves: whatever its
    outcome, the store it ends in is related to the one it started in. *)
Definition keeps {A} (R : Self -> Self -> Prop) (m : P A) : Prop :=
  forall s, R s (snd (m s)).

Definition same_domains (s s' : Self) : Prop := domains s' = domains s.

Definition keeps_keys (s s' : Self) : Prop :=
  forall v d, get v (domains s) = Ok d ->
              exists d', get v (domains s') = Ok d'.

(** The length of the value of [k] is that of [k]. *)
Definition fits (a : Assignment) (k : Var.t) : Prop :=
  exists v, get k a = Ok v /\ Var.length k = len v.

(** The test of [enforce_node_consistency]. *)
Definition too_long_or_short (var : Var.t) (word : string) : bool :=
  String.length word != Var.length var.

(** The words currently in the domain of [v]. *)
Definition domain (s : Self) (v : Var.t) : list string :=
  match get v (domains s) with
  | Ok d => d
  | _ => []
  end.

Definition domain_size (s : Self) (v : Var.t) : nat :=
  List.length (domain s v).

(** The dict [number_of_options] that [select_unassigned_variable] builds
    from the unused variables [us]. *)
Definition options_of (s : Self) (us : list Var.t) (acc : Dict nat Var.t)
  : Dict nat Var.t :=
  fold_left (fun noo var => set (domain_size s var) var noo) us acc.

Definition is_fin (e : Count) : bool :=
  match e with
  | Fin _ => true
  | _ => false
  end.

(** The values whose count [order_domain_values] has not yet replaced by
    [float('inf')]. *)
Definition pending (values : list string) (eliminate_count : list Count)
  : list string :=
  map fst (filter (fun p => is_fin (snd p)) (combine values eliminate_count)).

(** The values one pass appends: those whose count is [minim]. *)
Definition picked (minim : Count) (values : list string)
  (eliminate_count : list Count) : list string :=
  map fst (filter (fun p => snd p == minim) (combine values eliminate_count)).

(** What one pass does to a count. *)
Definition mark (minim e : Count) : Count :=
  if e == minim then Inf else e.

(** Ascending order of the count [f]. *)
Definition by_count (f : string -> nat) (v w : string) : Prop := f v <= f w.

(** The values of [l] whose count is [n], in the order of [l]. *)
Definition of_count (f : string -> nat) (n : nat) (l : list string)
  : list string :=
  filter (fun v => f v =? n) l.

(** Every count is that of its value, or was replaced by [float('inf')]. *)
Definition tracks (f : string -> nat) (values : list string)
  (eliminate_count : list Count) : Prop :=
  Forall2 (fun v e => e = Inf \/ e = Fin (f v)) values eliminate_count.

(** *** The letter grid *)

(** The cell of the [k]-th letter of the slot [v]. *)
Definition cell (v : Var.t) (k : nat) : nat * nat :=
  match Var.direction v with
  | DOWN => (Var.i v + k, Var.j v)
  | ACROSS => (Var.i v, Var.j v + k)
  end.

(** Within a grid of [h] rows and [w] columns. *)
Definition within (h w : nat) (p : nat * nat) : Prop :=
  fst p < h /\ snd p < w.

(** Every letter of every entry of [a] falls within the grid. *)
Definition inside (h w : nat) (a : Assignment) : Prop :=
  forall v word k, In (v, word) a -> k < len word -> within h w (cell v k).

(** Some entry of [a] puts [x] on the cell [(i, j)]. *)
Definition writes (a : Assignment) (i j : nat) (x : string) : Prop :=
  exists v word k,
    In (v, word) a /\ cell v k = (i, j) /\ index word k = Ok x.

(** [letters[i][j]], [None] also outside of the grid. *)
Definition letter (letters : list (list (option string))) (i j : nat)
  : option string :=
  match nth_error letters i with
  | Some row =>
      match nth_error row j with
      | Some x => x
      | None => None
      end
  | None => None
  end.

(** [h] rows of [w] cells each. *)
Definition sized (h w : nat) (letters : list (list (option string))) : Prop :=
  List.length letters = h /\ forall row, In row letters -> List.length row = w.

(** A grid of that size whose cells hold what [W] says was written: a
    cell is [None] if nothing was, and a letter that was written there
    otherwise. *)
Definition shows (h w : nat) (W : nat -> nat -> string -> Prop)
  (letters : list (list (option string))) : Prop :=
  sized h w letters
  /\ forall i j, i < h -> j < w ->
       match letter letters i j with
       | None => forall x, ~ W i j x
       | Some x => W i j x
       end.

Section Puzzle.
Variable c : Crossword.t.

Definition has_domains (s : Self) : Prop :=
  forall v, In v (Crossword.variables c) ->
            exists d, get v (domains s) = Ok d.

(** The overlap table is the same read in either direction. *)
Definition symmetric_overlaps : Prop :=
  forall x y ox oy,
    In x (Crossword.variables c) -> In y (Crossword.variables c) ->
    Crossword.overlaps c x y = Some (ox, oy) ->
    Crossword.overlaps c y x = Some (oy, ox).

(** Its offsets point inside the slots. *)
Definition overlaps_in_range : Prop :=
  forall x y ox oy,
    In x (Crossword.variables c) -> In y (Crossword.variables c) ->
    Crossword.overlaps c x y = Some (ox, oy) ->
    ox < Var.length x /\ oy < Var.length y.

Definition node_consistent (s : Self) : Prop :=
  forall v w, In v (Crossword.variables c) -> In w (domain s v) ->
              String.length w = Var.length v.

(** [w[ox] == w2[oy]], both indices being in range. *)
Definition agree_at (ox oy : nat) (w w2 : string) : Prop :=
  exists ch, String.get ox w = Some ch /\ String.get oy w2 = Some ch.

Definition supported (s : Self) (y : Var.t) (ox oy : nat) (w : string)
  : Prop :=
  exists w2, In w2 (domain s y) /\ agree_at ox oy w w2.

Definition arc_consistent (s : Self) : Prop :=
  forall x y ox oy w,
    In x (Crossword.variables c) -> In y (Crossword.variables c) ->
    x <> y ->
    Crossword.overlaps c x y = Some (ox, oy) ->
    In w (domain s x) ->
    supported s y ox oy w.

(** Every word in the domain of [x] has a partner in the domain of [y]. *)
Definition arc_ok (s : Self) (x y : Var.t) : Prop :=
  forall ox oy w,
    Crossword.overlaps c x y = Some (ox, oy) ->
    In w (domain s x) ->
    supported s y ox oy w.

(** The invariant of the loop of [ac3]: an arc that is not waiting in the
    queue is consistent. *)
Definition queued_or_ok (s : Self) (queue : list Arc) : Prop :=
  forall x y,
    In x (Crossword.variables c) -> In y (Crossword.neighbors c x) ->
    In (x, y) queue \/ arc_ok s x y.

(** The arcs [ac3] adds to the queue after [revise x y] changed the domain
    of [x]. *)
Definition requeue (x y : Var.t) (queue : list Arc) : list Arc :=
  fold_left (fun queue z => if z != y then queue ++ [(z, x)] else queue)
            (Crossword.neighbors c x) queue.

(** A complete, valid assignment: one entry per variable, each a word
    of the slot's length, the words pairwise distinct and agreeing
    wherever two slots overlap. *)
Record solution (a : Assignment) : Prop := {
  one_entry_per_variable :
    NoDup (keys a) /\
    forall v, In v (keys a) <-> In v (Crossword.variables c);
  words_of_slot_length :
    forall v val, In (v, val) a ->
      exists w, val = Str w /\ String.length w = Var.length v;
  words_distinct : NoDup (values a);
  overlaps_agree :
    forall x y wx wy ox oy,
      In (x, Str wx) a -> In (y, Str wy) a ->
      Crossword.overlaps c x y = Some (ox, oy) ->
      agree_at ox oy wx wy
}.

(** The assignment draws every word from the domain of its variable. *)
Definition from_domains (s : Self) (a : Assignment) : Prop :=
  forall v w, In (v, Str w) a -> In w (domain s v).

(** What choosing [val] for [var] eliminates from the domain of
    [neighbour]: [val] itself if that domain holds it, and every other
    word of it that disagrees with [val] where the two slots overlap. *)
Definition eliminated (s : Self) (var : Var.t) (val : string)
  (neighbour : Var.t) : nat :=
  (if mem val (domain s neighbour) then 1 else 0)
  + List.length
      (filter
         (fun val1 =>
            (val != val1) &&
            match Crossword.overlaps c var neighbour with
            | Some (o, o1) => String.get o val != String.get o1 val1
            | None => false
            end)
         (domain s neighbour)).

(** Nothing that [order_domain_values] evaluates for [val] against
    [neighbour] raises. *)
Definition comparable (s : Self) (var : Var.t) (val : string)
  (neighbour : Var.t) : Prop :=
  exists dn o o1,
    get neighbour (domains s) = Ok dn
    /\ Crossword.overlaps c var neighbour = Some (o, o1)
    /\ o < String.length val
    /\ forall val1, In val1 dn -> o1 < String.length val1.

Definition unassigned_neighbours (a : Assignment) (var : Var.t)
  : list Var.t :=
  filter (fun neighbour => negb (mem neighbour (keys a)))
         (Crossword.neighbors c var).

Definition elimination_count (s : Self) (a : Assignment) (var : Var.t)
  (val : string) : nat :=
  list_sum (map (eliminated s var val) (unassigned_neighbours a var)).

Definition unassigned (a : Assignment) : list Var.t :=
  filter (fun var => negb (mem var (keys a))) (Crossword.variables c).

(** Every domain is a set. *)
Definition nodup_domains (s : Self) : Prop :=
  forall v d, In v (Crossword.variables c) ->
              get v (domains s) = Ok d -> NoDup d.

(** What the stores of a run of [solve] on a well-formed puzzle satisfy
    once node consistency is enforced. *)
Definition sound_store (s : Self) : Prop :=
  has_domains s /\ node_consistent s /\ nodup_domains s.

Definition well_formed : Prop :=
  NoDup (Crossword.variables c) /\ NoDup (Crossword.words c)
  /\ symmetric_overlaps /\ overlaps_in_range.

(** The arcs of a queue join variables of the puzzle. *)
Definition queue_ok (queue : list Arc) : Prop :=
  forall x y, In (x, y) queue ->
              In x (Crossword.variables c) /\ In y (Crossword.variables c).

(** The words left in all the domains. *)
Definition total_size (s : Self) : nat :=
  list_sum (map (domain_size s) (Crossword.variables c)).

(** Iterations that the loop of [ac3] cannot exceed: each one takes an arc
    off the queue, and puts back fewer arcs than there are variables only
    after removing a word. *)
Definition ac3_bound (s : Self) (queue : list Arc) : nat :=
  List.length queue + S (List.length (Crossword.variables c)) * total_size s.

(** The result of the inner loop of [revise] for [w1], [False] standing
    for an exception. *)
Definition in_conflict (ox oy : nat) (dy : list string) (w1 : string) : bool :=
  match conflict_with ox oy w1 dy with
  | Ok b => b
  | _ => false
  end.

(** The arcs of a queue go from a variable to one of its neighbours. *)
Definition arcs_ok (queue : list Arc) : Prop :=
  forall x y, In (x, y) queue ->
              In x (Crossword.variables c) /\ In y (Crossword.neighbors c x).

(** The domains of [s'] hold no word that those of [s] did not, under the
    same keys, and the dicts are those of [s]. *)
Definition shrinks (s s' : Self) : Prop :=
  dicts s' = dicts s
  /\ keys (domains s') = keys (domains s)
  /\ forall v, incl (domain s' v) (domain s v).

(** Some word does not fit some variable. *)
Definition misfit : bool :=
  existsb (fun var => existsb (too_long_or_short var) (Crossword.words c))
          (Crossword.variables c).

(** The entries of [key] and [key1] carry the same character where the two
    slots cross. *)
Definition agrees (a : Assignment) (key key1 : Var.t) : Prop :=
  forall o o1,
    Crossword.overlaps c key key1 = Some (o, o1) ->
    exists v v1 ch,
      get key a = Ok v /\ get key1 a = Ok v1
      /\ index v o = Ok ch /\ index v1 o1 = Ok ch.

(** The entries of [a] are found in [a'] with the values they have. *)
Definition kept (a a' : Assignment) : Prop :=
  forall k, In k (keys a) -> get k a' = get k a.

(** The dict [r] refers to is [a]. *)
Definition holds (s : Self) (r : ref) (a : Assignment) : Prop :=
  nth_error (dicts s) r = Some a.

(** A partial assignment: a dict whose keys are variables of the puzzle. *)
Definition partial (a : Assignment) : Prop :=
  NoDup (keys a) /\ incl (keys a) (Crossword.variables c).

(** What holds when [backtrack] is called on [r]. *)
Definition searching (s : Self) (r : ref) (a : Assignment) : Prop :=
  sound_store s /\ holds s r a /\ partial a.

(** What holds when that call returns, in the store [s']: the domains are
    as they were and [r] refers to a partial assignment that has kept the
    keys it had. *)
Definition returned (s : Self) (r : ref) (a : Assignment) (s' : Self)
  : Prop :=
  domains s' = domains s
  /\ exists a', holds s' r a' /\ partial a' /\ incl (keys a) (keys a').

(** The store in which [solve] starts the search: node consistency and
    AC-3 have run, and the empty assignment was created. *)
Definition before_search (fuel : nat) : Res ref * Self :=
  (enforce_node_consistency c ;;
   _ <- ac3 c fuel None ;;
   dict_new)%py (init c).
End Puzzle.
End Spec.

(* ================================================================= *)
(** ** Equality, sets and dicts *)

Module Laws.
Import CrosswordCreator Spec.

#[export] Instance nat_EqOk : EqOk nat.
Proof. intros x y. apply Nat.eqb_eq. Qed.

#[export] Instance ascii_EqOk : EqOk ascii.
Proof. intros x y. apply Ascii.eqb_eq. Qed.

#[export] Instance string_EqOk : EqOk string.
Proof. intros x y. apply String.eqb_eq. Qed.

#[export] Instance Direction_EqOk : EqOk Direction.
Proof. intros [] []; split; intros E; try reflexivity; discriminate E. Qed.

#[export] Instance pair_EqOk {A B} `{EqOk A} `{EqOk B} : EqOk (A * B).
Proof.
  intros [a b] [a' b']. unfold eqb, pair_Eq. cbn [fst snd].
  rewrite andb_true_iff, !eqb_iff. split.
  - intros [-> ->]. reflexivity.
  - intros E. injection E as -> ->. auto.
Qed.

#[export] Instance option_EqOk {A} `{EqOk A} : EqOk (option A).
Proof.
  intros [a|] [b|]; unfold eqb, option_Eq; try rewrite eqb_iff;
    split; intros E; try discriminate E; try reflexivity.
  - subst. reflexivity.
  - injection E as ->. reflexivity.
Qed.

#[export] Instance list_EqOk {A} `{EqOk A} : EqOk (list A).
Proof.
  intros l. unfold eqb, list_Eq.
  induction l as [|a l IH]; intros [|b m]; cbn [list_eqb];
    try (split; intros E; try reflexivity; discriminate E).
  rewrite andb_true_iff, eqb_iff, IH. split.
  - intros [-> ->]. reflexivity.
  - intros E. injection E as -> ->. auto.
Qed.

#[export] Instance Val_EqOk : EqOk Val.
Proof.
  intros [s|l] [t|m]; unfold eqb at 1, Val_Eq; try rewrite eqb_iff;
    split; intros E; try discriminate E; try (injection E as ->);
    subst; reflexivity.
Qed.

#[export] Instance Var_EqOk : EqOk Var.t.
Proof.
  intros [i j d n] [i' j' d' n']. unfold eqb at 1, Var_Eq, Var.eq.
  cbn [Var.i Var.j Var.direction Var.length].
  rewrite !andb_true_iff, !eqb_iff. split.
  - intros [[[-> ->] ->] ->]. reflexivity.
  - intros E. injection E as -> -> -> ->. auto.
Qed.

#[export] Instance Count_EqOk : EqOk Count.
Proof.
  intros [|n|] [|m|]; unfold eqb at 1, Count_Eq;
    try rewrite eqb_iff; split; intros E; try discriminate E;
    try (injection E as ->); subst; reflexivity.
Qed.

Section Eq.
Context {A : Type} `{EqOk A}.

Lemma eqb_refl (x : A) : (x == x) = true.
Proof. apply eqb_iff. reflexivity. Qed.

Lemma eqb_false_iff (x y : A) : (x == y) = false <-> x <> y.
Proof.
  rewrite <- not_true_iff_false. split; intros N E; apply N, eqb_iff, E.
Qed.

Lemma eqb_sym (x y : A) : (x == y) = (y == x).
Proof.
  destruct (y == x) eqn:E.
  - apply eqb_iff. symmetry. apply eqb_iff, E.
  - apply eqb_false_iff. intros ->. rewrite eqb_refl in E. discriminate E.
Qed.

Lemma mem_iff (x : A) (s : list A) : mem x s = true <-> In x s.
Proof.
  unfold mem. rewrite existsb_exists. split.
  - intros (y & I & E). apply eqb_iff in E. subst. exact I.
  - intros I. exists x. split; [exact I | apply eqb_refl].
Qed.

Lemma mem_false_iff (x : A) (s : list A) : mem x s = false <-> ~ In x s.
Proof. rewrite <- not_true_iff_false, mem_iff. reflexivity. Qed.

Lemma remove_ok (x : A) (s s' : list A) :
  remove x s = Ok s' ->
  In x s /\ s' = filter (fun y => negb (x == y)) s.
Proof.
  unfold remove. destruct (mem x s) eqn:E; intros R; [|discriminate R].
  injection R as <-. split; [apply mem_iff, E | reflexivity].
Qed.

Lemma remove_in (x : A) (s : list A) :
  In x s -> remove x s = Ok (filter (fun y => negb (x == y)) s).
Proof. intros I. unfold remove. apply mem_iff in I. rewrite I. reflexivity. Qed.

Lemma filter_filter (p q : A -> bool) (l : list A) :
  filter p (filter q l) = filter (fun y => q y && p y) l.
Proof.
  induction l as [|a l IH]; [reflexivity|]. cbn [filter].
  destruct (q a); cbn [filter andb]; rewrite IH; reflexivity.
Qed.

(** Removing the members of [xs] one after the other, when it succeeds,
    leaves the elements that are not in [xs]. *)
Lemma remove_each_ok (xs s s' : list A) :
  remove_each xs s = Ok s' ->
  s' = filter (fun y => negb (mem y xs)) s.
Proof.
  revert s. induction xs as [|x xs IH]; intros s R; cbn in R.
  - injection R as <-. symmetry. apply forallb_filter_id.
    apply forallb_forall. reflexivity.
  - destruct (remove x s) as [s1| |] eqn:E; try discriminate R.
    cbn in R. apply remove_ok in E as [_ ->]. apply IH in R. subst s'.
    rewrite filter_filter. apply filter_ext. intros y.
    cbn [mem existsb]. rewrite negb_orb, (eqb_sym y x). reflexivity.
Qed.

(** It succeeds when [xs] lists members of [s] without repetition. *)
Lemma remove_each_in (xs s : list A) :
  NoDup xs -> incl xs s ->
  remove_each xs s = Ok (filter (fun y => negb (mem y xs)) s).
Proof.
  revert s. induction xs as [|x xs IH]; intros s N I; cbn [remove_each].
  - f_equal. symmetry. apply forallb_filter_id.
    apply forallb_forall. reflexivity.
  - rewrite remove_in by (apply I; left; reflexivity). cbn [res_bind].
    inversion N as [|? ? Nx N']; subst.
    rewrite IH; [| exact N' |].
    + f_equal. rewrite filter_filter. apply filter_ext. intros y.
      cbn [mem existsb]. rewrite negb_orb, (eqb_sym y x). reflexivity.
    + intros y Iy. apply filter_In. split.
      * apply I. right. exact Iy.
      * apply negb_true_iff, eqb_false_iff. intros ->. contradiction.
Qed.
End Eq.

Section Dict.
Context {K V : Type} `{EqOk K}.

Lemma get_set_same (k : K) (v : V) (d : Dict K V) : get k (set k v d) = Ok v.
Proof.
  induction d as [|[k' v'] d IH]; cbn [set get].
  - rewrite eqb_refl. reflexivity.
  - destruct (k == k') eqn:E; cbn [get]; rewrite E; [reflexivity | exact IH].
Qed.

Lemma get_set_other (k k' : K) (v : V) (d : Dict K V) :
  k' <> k -> get k' (set k v d) = get k' d.
Proof.
  intros N. induction d as [|[k1 v1] d IH]; cbn [set get].
  - apply eqb_false_iff in N. rewrite N. reflexivity.
  - destruct (k == k1) eqn:E; cbn [get].
    + apply eqb_iff in E. subst k1. apply eqb_false_iff in N. rewrite N.
      reflexivity.
    + rewrite IH. reflexivity.
Qed.

Lemma get_set (k k' : K) (v : V) (d : Dict K V) :
  get k' (set k v d) = if k' == k then Ok v else get k' d.
Proof.
  destruct (k' == k) eqn:E.
  - apply eqb_iff in E. subst. apply get_set_same.
  - apply get_set_other, eqb_false_iff, E.
Qed.

(** Writing back the value a key already has changes nothing. *)
Lemma set_get_id (k : K) (v : V) (d : Dict K V) :
  get k d = Ok v -> set k v d = d.
Proof.
  induction d as [|[k' v'] d IH]; cbn [set get]; [discriminate|].
  destruct (k == k') eqn:E; intros G.
  - injection G as ->. reflexivity.
  - rewrite IH by exact G. reflexivity.
Qed.

Lemma get_in_keys (k : K) (d : Dict K V) :
  In k (keys d) <-> exists v, get k d = Ok v.
Proof.
  induction d as [|[k' v'] d IH]; cbn [keys map get In fst].
  - split; [contradiction | intros [v G]; discriminate G].
  - destruct (k == k') eqn:E.
    + apply eqb_iff in E. subst. split; eauto.
    + apply eqb_false_iff in E. rewrite <- IH. unfold keys.
      split; [intros [->|I]; [contradiction | exact I] | auto].
Qed.

Lemma get_in (k : K) (v : V) (d : Dict K V) : get k d = Ok v -> In (k, v) d.
Proof.
  induction d as [|[k' v'] d IH]; cbn [get]; [discriminate|].
  destruct (k == k') eqn:E; intros G.
  - injection G as ->. apply eqb_iff in E. subst. left. reflexivity.
  - right. apply IH, G.
Qed.

Lemma keys_set_in (k : K) (v : V) (d : Dict K V) :
  In k (keys d) -> keys (set k v d) = keys d.
Proof.
  induction d as [|[k' v'] d IH]; cbn [keys map set fst In]; [contradiction|].
  destruct (k == k') eqn:E; cbn [map fst]; [reflexivity|].
  apply eqb_false_iff in E. intros [->|I]; [contradiction|].
  f_equal. apply IH, I.
Qed.

Lemma keys_set_new (k : K) (v : V) (d : Dict K V) :
  ~ In k (keys d) -> keys (set k v d) = keys d ++ [k].
Proof.
  induction d as [|[k' v'] d IH]; cbn [keys map set fst In app];
    [reflexivity|].
  intros N. destruct (k == k') eqn:E.
  - apply eqb_iff in E. subst. exfalso. apply N. left. reflexivity.
  - cbn [map fst]. f_equal. apply IH. intros I. apply N. right. exact I.
Qed.
End Dict.
End Laws.

(* ================================================================= *)
(** ** Running a computation *)

Module Run.
Import CrosswordCreator Spec Laws.

Section Monad.
Context {S A B : Type}.

Lemma bind_ok (m : M S A) (k : A -> M S B) s a s' :
  m s = (Ok a, s') -> bind m k s = k a s'.
Proof. intros E. unfold bind. rewrite E. reflexivity. Qed.

Lemma bind_inv (m : M S A) (k : A -> M S B) s b s2 :
  bind m k s = (Ok b, s2) ->
  exists a s1, m s = (Ok a, s1) /\ k a s1 = (Ok b, s2).
Proof.
  unfold bind. destruct (m s) as [[a| |] s1]; intros E; try discriminate E.
  exists a, s1. split; [reflexivity | exact E].
Qed.

Lemma res_bind_inv (r : Res A) (k : A -> Res B) b :
  res_bind r k = Ok b -> exists a, r = Ok a /\ k a = Ok b.
Proof.
  destruct r as [a| |]; intros E; try discriminate E.
  exists a. split; [reflexivity | exact E].
Qed.
End Monad.

(** The primitives, run on a store. *)

Lemma run_bind {S A B} (m : M S A) (k : A -> M S B) s :
  bind m k s
  = match m s with
    | (Ok a, s') => k a s'
    | (Raise e, s') => (Raise e, s')
    | (OutOfFuel, s') => (OutOfFuel, s')
    end.
Proof. reflexivity. Qed.

Lemma run_ret {S A} (a : A) (s : S) : ret a s = (Ok a, s).
Proof. reflexivity. Qed.

Lemma run_lift {S A} (r : Res A) (s : S) : lift r s = (r, s).
Proof. reflexivity. Qed.

Lemma run_get_domain v s : get_domain v s = (get v (domains s), s).
Proof. reflexivity. Qed.

Lemma run_set_domain v d s :
  set_domain v d s = (Ok tt, mkSelf (set v d (domains s)) (dicts s)).
Proof. reflexivity. Qed.

Lemma run_deref r s : deref r s = (list_index (dicts s) r, s).
Proof. reflexivity. Qed.

Lemma run_store r a s :
  store r a s = (Ok tt, mkSelf (domains s) (update (dicts s) r a)).
Proof. reflexivity. Qed.

Lemma run_dict_new s :
  dict_new s
  = (Ok (List.length (dicts s)), mkSelf (domains s) (dicts s ++ [[]])).
Proof. reflexivity. Qed.

Create Rewrite HintDb run.

#[export] Hint Rewrite @run_bind @run_ret @run_lift run_get_domain
  run_set_domain run_deref run_store run_dict_new : run.

(** Runs the computation at the head of the goal as far as it goes. *)
Ltac run := repeat (progress (autorewrite with run; cbn beta iota)).

(** *** Relations a computation keeps *)

Section Keeps.
Variable R : Self -> Self -> Prop.
Hypothesis R_refl : forall s, R s s.
Hypothesis R_trans : forall s1 s2 s3, R s1 s2 -> R s2 s3 -> R s1 s3.

Lemma keeps_ret {A} (a : A) : keeps R (ret a).
Proof. intros s. apply R_refl. Qed.

Lemma keeps_lift {A} (r : Res A) : keeps R (lift r).
Proof. intros s. apply R_refl. Qed.

Lemma keeps_out_of_fuel {A} : keeps R (@out_of_fuel Self A).
Proof. intros s. apply R_refl. Qed.

Lemma keeps_get_domain v : keeps R (get_domain v).
Proof. intros s. apply R_refl. Qed.

Lemma keeps_deref r : keeps R (deref r).
Proof. intros s. apply R_refl. Qed.

Lemma keeps_bind {A B} (m : P A) (k : A -> P B) :
  keeps R m -> (forall a, keeps R (k a)) -> keeps R (bind m k).
Proof.
  intros Hm Hk s. unfold bind. specialize (Hm s).
  destruct (m s) as [[a| |] s1]; cbn [snd] in *; try exact Hm.
  eapply R_trans; [exact Hm | apply Hk].
Qed.

Lemma keeps_for_each {A} (l : list A) (body : A -> P unit) :
  (forall a, keeps R (body a)) -> keeps R (for_each l body).
Proof.
  intros Hb. induction l as [|a l IH]; cbn [for_each].
  - apply keeps_ret.
  - apply keeps_bind; [apply Hb | intros _; exact IH].
Qed.

Lemma keeps_fold_each {A B} (l : list A) (acc : B) (body : B -> A -> P B) :
  (forall acc a, keeps R (body acc a)) -> keeps R (fold_each l acc body).
Proof.
  intros Hb. revert acc. induction l as [|a l IH]; intros acc;
    cbn [fold_each].
  - apply keeps_ret.
  - apply keeps_bind; [apply Hb | intros acc'; apply IH].
Qed.
End Keeps.

Lemma keeps_weaken {A} (R R' : Self -> Self -> Prop) (m : P A) :
  (forall s s', R s s' -> R' s s') -> keeps R m -> keeps R' m.
Proof. intros W Hm s. apply W, Hm. Qed.

Lemma same_domains_refl s : same_domains s s.
Proof. reflexivity. Qed.

Lemma same_domains_trans s1 s2 s3 :
  same_domains s1 s2 -> same_domains s2 s3 -> same_domains s1 s3.
Proof. unfold same_domains. intros E1 E2. rewrite E2. exact E1. Qed.

Lemma keeps_keys_refl s : keeps_keys s s.
Proof. intros v d G. exists d. exact G. Qed.

Lemma keeps_keys_trans s1 s2 s3 :
  keeps_keys s1 s2 -> keeps_keys s2 s3 -> keeps_keys s1 s3.
Proof. intros H1 H2 v d G. destruct (H1 v d G) as [d' G']. eapply H2, G'. Qed.

Lemma same_domains_keeps_keys s s' : same_domains s s' -> keeps_keys s s'.
Proof. intros E v d G. exists d. rewrite E. exact G. Qed.

(** The dict primitives leave [self.domains] alone. *)

Lemma dict_new_domains : keeps same_domains dict_new.
Proof. intros s. reflexivity. Qed.

Lemma store_domains r a : keeps same_domains (store r a).
Proof. intros s. reflexivity. Qed.

Lemma dict_copy_domains r : keeps same_domains (dict_copy r).
Proof.
  apply keeps_bind; [exact same_domains_trans | |].
  - apply keeps_deref, same_domains_refl.
  - intros a s. reflexivity.
Qed.

Lemma dict_set_domains r k v : keeps same_domains (dict_set r k v).
Proof.
  apply keeps_bind; [exact same_domains_trans | |].
  - apply keeps_deref, same_domains_refl.
  - intros a. apply store_domains.
Qed.

Lemma set_domain_keys v d : keeps keeps_keys (set_domain v d).
Proof.
  intros s u du G. cbn. rewrite get_set. destruct (u == v); eauto.
Qed.

Create HintDb keeps.

#[export] Hint Resolve dict_new_domains store_domains dict_copy_domains
  dict_set_domains set_domain_keys : keeps.

(** The three relations used below are preorders. *)
Ltac preorder :=
  first [ exact same_domains_refl | exact same_domains_trans
        | exact keeps_keys_refl | exact keeps_keys_trans
        | exact (@eq_refl Self) | exact (@eq_trans Self) ].

(** Computations that write nothing keep any preorder. *)
Ltac keeps_leaf :=
  first [ apply keeps_ret; preorder | apply keeps_lift; preorder
        | apply keeps_out_of_fuel; preorder | apply keeps_get_domain; preorder
        | apply keeps_deref; preorder | solve [auto with keeps] ].

(** Splits a [keeps] goal along the structure of the computation. *)
Ltac keeps_step :=
  match goal with
  | |- keeps _ (bind _ _) => apply keeps_bind; [preorder .. | | intros ?]
  | |- keeps _ (for_each _ _) => apply keeps_for_each; [preorder .. | intros ?]
  | |- keeps _ (fold_each _ _ _) =>
      apply keeps_fold_each; [preorder .. | intros ? ?]
  | |- keeps _ (if ?b then _ else _) => destruct b
  | |- keeps _ (match ?x with Some _ => _ | None => _ end) => destruct x
  | |- keeps _ (match ?x with (_, _) => _ end) => destruct x
  | |- keeps _ _ => keeps_leaf
  end.

Section Frames.
Variable c : Crossword.t.

Lemma consistent_pure r : keeps eq (consistent c r).
Proof. unfold consistent. repeat keeps_step. Qed.

Lemma assignment_complete_pure r : keeps eq (assignment_complete c r).
Proof. unfold assignment_complete. repeat keeps_step. Qed.

Lemma eliminated_in_pure var neighbour val n :
  keeps eq (eliminated_in c var neighbour val n).
Proof. unfold eliminated_in. repeat keeps_step. Qed.

Lemma order_domain_values_pure var r : keeps eq (order_domain_values c var r).
Proof.
  unfold order_domain_values. repeat keeps_step.
  apply eliminated_in_pure.
Qed.

Lemma select_unassigned_variable_pure r :
  keeps eq (select_unassigned_variable c r).
Proof. unfold select_unassigned_variable. repeat keeps_step. Qed.

Lemma eq_same_domains s s' : s = s' -> same_domains s s'.
Proof. intros <-. reflexivity. Qed.

Lemma try_values_domains recurse var r values :
  (forall r, keeps same_domains (recurse r)) ->
  keeps same_domains (try_values c recurse var r values).
Proof.
  intros Hrec. induction values as [|value values IH]; cbn [try_values].
  - keeps_leaf.
  - repeat keeps_step; try apply Hrec; try exact IH.
    eapply keeps_weaken; [apply eq_same_domains | apply consistent_pure].
Qed.

Lemma backtrack_domains fuel r : keeps same_domains (backtrack c fuel r).
Proof.
  revert r. induction fuel as [|fuel IH]; intros r; cbn [backtrack].
  - keeps_leaf.
  - keeps_step.
    { eapply keeps_weaken;
        [apply eq_same_domains | apply assignment_complete_pure]. }
    keeps_step; [keeps_leaf|].
    keeps_step.
    { eapply keeps_weaken;
        [apply eq_same_domains | apply select_unassigned_variable_pure]. }
    keeps_step; [|keeps_leaf].
    keeps_step.
    { eapply keeps_weaken;
        [apply eq_same_domains | apply order_domain_values_pure]. }
    apply try_values_domains, IH.
Qed.

Lemma revise_keys x y : keeps keeps_keys (revise c x y).
Proof.
  unfold revise. destruct (Crossword.overlaps c x y) as [[ox oy]|];
    repeat keeps_step.
Qed.

Lemma enforce_node_consistency_keys :
  keeps keeps_keys (enforce_node_consistency c).
Proof. unfold enforce_node_consistency. repeat keeps_step. Qed.

Lemma ac3_loop_keys fuel queue : keeps keeps_keys (ac3_loop c fuel queue).
Proof.
  revert queue. induction fuel as [|fuel IH]; intros [|[x y] queue];
    cbn [ac3_loop]; try keeps_leaf.
  keeps_step; [apply revise_keys|].
  repeat keeps_step; apply IH.
Qed.

Lemma ac3_keys fuel arcs : keeps keeps_keys (ac3 c fuel arcs).
Proof. destruct arcs; apply ac3_loop_keys. Qed.
End Frames.
End Run.

(* ================================================================= *)
(** ** Node consistency *)

Module NodeConsistency.
Import CrosswordCreator Spec Laws Run.

Lemma set_set {K V} `{EqOk K} (k : K) (v v' : V) (d : Dict K V) :
  set k v (set k v' d) = set k v d.
Proof.
  induction d as [|[k1 v1] d IH]; cbn [set].
  - rewrite eqb_refl. reflexivity.
  - destruct (k == k1) eqn:E; cbn [set]; rewrite E; [reflexivity|].
    rewrite IH. reflexivity.
Qed.

Section Init.
Variable c : Crossword.t.

Lemma get_init_from (vs : list Var.t) (d : Domains) (v : Var.t) :
  get v (fold_left (fun d var => set var (Crossword.words c) d) vs d)
  = if mem v vs then Ok (Crossword.words c) else get v d.
Proof.
  revert d. induction vs as [|x vs IH]; intros d; cbn [fold_left];
    [reflexivity|].
  rewrite IH, get_set. cbn [mem existsb]. fold (mem v vs).
  destruct (mem v vs), (v == x); reflexivity.
Qed.

(** After [__init__] the domain of every variable is the word list. *)
Lemma get_init (v : Var.t) :
  In v (Crossword.variables c) ->
  get v (domains (init c)) = Ok (Crossword.words c).
Proof.
  intros I. unfold init. cbn [domains]. rewrite get_init_from.
  apply mem_iff in I. rewrite I. reflexivity.
Qed.

Lemma init_has_domains : has_domains c (init c).
Proof. intros v I. exists (Crossword.words c). apply get_init, I. Qed.

(** The pass over the word list for one variable. *)
Lemma words_pass (var : Var.t) (ws d : list string) (s : Self) :
  NoDup ws ->
  get var (domains s) = Ok d ->
  (forall w, In w ws -> too_long_or_short var w = true -> In w d) ->
  for_each ws (fun word =>
    if String.length word != Var.length var then
      (d <- get_domain var ;;
       d' <- lift (remove word d) ;;
       set_domain var d')%py
    else ret tt) s
  = (Ok tt,
     mkSelf
       (set var
          (filter (fun y => negb (too_long_or_short var y && mem y ws)) d)
          (domains s))
       (dicts s)).
Proof.
  revert d s. induction ws as [|w ws IH]; intros d s N G Hin; cbn [for_each].
  - unfold ret. f_equal. destruct s as [ds hs]. cbn [domains dicts] in *.
    f_equal. symmetry. apply set_get_id. rewrite G. f_equal.
    symmetry. apply forallb_filter_id, forallb_forall. intros y _.
    cbn [mem existsb]. rewrite andb_false_r. reflexivity.
  - inversion N as [|? ? Nw N']; subst.
    fold (too_long_or_short var w).
    destruct (too_long_or_short var w) eqn:B.
    + assert (Iw : In w d) by (apply Hin; [left; reflexivity | exact B]).
      run. rewrite G. run. rewrite (remove_in _ _ Iw). run.
      rewrite (IH (filter (fun y => negb (w == y)) d)); cbn [domains dicts].
      * f_equal. f_equal. rewrite set_set. f_equal.
        rewrite filter_filter. apply filter_ext. intros y.
        cbn [mem existsb]. rewrite (eqb_sym w y).
        destruct (y == w) eqn:E.
        -- apply eqb_iff in E. subst y. rewrite B. reflexivity.
        -- rewrite orb_false_l. reflexivity.
      * exact N'.
      * apply get_set_same.
      * intros w' I' B'. apply filter_In. split.
        -- apply Hin; [right; exact I' | exact B'].
        -- apply negb_true_iff, eqb_false_iff. intros ->. contradiction.
    + run. rewrite (IH d s N' G).
      * f_equal. f_equal. f_equal. apply filter_ext. intros y.
        cbn [mem existsb]. destruct (y == w) eqn:E.
        -- apply eqb_iff in E. subst y. rewrite B. reflexivity.
        -- rewrite orb_false_l. reflexivity.
      * intros w' I' B'. apply Hin; [right; exact I' | exact B'].
Qed.

(** The whole loop, started on variables whose domain is still the full
    word list. *)
Lemma variables_pass (vs : list Var.t) (s : Self) :
  NoDup vs -> NoDup (Crossword.words c) ->
  (forall v, In v vs -> get v (domains s) = Ok (Crossword.words c)) ->
  exists s',
    for_each vs (fun var =>
      for_each (Crossword.words c) (fun word =>
        if String.length word != Var.length var then
          (d <- get_domain var ;;
           d' <- lift (remove word d) ;;
           set_domain var d')%py
        else ret tt)) s = (Ok tt, s')
    /\ dicts s' = dicts s
    /\ (forall v, In v vs ->
          get v (domains s')
          = Ok (filter (fun w => String.length w == Var.length v)
                       (Crossword.words c)))
    /\ (forall v, ~ In v vs -> get v (domains s') = get v (domains s)).
Proof.
  revert s. induction vs as [|x vs IH]; intros s N Nw G; cbn [for_each].
  - exists s. split; [reflexivity|]. split; [reflexivity|].
    split; [intros v [] | reflexivity].
  - inversion N as [|? ? Nx N']; subst.
    run. rewrite (@words_pass x _ _ s Nw (G x (or_introl eq_refl))) by auto.
    cbn beta iota. set (s1 := mkSelf _ _).
    destruct (IH s1 N' Nw) as (s' & R & Hd & Hin & Hout).
    { intros v I. subst s1. cbn [domains]. rewrite get_set_other.
      - apply G. right. exact I.
      - intros ->. contradiction. }
    exists s'. split; [exact R|]. split; [exact Hd|]. split.
    + intros v [<-|I]; [|apply Hin, I].
      rewrite (Hout x Nx). subst s1. cbn [domains]. rewrite get_set_same.
      f_equal. apply filter_ext_in. intros w I.
      apply mem_iff in I. rewrite I, andb_true_r.
      unfold too_long_or_short. apply negb_involutive.
    + intros v Nv. rewrite Hout by (intros I; apply Nv; right; exact I).
      subst s1. cbn [domains]. apply get_set_other.
      intros ->. apply Nv. left. reflexivity.
Qed.
End Init.

(** What [enforce_node_consistency] leaves when run after [__init__]. *)
Lemma enforce_node_consistency_run (c : Crossword.t) :
  NoDup (Crossword.variables c) -> NoDup (Crossword.words c) ->
  exists s,
    enforce_node_consistency c (init c) = (Ok tt, s)
    /\ forall v, In v (Crossword.variables c) ->
         get v (domains s)
         = Ok (filter (fun w => String.length w == Var.length v)
                      (Crossword.words c)).
Proof.
  intros Nv Nw.
  destruct (@variables_pass c (Crossword.variables c) (init c) Nv Nw)
    as (s & R & _ & Hin & _).
  { intros v I. apply get_init, I. }
  exists s. split; [exact R | exact Hin].
Qed.

Lemma filtered_by_length (c : Crossword.t) (s : Self) (v : Var.t) (w : string) :
  get v (domains s)
  = Ok (filter (fun w => String.length w == Var.length v)
               (Crossword.words c)) ->
  In w (domain s v) <->
  In w (Crossword.words c) /\ String.length w = Var.length v.
Proof.
  intros G. unfold domain. rewrite G, filter_In.
  change (String.length w == Var.length v)
    with (Nat.eqb (String.length w) (Var.length v)).
  rewrite Nat.eqb_eq. reflexivity.
Qed.

(** C8. After [enforce_node_consistency] has run on the freshly
    initialised domains, the domain of every variable [v] is the word list
    filtered by [len(w) == v.length]: every word in it has the length of
    [v], and it holds exactly the dictionary words of that length. *)
Theorem enforce_node_consistency_post (c : Crossword.t) :
  NoDup (Crossword.variables c) -> NoDup (Crossword.words c) ->
  exists s,
    enforce_node_consistency c (init c) = (Ok tt, s)
    /\ node_consistent c s
    /\ forall v, In v (Crossword.variables c) ->
         get v (domains s)
         = Ok (filter (fun w => String.length w == Var.length v)
                      (Crossword.words c))
         /\ forall w, In w (domain s v) <->
                      In w (Crossword.words c)
                      /\ String.length w = Var.length v.
Proof.
  intros Nv Nw.
  destruct (enforce_node_consistency_run c Nv Nw) as (s & R & Hin).
  exists s. split; [exact R|]. split.
  - intros v w I Iw. apply (filtered_by_length c s v w (Hin v I)), Iw.
  - intros v I. split; [apply Hin, I|].
    intros w. apply filtered_by_length, Hin, I.
Qed.

(** An instance: the three rows with two words. *)
Lemma enforce_node_consistency_post_witness :
  exists s,
    enforce_node_consistency Grid.three_rows (init Grid.three_rows) = (Ok tt, s)
    /\ node_consistent Grid.three_rows s
    /\ forall v, In v (Crossword.variables Grid.three_rows) ->
         get v (domains s)
         = Ok (filter (fun w => String.length w == Var.length v)
                      (Crossword.words Grid.three_rows))
         /\ forall w, In w (domain s v) <->
                      In w (Crossword.words Grid.three_rows)
                      /\ String.length w = Var.length v.
Proof.
  apply (@enforce_node_consistency_post Grid.three_rows).
  - repeat constructor; cbn; intuition discriminate.
  - repeat constructor; cbn; intuition discriminate.
Defined.
End NodeConsistency.

(* ================================================================= *)
(** ** Arc consistency *)

Module ArcConsistency.
Import CrosswordCreator Spec Laws Run.

Lemma str_index_ok (w : string) (k : nat) (t : string) :
  str_index w k = Ok t <->
  exists ch, String.get k w = Some ch /\ t = String ch EmptyString.
Proof.
  unfold str_index. destruct (String.get k w) as [ch|]; split.
  - intros E. injection E as <-. eauto.
  - intros (ch' & E & ->). injection E as ->. reflexivity.
  - discriminate.
  - intros (ch' & E & _). discriminate E.
Qed.

Lemma agree_at_sym ox oy w w2 : agree_at ox oy w w2 -> agree_at oy ox w2 w.
Proof. intros (ch & E1 & E2). exists ch. auto. Qed.

(** [conflict] stays [True] exactly when no word of [dy] agrees with [w1]. *)
Lemma conflict_with_ok ox oy w1 dy b :
  conflict_with ox oy w1 dy = Ok b ->
  (b = false <-> exists w2, In w2 dy /\ agree_at ox oy w1 w2).
Proof.
  unfold conflict_with.
  enough (G : forall acc,
    res_fold dy acc (fun conflict w2 =>
      (c1 <- str_index w1 ox ;;
       c2 <- str_index w2 oy ;;
       Ok (if c1 == c2 then false else conflict))%res) = Ok b ->
    (b = false <->
     acc = false \/ exists w2, In w2 dy /\ agree_at ox oy w1 w2)).
  { intros E. rewrite (G true E). split; [intros [D|S]|]; auto.
    discriminate D. }
  induction dy as [|w2 dy IH]; intros acc E; cbn [res_fold] in E.
  - injection E as <-. split; [auto | intros [->|(w2 & [] & _)]; reflexivity].
  - apply res_bind_inv in E as (acc' & E1 & E).
    apply res_bind_inv in E1 as (c1 & G1 & E1).
    apply res_bind_inv in E1 as (c2 & G2 & E1).
    injection E1 as <-.
    apply str_index_ok in G1 as (ch1 & G1 & ->).
    apply str_index_ok in G2 as (ch2 & G2 & ->).
    rewrite (IH _ E). clear IH E.
    destruct (String ch1 EmptyString == String ch2 EmptyString) eqn:C.
    + apply eqb_iff in C. injection C as ->. split; intros _.
      * right. exists w2. split; [left; reflexivity | exists ch2; auto].
      * left. reflexivity.
    + apply eqb_false_iff in C. split.
      * intros [->|(w & I & A)]; [left; reflexivity|].
        right. exists w. split; [right; exact I | exact A].
      * intros [->|(w & [<-|I] & A)]; [left; reflexivity | | right; eauto].
        exfalso. destruct A as (ch & A1 & A2).
        rewrite G1 in A1. rewrite G2 in A2.
        injection A1 as ->. injection A2 as ->. apply C. reflexivity.
Qed.

Section Revise.
Variable c : Crossword.t.

Lemma domain_get s v d : get v (domains s) = Ok d -> domain s v = d.
Proof. unfold domain. intros ->. reflexivity. Qed.

(** The first loop of [revise] collects the unsupported words of [dx]. *)
Lemma revise_collects y ox oy dx acc s r s' :
  fold_each dx acc (fun to_be_removed w1 =>
    (dy <- get_domain y ;;
     conflict <- lift (conflict_with ox oy w1 dy) ;;
     ret (if conflict then to_be_removed ++ [w1] else to_be_removed))%py) s
  = (Ok r, s') ->
  s' = s /\
  exists rem,
    r = acc ++ rem
    /\ (forall w, In w rem -> In w dx /\ ~ supported s y ox oy w)
    /\ (forall w, In w dx -> In w rem \/ supported s y ox oy w).
Proof.
  revert acc. induction dx as [|w1 dx IH]; intros acc E; cbn [fold_each] in E.
  - injection E as <- <-. split; [reflexivity|]. exists [].
    rewrite app_nil_r. repeat split; try contradiction.
  - revert E. run. destruct (get y (domains s)) as [dy| |] eqn:G;
      cbn beta iota; try discriminate.
    run. destruct (conflict_with ox oy w1 dy) as [b| |] eqn:C;
      cbn beta iota; try discriminate.
    run. intros E. apply IH in E as (-> & rem & -> & Hrem & Hdx).
    split; [reflexivity|].
    apply conflict_with_ok in C. rewrite <- (domain_get _ _ _ G) in C.
    fold (supported s y ox oy w1) in C.
    destruct b.
    + exists (w1 :: rem). rewrite <- app_assoc. split; [reflexivity|]. split.
      * intros w [<-|I].
        -- split; [left; reflexivity|]. intros S. apply C in S. discriminate S.
        -- destruct (Hrem w I). split; [right|]; assumption.
      * intros w [<-|I]; [left; left; reflexivity|].
        destruct (Hdx w I); [left; right|right]; assumption.
    + exists rem. split; [reflexivity|]. split.
      * intros w I. destruct (Hrem w I). split; [right|]; assumption.
      * intros w [<-|I]; [right; apply C; reflexivity | apply Hdx, I].
Qed.

(** What a call of [revise] that returns has done. *)
Lemma revise_ok x y s b s' :
  revise c x y s = (Ok b, s') ->
  match Crossword.overlaps c x y with
  | None => s' = s /\ b = false
  | Some (ox, oy) =>
      exists dx dx',
        get x (domains s) = Ok dx
        /\ s' = mkSelf (set x dx' (domains s)) (dicts s)
        /\ (forall w, In w dx' <-> In w dx /\ supported s y ox oy w)
        /\ (b = false -> s' = s)
        /\ (b = true -> List.length dx' < List.length dx)
  end.
Proof.
  unfold revise. destruct (Crossword.overlaps c x y) as [[ox oy]|].
  2:{ intros E. injection E as <- <-. auto. }
  run. destruct (get x (domains s)) as [dx| |] eqn:G;
    cbn beta iota; try discriminate.
  rewrite run_bind.
  destruct (fold_each dx [] _ s) as [[tbr| |] s1] eqn:F;
    cbn beta iota; try discriminate.
  apply revise_collects in F as (-> & rem & -> & Hrem & Hdx).
  cbn [app]. run. rewrite G. run.
  destruct (remove_each rem dx) as [dx'| |] eqn:R;
    cbn beta iota; try discriminate.
  run. intros E. injection E as <- <-.
  apply remove_each_ok in R.
  assert (In' : forall w, In w dx' <-> In w dx /\ supported s y ox oy w).
  { intros w. subst dx'. rewrite filter_In, negb_true_iff, mem_false_iff.
    split; intros [I N]; (split; [exact I|]).
    - destruct (Hdx w I) as [Ir|S]; [contradiction | exact S].
    - intros Ir. apply (Hrem w Ir), N. }
  exists dx, dx'. split; [reflexivity|]. split; [reflexivity|].
  split; [exact In'|]. split.
  - destruct rem as [|w rem]; [|discriminate]. intros _.
    assert (dx' = dx) as ->.
    { subst dx'. apply forallb_filter_id, forallb_forall. reflexivity. }
    rewrite (set_get_id _ _ _ G). destruct s; reflexivity.
  - destruct rem as [|w rem]; [discriminate|]. intros _.
    subst dx'. destruct (Hrem w (or_introl eq_refl)) as [Iw _].
    clear - Iw. induction dx as [|a dx IH]; [contradiction|].
    cbn [filter]. destruct (negb (mem a (w :: rem))) eqn:Ma.
    + destruct Iw as [->|Iw].
      * cbn [mem existsb] in Ma. rewrite eqb_refl in Ma. discriminate Ma.
      * cbn [List.length]. apply -> Nat.succ_lt_mono. apply IH, Iw.
    + cbn [List.length]. apply Nat.lt_succ_r, filter_length_le.
Qed.
End Revise.

Section Loop.
Variable c : Crossword.t.
Hypothesis Hsym : symmetric_overlaps c.

Lemma neighbors_iff x y :
  In y (Crossword.neighbors c x) <->
  In y (Crossword.variables c) /\ y <> x
  /\ exists o, Crossword.overlaps c y x = Some o.
Proof.
  unfold Crossword.neighbors. rewrite filter_In, andb_true_iff, negb_true_iff.
  rewrite eqb_false_iff. destruct (Crossword.overlaps c y x) as [o|].
  - split; [intros (I & N & _); eauto | intros (I & N & _); auto].
  - split; [intros (_ & _ & D); discriminate D | intros (_ & _ & o & D)].
    discriminate D.
Qed.

Lemma fold_left_keeps {A B} (g : list A -> B -> list A) l q a :
  (forall q b, In a q -> In a (g q b)) ->
  In a q -> In a (fold_left g l q).
Proof.
  intros Hg. revert q. induction l as [|b l IH]; intros q I; cbn [fold_left];
    [exact I | apply IH, Hg, I].
Qed.

Lemma fold_left_adds {A B} (g : list A -> B -> list A) l q a b :
  (forall q b, In a q -> In a (g q b)) ->
  (forall q, In a (g q b)) ->
  In b l -> In a (fold_left g l q).
Proof.
  intros Hk Hb. revert q. induction l as [|b' l IH]; intros q I;
    cbn [fold_left]; [contradiction|].
  destruct I as [->|I]; [apply fold_left_keeps; auto | apply IH, I].
Qed.

Lemma requeue_keeps x y queue a : In a queue -> In a (requeue c x y queue).
Proof.
  apply fold_left_keeps. intros q z I.
  destruct (z != y); [apply in_or_app; left|]; exact I.
Qed.

Lemma requeue_adds x y queue z :
  In z (Crossword.neighbors c x) -> z <> y -> In (z, x) (requeue c x y queue).
Proof.
  intros I N. unfold requeue. eapply fold_left_adds; [| |exact I].
  - intros q z' I'. destruct (z' != y); [apply in_or_app; left|]; exact I'.
  - intros q. apply eqb_false_iff in N. rewrite N. cbn [negb].
    apply in_or_app. right. left. reflexivity.
Qed.

(** The initial queue holds every arc. *)
Lemma all_arcs_in x y :
  In x (Crossword.variables c) -> In y (Crossword.neighbors c x) ->
  In (x, y) (all_arcs c).
Proof.
  intros Ix Iy. unfold all_arcs.
  assert (K : forall var q n, In (x, y) q ->
            In (x, y) (if negb (mem (var, n) q) then q ++ [(var, n)] else q)).
  { intros var q n I. destruct (negb (mem (var, n) q));
      [apply in_or_app; left|]; exact I. }
  eapply fold_left_adds; [| |exact Ix].
  - intros q var I. apply fold_left_keeps; [|exact I]. intros; apply K; auto.
  - intros q. eapply fold_left_adds; [| |exact Iy].
    + intros; apply K; auto.
    + intros q'. destruct (mem (x, y) q') eqn:E; cbn [negb].
      * apply mem_iff, E.
      * apply in_or_app. right. left. reflexivity.
Qed.

Lemma domain_set s x dx u :
  domain (mkSelf (set x dx (domains s)) (dicts s)) u
  = if u == x then dx else domain s u.
Proof.
  unfold domain. cbn [domains]. rewrite get_set.
  destruct (u == x); reflexivity.
Qed.

(** One iteration of the loop keeps the invariant. *)
Lemma ac3_step x y queue s b s1 :
  revise c x y s = (Ok b, s1) ->
  queued_or_ok c s ((x, y) :: queue) ->
  queued_or_ok c s1 (if b then requeue c x y queue else queue).
Proof.
  intros R Inv u v Iu Iv.
  pose proof Iv as Nv. apply neighbors_iff in Nv as (Iv' & Nvu & o & Ovu).
  apply revise_ok in R.
  destruct (Crossword.overlaps c x y) as [[ox oy]|] eqn:O.
  - destruct R as (dx & dx' & G & -> & In' & Hf & _).
    assert (Sub : forall w t, In w (domain (mkSelf (set x dx' (domains s))
                                   (dicts s)) t) -> In w (domain s t)).
    { intros w t. rewrite domain_set. destruct (t == x) eqn:E; [|auto].
      apply eqb_iff in E. subst t. rewrite (domain_get _ _ _ G).
      intros I. apply In', I. }
    assert (Same : forall t, t <> x ->
              domain (mkSelf (set x dx' (domains s)) (dicts s)) t
              = domain s t).
    { intros t N. rewrite domain_set. apply eqb_false_iff in N.
      rewrite N. reflexivity. }
    destruct (Inv u v Iu Iv) as [[E|Iq]|A].
    + injection E as <- <-. right. intros ox' oy' w O' Iw.
      rewrite O in O'. injection O' as <- <-.
      rewrite domain_set, eqb_refl in Iw. apply In' in Iw as [_ (w2 & I2 & A)].
      exists w2. split; [|exact A]. rewrite Same; [exact I2 | exact Nvu].
    + left. destruct b; [apply requeue_keeps|]; exact Iq.
    + destruct b; [|rewrite (Hf eq_refl); right; exact A].
      destruct (v == x) eqn:Evx.
      * apply eqb_iff in Evx. subst v.
        destruct (u == y) eqn:Euy.
        -- apply eqb_iff in Euy. subst u. right. intros o1 o2 w2 O2 I2.
           rewrite Same in I2 by auto.
           destruct (A o1 o2 w2 O2 I2) as (w & Iw & Aw).
           pose proof (Hsym _ _ _ _ Iu Iv' O2) as O'.
           rewrite O in O'. injection O' as -> ->.
           exists w. split; [|exact Aw].
           rewrite domain_set, eqb_refl. apply In'. split.
           ++ rewrite <- (domain_get _ _ _ G). exact Iw.
           ++ exists w2. split; [exact I2 | apply agree_at_sym, Aw].
        -- left. apply requeue_adds; [|apply eqb_false_iff, Euy].
           apply neighbors_iff. split; [exact Iu|]. split; [auto|].
           destruct o as [o1 o2]. exists (o2, o1).
           apply Hsym; assumption.
      * apply eqb_false_iff in Evx. right. intros o1 o2 w O' Iw.
        destruct (A o1 o2 w O' (Sub _ _ Iw)) as (w2 & I2 & A2).
        exists w2. split; [|exact A2]. rewrite Same; assumption.
  - destruct R as [-> ->].
    destruct (Inv u v Iu Iv) as [[E|Iq]|A]; [|left; exact Iq|right; exact A].
    injection E as <- <-. right. intros ox oy w O'.
    rewrite O in O'. discriminate O'.
Qed.

(** When the loop ends with [True], no arc is left inconsistent. *)
Lemma ac3_loop_ok fuel queue s s' :
  queued_or_ok c s queue ->
  ac3_loop c fuel queue s = (Ok true, s') ->
  queued_or_ok c s' [].
Proof.
  revert queue s. induction fuel as [|fuel IH]; intros [|[x y] queue] s Inv;
    cbn [ac3_loop]; try discriminate;
    try (intros E; injection E as <-; exact Inv).
  run. destruct (revise c x y s) as [[b| |] s1] eqn:R;
    cbn beta iota; try discriminate.
  assert (Inv1 : queued_or_ok c s1 (if b then requeue c x y queue else queue))
    by (eapply ac3_step; eassumption).
  destruct b.
  - run. destruct (get x (domains s1)) as [dx| |]; cbn beta iota;
      try discriminate.
    destruct (List.length dx == 0); [discriminate|].
    apply IH, Inv1.
  - apply IH, Inv1.
Qed.
End Loop.

(** C6. Whenever [ac3], called without an arc list, returns [True], the
    domains it leaves are arc consistent: for every ordered pair of distinct
    variables [(x, y)] with an overlap entry [(ox, oy)] and every word [w]
    left in the domain of [x], the domain of [y] holds a word [w2] with
    [w[ox] == w2[oy]]. *)
Theorem ac3_arc_consistent (c : Crossword.t) (fuel : nat) (s s' : Self) :
  symmetric_overlaps c ->
  ac3 c fuel None s = (Ok true, s') ->
  arc_consistent c s'.
Proof.
  intros Hsym E x y ox oy w Ix Iy N O Iw.
  cbn [ac3] in E. apply (ac3_loop_ok c Hsym) in E.
  - destruct (E x y) as [[]|A]; [exact Ix | | exact (A ox oy w O Iw)].
    apply neighbors_iff. split; [exact Iy|]. split; [auto|].
    exists (oy, ox). apply Hsym; assumption.
  - intros u v Iu Iv. left. apply all_arcs_in; assumption.
Qed.
End ArcConsistency.

(* ================================================================= *)
(** ** Variable selection *)

Module Selection.
Import CrosswordCreator Spec Laws Run.

(** *** [sorted] *)

Lemma insert_sorted_perm n l : Permutation (insert_sorted n l) (n :: l).
Proof.
  induction l as [|m l IH]; cbn [insert_sorted]; [reflexivity|].
  destruct (n <=? m); [reflexivity|].
  rewrite IH. apply perm_swap.
Qed.

Lemma sorted_perm l : Permutation (sorted l) l.
Proof.
  induction l as [|n l IH]; cbn [sorted fold_right]; [reflexivity|].
  fold (sorted l). rewrite insert_sorted_perm, IH. reflexivity.
Qed.

Lemma insert_sorted_sorted n l :
  StronglySorted le l -> StronglySorted le (insert_sorted n l).
Proof.
  induction 1 as [|m l S IH F]; cbn [insert_sorted].
  - repeat constructor.
  - destruct (n <=? m) eqn:E.
    + apply Nat.leb_le in E. constructor; [constructor; assumption|].
      constructor; [exact E|]. eapply Forall_impl; [|exact F].
      intros k Hk. lia.
    + apply Nat.leb_gt in E. constructor; [exact IH|].
      rewrite insert_sorted_perm. constructor; [lia | exact F].
Qed.

Lemma sorted_sorted l : StronglySorted le (sorted l).
Proof.
  induction l as [|n l IH]; cbn [sorted fold_right]; [constructor|].
  apply insert_sorted_sorted, IH.
Qed.

(** The first element of [sorted l] is a least element of [l], and when
    [l] has no repetition the second one differs from it. *)
Lemma sorted_head l k rest :
  sorted l = k :: rest ->
  In k l /\ (forall n, In n l -> k <= n)
  /\ (NoDup l -> forall n, In n rest -> n <> k).
Proof.
  intros E. pose proof (sorted_perm l) as Pm. pose proof (sorted_sorted l) as St.
  rewrite E in Pm, St. split; [|split].
  - eapply Permutation_in; [exact Pm | left; reflexivity].
  - intros n I. apply Permutation_sym in Pm.
    apply (Permutation_in _ Pm) in I as [<-|I]; [lia|].
    inversion St as [|? ? _ F]; subst.
    rewrite Forall_forall in F. apply F, I.
  - intros N n I ->. apply Permutation_sym in Pm.
    apply (Permutation_NoDup Pm) in N.
    inversion N; subst. contradiction.
Qed.

Section Select.
Variable c : Crossword.t.
Hypothesis Hvars : NoDup (Crossword.variables c).

(** The list of unused variables that [select_unassigned_variable] builds. *)
Lemma unused_variables a :
  remove_each
    (filter (fun var => mem var (keys a)) (Crossword.variables c))
    (Crossword.variables c)
  = Ok (unassigned c a).
Proof.
  rewrite remove_each_in.
  - f_equal. apply filter_ext_in. intros v I. f_equal.
    destruct (mem v (keys a)) eqn:E.
    + apply mem_iff, filter_In. split; [exact I | exact E].
    + apply mem_false_iff. rewrite filter_In. intros [_ E'].
      rewrite E in E'. discriminate E'.
  - apply NoDup_filter, Hvars.
  - intros v I. apply filter_In in I. apply I.
Qed.

Lemma number_of_options_run s us acc :
  (forall u, In u us -> exists d, get u (domains s) = Ok d) ->
  fold_each us acc (fun number_of_options var =>
    (d <- get_domain var ;;
     ret (set (List.length d) var number_of_options))%py) s
  = (Ok (options_of s us acc), s).
Proof.
  revert acc. induction us as [|u us IH]; intros acc D; cbn [fold_each].
  - reflexivity.
  - destruct (D u (or_introl eq_refl)) as [d G]. run. rewrite G. run.
    rewrite IH by (intros; apply D; right; assumption).
    unfold options_of. cbn [fold_left]. unfold domain_size.
    rewrite (ArcConsistency.domain_get _ _ _ G). reflexivity.
Qed.

Lemma options_of_keys s us acc k :
  In k (keys (options_of s us acc)) <->
  In k (keys acc) \/ exists u, In u us /\ domain_size s u = k.
Proof.
  revert acc. induction us as [|u us IH]; intros acc;
    unfold options_of; cbn [fold_left].
  - split; [auto | intros [I|(u & [] & _)]; exact I].
  - fold (options_of s us (set (domain_size s u) u acc)). rewrite IH.
    rewrite !get_in_keys. split.
    + intros [[v G]|(u' & I & E)].
      * rewrite get_set in G. destruct (k == domain_size s u) eqn:E.
        -- apply eqb_iff in E. right. exists u. split; [left|]; auto.
        -- left. eauto.
      * right. exists u'. split; [right|]; assumption.
    + intros [[v G]|(u' & [<-|I] & E)].
      * left. rewrite get_set. destruct (k == domain_size s u); eauto.
      * left. rewrite get_set. apply eqb_iff in E. rewrite eqb_sym, E. eauto.
      * right. eauto.
Qed.

Lemma options_of_get s us acc k var :
  get k (options_of s us acc) = Ok var ->
  get k acc = Ok var \/ (In var us /\ domain_size s var = k).
Proof.
  revert acc. induction us as [|u us IH]; intros acc;
    unfold options_of; cbn [fold_left]; [auto|].
  fold (options_of s us (set (domain_size s u) u acc)). intros G.
  apply IH in G as [G|[I E]].
  - rewrite get_set in G. destruct (k == domain_size s u) eqn:E.
    + injection G as <-. apply eqb_iff in E. right. split; [left|]; auto.
    + left. exact G.
  - right. split; [right|]; assumption.
Qed.

Lemma set_keys_nodup {V} (k : nat) (v : V) (d : Dict nat V) :
  NoDup (keys d) -> NoDup (keys (set k v d)).
Proof.
  intros N. destruct (mem k (keys d)) eqn:E.
  - rewrite keys_set_in; [exact N | apply mem_iff, E].
  - apply mem_false_iff in E. rewrite keys_set_new by exact E.
    apply NoDup_app; [exact N | repeat constructor; intros [] |].
    intros x Ix [<-|[]]. contradiction.
Qed.

Lemma options_of_nodup s us acc :
  NoDup (keys acc) -> NoDup (keys (options_of s us acc)).
Proof.
  revert acc. induction us as [|u us IH]; intros acc N;
    unfold options_of; cbn [fold_left]; [exact N|].
  apply IH, set_keys_nodup, N.
Qed.

(** Since the keys of [number_of_options] are distinct, the loop over
    [options] stops after its first round. *)
Lemma smallest_options_first (noo : Dict nat Var.t) k rest var :
  get k noo = Ok var ->
  (forall n, In n rest -> n <> k) ->
  smallest_options noo (k :: rest) (enumerate (k :: rest)) [] = Ok [var].
Proof.
  intros G D. unfold enumerate. cbn [List.length seq combine smallest_options].
  change (0 == 0) with true. cbn iota. rewrite G. cbn [res_bind app].
  destruct rest as [|k1 rest]; cbn [List.length seq combine smallest_options];
    [reflexivity|].
  change (1 == 0) with false. cbn iota.
  cbn [Nat.sub list_index nth_error res_bind].
  assert (E : (k1 == k) = false)
    by (apply eqb_false_iff, D; left; reflexivity).
  rewrite E. reflexivity.
Qed.

(** [select_unassigned_variable] applies minimum-remaining-values: it
    returns an unassigned variable whose domain is as small as any. *)
Lemma select_minimum_remaining_values r s a :
  has_domains c s ->
  deref r s = (Ok a, s) ->
  unassigned c a <> [] ->
  exists var,
    select_unassigned_variable c r s = (Ok (Some var), s)
    /\ In var (unassigned c a)
    /\ forall u, In u (unassigned c a) ->
                 domain_size s var <= domain_size s u.
Proof.
  intros D Ha Hne. unfold select_unassigned_variable.
  rewrite run_bind, Ha. cbn beta iota. run.
  rewrite unused_variables. cbn beta iota. rewrite run_bind.
  rewrite number_of_options_run.
  2:{ intros u I. apply D. apply filter_In in I. apply I. }
  cbn beta iota. set (noo := options_of s (unassigned c a) []).
  destruct (sorted (keys noo)) as [|k rest] eqn:Es.
  { exfalso. destruct (unassigned c a) as [|u us] eqn:Eu; [auto|].
    assert (I : In (domain_size s u) (keys noo)).
    { apply options_of_keys. right. exists u. split; [left|]; reflexivity. }
    apply (Permutation_in _ (Permutation_sym (sorted_perm _))) in I.
    rewrite Es in I. exact I. }
  destruct (sorted_head _ _ _ Es) as (Ik & Hmin & Hd).
  apply get_in_keys in Ik as [var G].
  rewrite run_bind, run_lift.
  rewrite (smallest_options_first _ _ _ _ G).
  2:{ apply Hd, options_of_nodup. constructor. }
  cbn beta iota. change (List.length [var] != 1) with false. cbn iota.
  run. cbn [list_index nth_error]. run.
  exists var. split; [reflexivity|].
  apply options_of_get in G as [G|[I E]]; [discriminate G|].
  split; [exact I|]. intros u Iu. rewrite E. apply Hmin.
  apply options_of_keys. right. exists u. auto.
Qed.
End Select.
End Selection.

(* ================================================================= *)
(** ** Value ordering *)

Module Ordering.
Import CrosswordCreator Spec Laws Run.

(** *** The order on counts *)

Lemma count_ltb_trans a b d :
  count_ltb a b = true -> count_ltb b d = true -> count_ltb a d = true.
Proof.
  destruct a as [|n|], b as [|m|], d as [|k|]; cbn [count_ltb];
    try discriminate; try reflexivity.
  rewrite !Nat.ltb_lt. lia.
Qed.

Lemma count_ltb_irrefl a : count_ltb a a = false.
Proof. destruct a; cbn [count_ltb]; try reflexivity. apply Nat.ltb_irrefl. Qed.

Lemma count_ltb_asym a b : count_ltb a b = true -> count_ltb b a = false.
Proof.
  destruct a as [|n|], b as [|m|]; cbn [count_ltb];
    try discriminate; try reflexivity.
  rewrite Nat.ltb_lt, Nat.ltb_ge. lia.
Qed.

(** [a <= b], read as "not [b < a]", is transitive. *)
Lemma count_le_trans a b d :
  count_ltb b a = false -> count_ltb d b = false -> count_ltb d a = false.
Proof.
  destruct a as [|n|], b as [|m|], d as [|k|]; cbn [count_ltb];
    try discriminate; try reflexivity.
  rewrite !Nat.ltb_ge. lia.
Qed.

(** [min] returns a member of the list that none is smaller than. *)
Lemma count_min_ok (l : list Count) :
  l <> [] ->
  exists m, count_min l = Ok m /\ In m l
            /\ forall e, In e l -> count_ltb e m = false.
Proof.
  destruct l as [|a l]; [contradiction|]. intros _. cbn [count_min].
  eexists. split; [reflexivity|].
  enough (G : forall a,
    let r := fold_left (fun m b => if count_ltb b m then b else m) l a in
    In r (a :: l) /\ count_ltb a r = false
    /\ forall e, In e l -> count_ltb e r = false).
  { destruct (G a) as (I & Ha & Hl). split; [exact I|].
    intros e [<-|Ie]; [exact Ha | apply Hl, Ie]. }
  induction l as [|b l IH]; intros a0; cbn [fold_left].
  - split; [left; reflexivity|]. split; [apply count_ltb_irrefl|].
    intros e [].
  - destruct (IH (if count_ltb b a0 then b else a0)) as (I & Ha & Hl).
    cbv zeta. destruct (count_ltb b a0) eqn:E.
    + split; [destruct I as [<-|I]; [right; left; reflexivity|
                                     right; right; exact I]|].
      split.
      * eapply count_le_trans; [exact Ha|]. apply count_ltb_asym, E.
      * intros e [<-|Ie]; [exact Ha | apply Hl, Ie].
    + split; [destruct I as [<-|I]; [left; reflexivity|
                                     right; right; exact I]|].
      split; [exact Ha|].
      intros e [<-|Ie]; [|apply Hl, Ie].
      eapply count_le_trans; [exact Ha | exact E].
Qed.

(** *** The selection passes *)

Section Passes.
Variable f : string -> nat.

(** One pass, started at index [length pre] of [pre ++ vs]. *)
Lemma take_min_run minim ec :
  forall vs pre sv,
    List.length vs = List.length ec ->
    take_min minim (pre ++ vs) (List.length pre) ec sv
    = Ok (map (mark minim) ec, sv ++ picked minim vs ec).
Proof.
  induction ec as [|e ec IH]; intros vs pre sv L; cbn [take_min].
  - destruct vs; [|discriminate L]. unfold picked. cbn.
    rewrite app_nil_r. reflexivity.
  - destruct vs as [|v vs]; [discriminate L|]. injection L as L.
    assert (Ix : list_index (pre ++ v :: vs) (List.length pre) = Ok v).
    { unfold list_index. rewrite nth_error_app2, Nat.sub_diag by lia.
      reflexivity. }
    assert (Sh : forall sv',
      take_min minim (pre ++ v :: vs) (S (List.length pre)) ec sv'
      = Ok (map (mark minim) ec, sv' ++ picked minim vs ec)).
    { intros sv'. specialize (IH vs (pre ++ [v]) sv' L).
      rewrite <- app_assoc, length_app in IH. cbn [app List.length] in IH.
      rewrite Nat.add_1_r in IH. exact IH. }
    unfold picked, mark. cbn [combine filter map snd fst].
    destruct (e == minim); cbn [map fst].
    + rewrite Ix. cbn [res_bind]. rewrite Sh. cbn [res_bind].
      rewrite <- app_assoc. reflexivity.
    + rewrite Sh. cbn [res_bind]. reflexivity.
Qed.

Lemma tracks_length vs ec : tracks f vs ec -> List.length vs = List.length ec.
Proof. induction 1; cbn [List.length]; congruence. Qed.

Lemma tracks_mark k vs ec : tracks f vs ec -> tracks f vs (map (mark (Fin k)) ec).
Proof.
  induction 1 as [|v e vs ec He _ IH]; cbn [map]; constructor; [|exact IH].
  unfold mark. destruct (e == Fin k); auto.
Qed.

(** A pass moves values from the pending ones to the picked ones. *)
Lemma pass_perm k vs ec :
  tracks f vs ec ->
  Permutation (picked (Fin k) vs ec ++ pending vs (map (mark (Fin k)) ec))
              (pending vs ec).
Proof.
  induction 1 as [|v e vs ec He _ IH]; [reflexivity|].
  unfold picked, pending, mark in *. cbn [map combine filter snd fst].
  destruct He as [->| ->].
  - cbn. exact IH.
  - change (Fin (f v) == Fin k) with (f v =? k).
    destruct (f v =? k); cbn [is_fin map fst app].
    + apply perm_skip, IH.
    + rewrite <- Permutation_middle. apply perm_skip, IH.
Qed.

Lemma picked_count k vs ec v :
  tracks f vs ec -> In v (picked (Fin k) vs ec) -> f v = k.
Proof.
  induction 1 as [|v' e vs ec He _ IH]; [intros []|].
  unfold picked in *. cbn [map combine filter snd fst].
  destruct (e == Fin k) eqn:E; [|exact IH].
  intros [<-|I]; [|apply IH, I].
  apply eqb_iff in E. subst e. destruct He as [He|He]; [discriminate He|].
  injection He as ->. reflexivity.
Qed.

Lemma picked_nonempty k vs ec :
  tracks f vs ec -> In (Fin k) ec -> picked (Fin k) vs ec <> [].
Proof.
  induction 1 as [|v e vs ec He _ IH]; [intros []|].
  unfold picked in *. cbn [map combine filter snd fst].
  destruct (e == Fin k) eqn:E; [discriminate|].
  intros [->|I]; [|apply IH, I].
  rewrite eqb_refl in E. discriminate E.
Qed.

Lemma pending_count vs ec w :
  tracks f vs ec -> In w (pending vs ec) -> In (Fin (f w)) ec.
Proof.
  induction 1 as [|v e vs ec He _ IH]; [intros []|].
  unfold pending in *. cbn [map combine filter snd fst].
  destruct He as [->| ->]; cbn [is_fin map fst].
  - intros I. right. apply IH, I.
  - intros [<-|I]; [left; reflexivity | right; apply IH, I].
Qed.

Lemma pending_mark k vs ec w :
  tracks f vs ec ->
  In w (pending vs (map (mark (Fin k)) ec)) -> In w (pending vs ec).
Proof.
  intros T I. eapply Permutation_in; [apply (pass_perm k), T|].
  apply in_or_app. right. exact I.
Qed.

Lemma sorted_app (l1 l2 : list string) :
  StronglySorted (by_count f) l1 -> StronglySorted (by_count f) l2 ->
  (forall v w, In v l1 -> In w l2 -> by_count f v w) ->
  StronglySorted (by_count f) (l1 ++ l2).
Proof.
  induction 1 as [|a l1 S1 IH F]; intros S2 H; cbn [app]; [exact S2|].
  constructor.
  - apply IH; [exact S2|]. intros v w Iv Iw. apply H; [right|]; assumption.
  - apply Forall_app. split; [exact F|]. apply Forall_forall.
    intros w Iw. apply H; [left; reflexivity | exact Iw].
Qed.

Lemma sorted_flat (l : list string) :
  (forall v w, In v l -> In w l -> by_count f v w) -> StronglySorted (by_count f) l.
Proof.
  induction l as [|a l IH]; intros H; constructor.
  - apply IH. intros v w Iv Iw. apply H; right; assumption.
  - apply Forall_forall. intros w Iw. apply H; [left; reflexivity | right; exact Iw].
Qed.

(** The rounds end with the values in ascending order of count. *)
Lemma sort_rounds_ok values k :
  forall ec sv,
    tracks f values ec ->
    Permutation (sv ++ pending values ec) values ->
    StronglySorted (by_count f) sv ->
    (forall v w, In v sv -> In w (pending values ec) -> by_count f v w) ->
    List.length (pending values ec) <= k ->
    exists l,
      sort_rounds k values ec sv = Ok l
      /\ Permutation l values /\ StronglySorted (by_count f) l.
Proof.
  induction k as [|k IH]; intros ec sv T Pm St Hle Hk; cbn [sort_rounds].
  - exists sv. split; [reflexivity|]. split; [|exact St].
    destruct (pending values ec); [|cbn in Hk; lia].
    rewrite app_nil_r in Pm. exact Pm.
  - pose proof (Permutation_length Pm) as Len. rewrite length_app in Len.
    change (List.length sv == List.length values)
      with (List.length sv =? List.length values).
    destruct (List.length sv =? List.length values) eqn:E.
    + apply Nat.eqb_eq in E. exists sv. split; [reflexivity|].
      split; [|exact St].
      destruct (pending values ec); [|cbn in Len; lia].
      rewrite app_nil_r in Pm. exact Pm.
    + apply Nat.eqb_neq in E.
      destruct (pending values ec) as [|w0 ps] eqn:Ep; [cbn in Len; lia|].
      assert (I0 : In (Fin (f w0)) ec).
      { apply (pending_count values); [exact T|]. rewrite Ep. left. reflexivity. }
      destruct (count_min_ok ec) as (m & Em & Im & Hmin).
      { intros ->. exact I0. }
      assert (exists n, m = Fin n) as [n ->].
      { pose proof (Hmin _ I0) as H0.
        assert (Hm : m = Inf \/ exists v, m = Fin (f v)).
        { clear - T Im. induction T as [|v e vs ec He _ IH]; [contradiction|].
          destruct Im as [<-|Im]; [|apply IH, Im].
          destruct He; eauto. }
        destruct Hm as [->|[v ->]]; [discriminate H0 | eauto]. }
      rewrite Em. cbn [res_bind].
      pose proof (take_min_run (Fin n) ec values [] sv (tracks_length _ _ T))
        as Tm.
      cbn [app List.length] in Tm. rewrite Tm. cbn [res_bind]. rewrite <- Ep in *. clear Ep.
      apply IH.
      * apply tracks_mark, T.
      * rewrite <- app_assoc, pass_perm by exact T. exact Pm.
      * apply sorted_app; [exact St | |].
        -- apply sorted_flat. intros v w Iv Iw. unfold by_count.
           rewrite (picked_count n values ec v T Iv).
           rewrite (picked_count n values ec w T Iw). reflexivity.
        -- intros v w Iv Iw. apply Hle; [exact Iv|].
           eapply Permutation_in; [apply (pass_perm n), T|].
           apply in_or_app. left. exact Iw.
      * intros v w Iv Iw. apply in_app_or in Iv as [Iv|Iv].
        -- apply Hle; [exact Iv | apply (pending_mark n), Iw; exact T].
        -- unfold by_count. rewrite (picked_count n values ec v T Iv).
           apply (pending_mark n) in Iw; [|exact T].
           apply (pending_count values) in Iw; [|exact T].
           apply Hmin in Iw. cbn [count_ltb] in Iw.
           apply Nat.ltb_ge in Iw. exact Iw.
      * pose proof (Permutation_length (pass_perm n values ec T)) as Lp.
        rewrite length_app in Lp.
        pose proof (picked_nonempty n values ec T Im) as Ne.
        destruct (picked (Fin n) values ec); [contradiction|].
        cbn [List.length] in Lp. lia.
Qed.

(** Started as [order_domain_values] starts them, the rounds return the
    values sorted by count. *)
Lemma sort_rounds_sorts values :
  exists l,
    sort_rounds (List.length values) values
      (map (fun v => Fin (f v)) values) [] = Ok l
    /\ Permutation l values /\ StronglySorted (by_count f) l.
Proof.
  assert (T : tracks f values (map (fun v => Fin (f v)) values)).
  { induction values; constructor; auto. }
  assert (E : pending values (map (fun v => Fin (f v)) values) = values).
  { unfold pending. clear T. induction values as [|v vs IH]; [reflexivity|].
    cbn [map combine filter snd is_fin fst]. f_equal. exact IH. }
  apply sort_rounds_ok.
  - exact T.
  - rewrite E. reflexivity.
  - constructor.
  - intros v w [].
  - rewrite E. reflexivity.
Qed.
End Passes.

(** *** The counts *)

(** [for x in l: if p(x): acc.remove(x)], on a set [l]. *)
Lemma remove_if_run {A} `{EqOk A} (p : A -> bool) (l : list A) :
  NoDup l ->
  forall acc,
    (forall x, In x l -> p x = true -> In x acc) ->
    res_fold l acc (fun acc x => if p x then remove x acc else Ok acc)
    = Ok (filter (fun y => negb (p y && mem y l)) acc).
Proof.
  induction 1 as [|x l Nx N IH]; intros acc Hin; cbn [res_fold].
  - f_equal. symmetry. apply forallb_filter_id, forallb_forall.
    intros y _. cbn [mem existsb]. rewrite andb_false_r. reflexivity.
  - destruct (p x) eqn:Px.
    + rewrite remove_in by (apply Hin; [left; reflexivity | exact Px]).
      cbn [res_bind]. rewrite IH.
      * f_equal. rewrite filter_filter. apply filter_ext. intros y.
        cbn [mem existsb]. rewrite (eqb_sym x y).
        destruct (y == x) eqn:E.
        -- apply eqb_iff in E. subst y. rewrite Px. reflexivity.
        -- rewrite orb_false_l. reflexivity.
      * intros x' I' P'. apply filter_In. split.
        -- apply Hin; [right; exact I' | exact P'].
        -- apply negb_true_iff, eqb_false_iff. intros ->. contradiction.
    + cbn [res_bind]. rewrite IH.
      * f_equal. apply filter_ext. intros y. cbn [mem existsb].
        destruct (y == x) eqn:E.
        -- apply eqb_iff in E. subst y. rewrite Px. reflexivity.
        -- rewrite orb_false_l. reflexivity.
      * intros x' I' P'. apply Hin; [right; exact I' | exact P'].
Qed.

Lemma get_in_range (w : string) (k : nat) :
  k < String.length w -> exists ch, String.get k w = Some ch.
Proof.
  revert k. induction w as [|a w IH]; intros k L; cbn [String.length] in L;
    [lia|].
  destruct k as [|k]; cbn [String.get]; [eauto|]. apply IH. lia.
Qed.

Lemma one_char_neq (a b : ascii) :
  (String a EmptyString != String b EmptyString) = (Some a != Some b).
Proof.
  unfold eqb, string_Eq, option_Eq, eqb, ascii_Eq. cbn [String.eqb].
  destruct (Ascii.eqb a b); reflexivity.
Qed.

Section Counts.
Variable c : Crossword.t.

(** The neighbours left after the assigned ones were removed. *)
Lemma neighbours_run a var :
  NoDup (Crossword.variables c) ->
  res_fold (Crossword.neighbors c var) (Crossword.neighbors c var)
    (fun neighbours neighbour =>
       if mem neighbour (keys a) then remove neighbour neighbours
       else Ok neighbours)
  = Ok (unassigned_neighbours c a var).
Proof.
  intros N. rewrite remove_if_run.
  - f_equal. apply filter_ext_in. intros y I. apply mem_iff in I.
    rewrite I, andb_true_r. reflexivity.
  - apply NoDup_filter, N.
  - auto.
Qed.

Lemma eliminated_in_run s var val neighbour n :
  comparable c s var val neighbour ->
  eliminated_in c var neighbour val n s
  = (Ok (n + eliminated c s var val neighbour), s).
Proof.
  intros (dn & o & o1 & G & O & Lo & Lo1). unfold eliminated_in, eliminated.
  rewrite (ArcConsistency.domain_get _ _ _ G), O.
  run. rewrite G. run. rewrite G. run. f_equal.
  destruct (get_in_range _ _ Lo) as [ch Ech].
  set (n0 := if mem val dn then n + 1 else n).
  replace (n + ((if mem val dn then 1 else 0) + _))
    with (n0 + List.length
            (filter (fun val1 =>
               (val != val1) && (String.get o val != String.get o1 val1)) dn))
    by (subst n0; destruct (mem val dn); lia).
  clearbody n0. clear G. revert n0.
  induction dn as [|val1 dn IH]; intros n0; cbn [res_fold filter].
  - cbn [List.length]. rewrite Nat.add_0_r. reflexivity.
  - destruct (get_in_range val1 o1) as [ch1 Ech1];
      [apply Lo1; left; reflexivity|].
    assert (B : (if val != val1 then
                   (c0 <- str_index val o ;;
                    c1 <- str_index val1 o1 ;;
                    Ok (if c0 != c1 then n0 + 1 else n0))%res
                 else Ok n0)
                = Ok (if (val != val1)
                         && (String.get o val != String.get o1 val1)
                      then n0 + 1 else n0)).
    { unfold str_index. rewrite Ech, Ech1. cbn [res_bind].
      rewrite one_char_neq. destruct (val != val1); reflexivity. }
    rewrite B. cbn [res_bind].
    rewrite IH by (intros; apply Lo1; right; assumption).
    destruct ((val != val1) && (String.get o val != String.get o1 val1));
      cbn [List.length]; f_equal; lia.
Qed.

Lemma neighbours_pass s var val neighbours n :
  (forall neighbour, In neighbour neighbours ->
                     comparable c s var val neighbour) ->
  fold_each neighbours n (fun n neighbour =>
    eliminated_in c var neighbour val n) s
  = (Ok (n + list_sum (map (eliminated c s var val) neighbours)), s).
Proof.
  revert n. induction neighbours as [|nb nbs IH]; intros n H;
    cbn [fold_each map list_sum].
  - rewrite Nat.add_0_r. reflexivity.
  - run. rewrite eliminated_in_run by (apply H; left; reflexivity).
    cbn beta iota. rewrite IH by (intros; apply H; right; assumption).
    unfold list_sum. cbn [fold_right]. rewrite Nat.add_assoc. reflexivity.
Qed.

Lemma values_pass s var neighbours values acc :
  (forall val neighbour, In val values -> In neighbour neighbours ->
                         comparable c s var val neighbour) ->
  fold_each values acc (fun eliminate_count val =>
    (n <- fold_each neighbours 0 (fun n neighbour =>
            eliminated_in c var neighbour val n) ;;
     ret (eliminate_count ++ [Fin n]))%py) s
  = (Ok (acc ++ map (fun val =>
                       Fin (list_sum (map (eliminated c s var val)
                                          neighbours))) values), s).
Proof.
  revert acc. induction values as [|val values IH]; intros acc H;
    cbn [fold_each map].
  - rewrite app_nil_r. reflexivity.
  - run. rewrite neighbours_pass by (intros; apply H; [left|]; auto).
    cbn beta iota. run.
    rewrite IH by (intros; apply H; [right|]; assumption).
    rewrite <- app_assoc. reflexivity.
Qed.
End Counts.

(** On a sound store of a well-formed puzzle, [order_domain_values] runs
    the sorting passes on the domain of [var] and the elimination counts
    of its words. *)
Lemma order_domain_values_run
  (c : Crossword.t) (r : ref) (s : Self) (a : Assignment) (var : Var.t)
  (values : list string) :
  NoDup (Crossword.variables c) ->
  symmetric_overlaps c -> overlaps_in_range c ->
  has_domains c s -> node_consistent c s ->
  deref r s = (Ok a, s) ->
  In var (Crossword.variables c) ->
  get var (domains s) = Ok values ->
  order_domain_values c var r s
  = (sort_rounds (List.length values) values
       (map (fun val => Fin (elimination_count c s a var val)) values) [],
     s).
Proof.
  intros N Hsym Hrange D Hnode Ha Iv G.
  unfold order_domain_values. run. rewrite G. cbn beta iota.
  rewrite run_bind, Ha. cbn beta iota. run.
  rewrite neighbours_run by exact N. cbn beta iota. rewrite run_bind.
  rewrite values_pass.
  - cbn beta iota. cbn [app]. run. reflexivity.
  - intros val nb Ival Inb.
    apply filter_In in Inb as [Inb _].
    apply (ArcConsistency.neighbors_iff c) in Inb as (Inb & Nnb & [o1 o] & O).
    pose proof (Hsym _ _ _ _ Inb Iv O) as O'.
    destruct (Hrange _ _ _ _ Inb Iv O) as [L1 L].
    destruct (D nb Inb) as [dn Gn].
    exists dn, o, o1. split; [exact Gn|]. split; [exact O'|]. split.
    + rewrite (Hnode var val Iv); [exact L|].
      rewrite (ArcConsistency.domain_get _ _ _ G). exact Ival.
    + intros val1 I1. rewrite (Hnode nb val1 Inb); [exact L1|].
      rewrite (ArcConsistency.domain_get _ _ _ Gn). exact I1.
Qed.

(** C7. [order_domain_values var assignment] returns the words of the
    domain of [var], each exactly once, in ascending order of the number
    of values they eliminate from the domains of the unassigned
    neighbours of [var]. *)
Theorem order_domain_values_least_constraining
  (c : Crossword.t) (r : ref) (s : Self) (a : Assignment) (var : Var.t) :
  NoDup (Crossword.variables c) ->
  symmetric_overlaps c -> overlaps_in_range c ->
  has_domains c s -> node_consistent c s ->
  deref r s = (Ok a, s) ->
  In var (Crossword.variables c) ->
  exists l,
    order_domain_values c var r s = (Ok l, s)
    /\ Permutation l (domain s var)
    /\ StronglySorted (by_count (elimination_count c s a var)) l.
Proof.
  intros N Hsym Hrange D Hnode Ha Iv.
  destruct (D var Iv) as [values G].
  rewrite (ArcConsistency.domain_get _ _ _ G).
  rewrite (order_domain_values_run c r s a var values) by assumption.
  destruct (sort_rounds_sorts (elimination_count c s a var) values)
    as (l & E & Pm & St).
  rewrite E. exists l. auto.
Qed.
End Ordering.

(* ================================================================= *)
(** ** The example grids *)

Module GridFacts.
Import CrosswordCreator Spec Laws Run Grid.

(** Case analysis on a variable of one of the example grids. *)
Ltac each_variable H :=
  cbn [Crossword.variables puzzle arch three_rows two_rows
       arch3 arch2 arch_dead arch0 arch_mixed] in H;
  repeat (destruct H as [<-|H]; [|try contradiction]).

Lemma arch_variables words : NoDup (Crossword.variables (arch words)).
Proof. repeat constructor; cbn; intuition discriminate. Qed.

Lemma arch_symmetric words : symmetric_overlaps (arch words).
Proof.
  intros x y ox oy Ix Iy. each_variable Ix; each_variable Iy;
    vm_compute; intros E; try discriminate E; injection E as <- <-;
    reflexivity.
Qed.

Lemma arch_in_range words : overlaps_in_range (arch words).
Proof.
  intros x y ox oy Ix Iy. each_variable Ix; each_variable Iy;
    vm_compute; intros E; try discriminate E; injection E as <- <-;
    split; repeat constructor.
Qed.
End GridFacts.

(* ================================================================= *)
(** ** Propagation failures *)

Module Propagation.
Import CrosswordCreator Spec Laws Run Grid GridFacts.

(** An instance: on the arch grid with three words AC-3 succeeds. *)
Lemma ac3_arc_consistent_witness :
  arc_consistent arch3
    (snd (ac3 arch3 5 None
            (snd (enforce_node_consistency arch3 (init arch3))))).
Proof.
  apply (ArcConsistency.ac3_arc_consistent arch3 5
           (snd (enforce_node_consistency arch3 (init arch3)))).
  - apply arch_symmetric.
  - vm_compute. reflexivity.
Defined.

(** C4. On the arch grid with an empty word list, node consistency
    leaves every domain empty, and [ac3] then returns [True] and changes
    nothing, although its docstring says "return False if one or more
    domains end up empty": the emptiness test is reached only after a
    revision that removed a word.  [solve] goes on to call [backtrack] on
    the empty assignment with every domain still empty.  The failure is
    reported all the same: [solve] returns [None]. *)
Theorem ac3_accepts_empty_domains :
  let s := snd (enforce_node_consistency arch0 (init arch0)) in
  let s' := snd (before_search arch0 4) in
  (forall v, In v (Crossword.variables arch0) -> get v (domains s) = Ok [])
  /\ ac3 arch0 4 None s = (Ok true, s)
  /\ solve arch0 4 (init arch0) = backtrack arch0 4 0 s'
  /\ deref 0 s' = (Ok [], s')
  /\ (forall v, In v (Crossword.variables arch0) -> get v (domains s') = Ok [])
  /\ fst (solve arch0 4 (init arch0)) = Ok None.
Proof.
  split; [|split; [|split; [|split; [|split]]]];
    try (vm_compute; reflexivity).
  - intros v I. each_variable I; vm_compute; reflexivity.
  - intros v I. each_variable I; vm_compute; reflexivity.
Qed.

(** When a revision leaves the domain of the revised variable empty, the
    loop returns [False] at once: the store is the one the revision left
    and the rest of the queue is not looked at.  [solve] does not consult
    the result of [ac3]: whatever it is, the search is started, on the
    domains [ac3] left. *)
Theorem ac3_fails_on_emptied_domain (c : Crossword.t) (fuel : nat) :
  (forall x y queue s s1,
     revise c x y s = (Ok true, s1) ->
     get x (domains s1) = Ok [] ->
     ac3_loop c (S fuel) ((x, y) :: queue) s = (Ok false, s1))
  /\ (forall b s1,
        (enforce_node_consistency c ;; ac3 c fuel None)%py (init c)
        = (Ok b, s1) ->
        solve c fuel (init c)
        = (assignment <- dict_new ;; backtrack c fuel assignment)%py s1).
Proof.
  split.
  - intros x y queue s s1 R G. cbn [ac3_loop]. run. rewrite R.
    cbn beta iota. run. rewrite G. reflexivity.
  - intros b s1. unfold solve. rewrite !run_bind.
    destruct (enforce_node_consistency c (init c)) as [[[]| |] s0];
      try discriminate.
    rewrite run_bind.
    destruct (ac3 c fuel None s0) as [[b'| |] s2]; try discriminate.
    intros E. injection E as <- <-. reflexivity.
Qed.

(** An instance: on the arch grid with the words ABC and DEF the revision
    of the top slot against the right one empties its domain. *)
Lemma ac3_fails_on_emptied_domain_witness :
  let s := snd (enforce_node_consistency arch_dead (init arch_dead)) in
  let s1 := snd (revise arch_dead top right s) in
  ac3_loop arch_dead 3 [(top, right); (left, top); (right, top)] s
  = (Ok false, s1)
  /\ solve arch_dead 2 (init arch_dead)
     = (assignment <- dict_new ;; backtrack arch_dead 2 assignment)%py s1.
Proof.
  destruct (ac3_fails_on_emptied_domain arch_dead 2) as [Stop Goes].
  split.
  - apply Stop; vm_compute; reflexivity.
  - apply (Goes false). vm_compute. reflexivity.
Defined.
End Propagation.

(* ================================================================= *)
(** ** Backtracking search *)

Module Search.
Import CrosswordCreator Spec Laws Run Grid GridFacts.

(** C9. Neither [backtrack] nor [consistent] writes to [self.domains]:
    whatever they are called on and however the call ends, the domains are
    afterwards what they were before; [consistent] changes nothing at all,
    the assignment it is given included. *)
Theorem search_leaves_domains
  (c : Crossword.t) (fuel : nat) (r : ref) (s : Self) :
  domains (snd (backtrack c fuel r s)) = domains s
  /\ snd (consistent c r s) = s.
Proof.
  split.
  - apply backtrack_domains.
  - symmetry. apply consistent_pure.
Qed.

Section EmptyDomain.
Variable c : Crossword.t.
Hypothesis Hvars : NoDup (Crossword.variables c).

Lemma order_domain_values_empty var r s a :
  get var (domains s) = Ok [] ->
  deref r s = (Ok a, s) ->
  order_domain_values c var r s = (Ok [], s).
Proof.
  intros G Ha. unfold order_domain_values. run. rewrite G. cbn beta iota.
  rewrite run_bind, Ha. cbn beta iota. run.
  rewrite Ordering.neighbours_run by exact Hvars. reflexivity.
Qed.

Lemma unassigned_nil : unassigned c [] = Crossword.variables c.
Proof. unfold unassigned. apply forallb_filter_id, forallb_forall. reflexivity. Qed.

(** Started on the empty assignment with an empty domain around,
    [backtrack] selects a variable whose domain is empty, gets no value to
    try and returns [None]. *)
Lemma backtrack_empty_domain r s v fuel :
  has_domains c s ->
  deref r s = (Ok [], s) ->
  In v (Crossword.variables c) -> domain s v = [] ->
  exists var,
    select_unassigned_variable c r s = (Ok (Some var), s)
    /\ domain s var = []
    /\ order_domain_values c var r s = (Ok [], s)
    /\ backtrack c (S fuel) r s = (Ok None, s).
Proof.
  intros D Ha Iv Ev.
  destruct (Selection.select_minimum_remaining_values c Hvars r s [] D Ha)
    as (var & Sel & Ivar & Hmin).
  { rewrite unassigned_nil. intros E. rewrite E in Iv. exact Iv. }
  rewrite unassigned_nil in Ivar, Hmin.
  assert (Evar : domain s var = []).
  { specialize (Hmin v Iv). unfold domain_size in Hmin. rewrite Ev in Hmin.
    destruct (domain s var); [reflexivity | cbn in Hmin; lia]. }
  assert (Gvar : get var (domains s) = Ok []).
  { destruct (D var Ivar) as [d G].
    rewrite (ArcConsistency.domain_get _ _ _ G) in Evar. subst d. exact G. }
  pose proof (order_domain_values_empty var r s [] Gvar Ha) as Ord.
  exists var. split; [exact Sel|]. split; [exact Evar|]. split; [exact Ord|].
  cbn [backtrack]. unfold assignment_complete.
  rewrite !run_bind, Ha. cbn beta iota. run.
  destruct (Crossword.variables c) as [|v0 vs] eqn:Evs; [contradiction|].
  change (List.length (@nil (Var.t * Val)) == List.length (v0 :: vs))
    with false. cbn iota.
  rewrite run_bind, Sel. cbn beta iota.
  rewrite run_bind, Ord. reflexivity.
Qed.
End EmptyDomain.

(** The store in which the search starts: every variable has a domain and
    the assignment is the empty dict. *)
Lemma before_search_ok c fuel r s :
  before_search c fuel = (Ok r, s) ->
  has_domains c s /\ deref r s = (Ok [], s)
  /\ solve c fuel (init c) = backtrack c fuel r s.
Proof.
  unfold before_search, solve. rewrite !run_bind.
  pose proof (enforce_node_consistency_keys c (init c)) as K1.
  destruct (enforce_node_consistency c (init c)) as [[[]| |] s0];
    try discriminate.
  rewrite !run_bind.
  pose proof (ac3_keys c fuel None s0) as K2.
  destruct (ac3 c fuel None s0) as [[b| |] s2]; try discriminate.
  rewrite run_bind, run_dict_new. cbn beta iota. intros E. injection E as <- <-.
  cbn [snd] in K1, K2. split; [|split; [|reflexivity]].
  - intros v I. destruct (NodeConsistency.init_has_domains c v I) as [d G].
    destruct (K1 v d G) as [d1 G1]. destruct (K2 v d1 G1) as [d2 G2].
    exists d2. exact G2.
  - rewrite run_deref. cbn [dicts]. unfold list_index.
    rewrite nth_error_app2, Nat.sub_diag by lia. reflexivity.
Qed.

(** C10. [solve] runs [backtrack] whatever [ac3] returned.  If some
    variable's domain is empty when [backtrack] is first called, [solve]
    returns [None] and raises nothing: the variable selected has an empty
    domain, hence no candidate value. *)
Theorem solve_fails_on_empty_domain
  (c : Crossword.t) (fuel : nat) (r : ref) (s : Self) (v : Var.t) :
  NoDup (Crossword.variables c) ->
  before_search c (S fuel) = (Ok r, s) ->
  In v (Crossword.variables c) -> domain s v = [] ->
  solve c (S fuel) (init c) = (Ok None, s)
  /\ run_solve c (S fuel) = Ok None
  /\ exists var,
       select_unassigned_variable c r s = (Ok (Some var), s)
       /\ domain s var = []
       /\ order_domain_values c var r s = (Ok [], s).
Proof.
  intros N B Iv Ev. apply before_search_ok in B as (D & Ha & So).
  destruct (backtrack_empty_domain c N r s v fuel D Ha Iv Ev)
    as (var & Sel & Evar & Ord & Bt).
  rewrite Bt in So. split; [exact So|]. split.
  - unfold run_solve. rewrite So. reflexivity.
  - exists var. auto.
Qed.

(** An instance: on the arch grid with the words ABC and DEF, AC-3 empties
    the domain of the top slot. *)
Lemma solve_fails_on_empty_domain_witness :
  let s := snd (before_search arch_dead 2) in
  solve arch_dead 2 (init arch_dead) = (Ok None, s)
  /\ run_solve arch_dead 2 = Ok None
  /\ exists var,
       select_unassigned_variable arch_dead 0 s = (Ok (Some var), s)
       /\ domain s var = []
       /\ order_domain_values arch_dead var 0 s = (Ok [], s).
Proof.
  apply (solve_fails_on_empty_domain arch_dead 1 0
           (snd (before_search arch_dead 2)) top).
  - apply arch_variables.
  - vm_compute. reflexivity.
  - left. reflexivity.
  - vm_compute. reflexivity.
Defined.

(** An instance: the top slot of the arch grid with three words, under the
    empty assignment. *)
Lemma order_domain_values_least_constraining_witness :
  let s := snd (before_search arch3 5) in
  exists l,
    order_domain_values arch3 top 0 s = (Ok l, s)
    /\ Permutation l (domain s top)
    /\ StronglySorted (by_count (elimination_count arch3 s [] top)) l.
Proof.
  apply (Ordering.order_domain_values_least_constraining arch3 0
           (snd (before_search arch3 5)) [] top).
  - apply arch_variables.
  - apply arch_symmetric.
  - apply arch_in_range.
  - apply (before_search_ok arch3 5 0). vm_compute. reflexivity.
  - intros v w Iv. each_variable Iv; vm_compute;
      intuition (subst; reflexivity).
  - vm_compute. reflexivity.
  - left. reflexivity.
Defined.
End Search.

(* ================================================================= *)
(** ** Where the code departs from the specification *)

Module Defects.
Import CrosswordCreator Spec Laws Run Grid GridFacts.
Local Open Scope string_scope.

(** Case analysis on an entry of a three-entry assignment. *)
Ltac each_entry H :=
  cbn [In] in H;
  repeat (destruct H as [H|H]; [injection H as <- <- |]);
  try contradiction.

(** C1. On three separate rows of two cells with the words AB and CD,
    [solve] returns an assignment in which the middle row holds the list
    [['C', 'D']] instead of a word: the result is not a valid assignment
    (and there is none, with two words for three slots). *)
Theorem solve_returns_invalid_assignment :
  let a := [(row4, Str "CD"); (row2, Lst ["C"; "D"]); (row0, Str "AB")] in
  run_solve three_rows 4 = Ok (Some a) /\ ~ solution three_rows a.
Proof.
  split; [vm_compute; reflexivity|].
  intros [_ W _ _].
  destruct (W row2 (Lst ["C"; "D"])) as (w & E & _); [|discriminate E].
  right. left. reflexivity.
Qed.

(** The same happens in whatever order the two sets are iterated. *)
Lemma invalid_assignment_in_any_order :
  forall vs ws,
    In vs (orders [row0; row2; row4]) -> In ws (orders ["AB"; "CD"]) ->
    exists a,
      run_solve (puzzle vs ws) 4 = Ok (Some a)
      /\ ~ solution (puzzle vs ws) a.
Proof.
  intros vs ws Ivs Iws.
  assert (B : solve_returns_list (puzzle vs ws) 4 = true).
  { cbn in Ivs, Iws.
    repeat (destruct Ivs as [<-|Ivs]; [|try contradiction]);
      repeat (destruct Iws as [<-|Iws]; [|try contradiction]);
      vm_compute; reflexivity. }
  unfold solve_returns_list in B.
  destruct (run_solve (puzzle vs ws) 4) as [[a|]| |]; try discriminate B.
  exists a. split; [reflexivity|]. intros [_ W _ _].
  apply existsb_exists in B as ([v val] & I & L).
  destruct (W v val I) as (w & -> & _). discriminate L.
Qed.

(** C2. On two separate rows of two cells with the single word AB,
    [backtrack] is called on the empty assignment and returns [None], but
    the assignment is then [{row2: ['A', 'B']}]: the entry it added was
    overwritten by a list of characters instead of being removed. *)
Theorem backtrack_failure_leaves_entry :
  let s := snd (before_search two_rows 0) in
  deref 0 s = (Ok [], s)
  /\ fst (backtrack two_rows 3 0 s) = Ok None
  /\ fst (deref 0 (snd (backtrack two_rows 3 0 s)))
     = Ok [(row2, Lst ["A"; "B"])].
Proof. repeat split; vm_compute; reflexivity. Qed.

(** The same happens in either iteration order of the two slots. *)
Lemma leftover_entry_in_any_order :
  forall vs, In vs (orders [row0; row2]) ->
             solve_leaves_entry (puzzle vs ["AB"]) 3 = true.
Proof.
  intros vs Ivs. cbn in Ivs.
  repeat (destruct Ivs as [<-|Ivs]; [|try contradiction]);
    vm_compute; reflexivity.
Qed.

(** C3. On the arch grid with the words ABC, ADA and CAB the domains left
    by AC-3 allow the solution top = ABC, left = ADA, right = CAB, yet
    [solve] returns an assignment that is none: its top slot holds the
    list [['A', 'D', 'A']], the letters of the word of the left slot. *)
Theorem search_misses_solution :
  let s := snd (before_search arch3 6) in
  let good := [(top, Str "ABC"); (left, Str "ADA"); (right, Str "CAB")] in
  let bad :=
    [(left, Str "ADA"); (top, Lst ["A"; "D"; "A"]); (right, Str "ABC")] in
  solution arch3 good /\ from_domains s good
  /\ run_solve arch3 6 = Ok (Some bad) /\ ~ solution arch3 bad.
Proof.
  split; [|split; [|split]].
  - constructor.
    + split; [repeat constructor; cbn; intuition discriminate|].
      intros v. cbn. tauto.
    + intros v val I. each_entry I; eexists; split; reflexivity.
    + repeat constructor; cbn; intuition discriminate.
    + intros x y wx wy ox oy Ix Iy.
      each_entry Ix; each_entry Iy; vm_compute; intros E;
        try discriminate E; injection E as <- <-;
        eexists; split; reflexivity.
  - intros v w I. each_entry I; vm_compute; tauto.
  - vm_compute. reflexivity.
  - intros [_ W _ _].
    destruct (W top (Lst ["A"; "D"; "A"])) as (w & E & _); [|discriminate E].
    right. left. reflexivity.
Qed.

(** C5. On the arch grid with the words ABA and ACA the three domains
    have two words each after AC-3.  With nothing assigned,
    [select_unassigned_variable] returns the right slot, which has one
    neighbour, although the top slot ties with it on domain size and has
    two. *)
Theorem select_ignores_degree :
  let s := snd (before_search arch2 4) in
  deref 0 s = (Ok [], s)
  /\ select_unassigned_variable arch2 0 s = (Ok (Some right), s)
  /\ In top (unassigned arch2 [])
  /\ domain_size s top = domain_size s right
  /\ degree arch2 right < degree arch2 top.
Proof.
  split; [vm_compute; reflexivity|].
  split; [vm_compute; reflexivity|].
  split; [left; reflexivity|].
  split; [vm_compute; reflexivity|].
  vm_compute. constructor.
Qed.
End Defects.

(* ================================================================= *)
(** ** Termination of AC-3 *)

Module Termination.
Import CrosswordCreator Spec Laws Run.

Section Total.
Variable c : Crossword.t.
Hypothesis Hwf : well_formed c.

Lemma conflict_with_total ox oy w1 dy :
  ox < String.length w1 ->
  (forall w2, In w2 dy -> oy < String.length w2) ->
  exists b, conflict_with ox oy w1 dy = Ok b.
Proof.
  intros L1 L2. unfold conflict_with. generalize true.
  induction dy as [|w2 dy IH]; intros acc; cbn [res_fold]; [eauto|].
  destruct (Ordering.get_in_range _ _ L1) as [ch1 E1].
  destruct (Ordering.get_in_range w2 oy) as [ch2 E2];
    [apply L2; left; reflexivity|].
  unfold str_index at 1 2. rewrite E1, E2. cbn [res_bind].
  apply IH. intros; apply L2; right; assumption.
Qed.

(** The first loop of [revise], run. *)
Lemma revise_collects_run y ox oy dy s dx acc :
  get y (domains s) = Ok dy ->
  (forall w1, In w1 dx -> exists b, conflict_with ox oy w1 dy = Ok b) ->
  fold_each dx acc (fun to_be_removed w1 =>
    (dy <- get_domain y ;;
     conflict <- lift (conflict_with ox oy w1 dy) ;;
     ret (if conflict then to_be_removed ++ [w1] else to_be_removed))%py) s
  = (Ok (acc ++ filter (in_conflict ox oy dy) dx), s).
Proof.
  intros G. revert acc. induction dx as [|w1 dx IH]; intros acc H;
    cbn [fold_each filter].
  - rewrite app_nil_r. reflexivity.
  - destruct (H w1 (or_introl eq_refl)) as [b C].
    run. rewrite G. run. rewrite C. run.
    rewrite IH by (intros; apply H; right; assumption).
    unfold in_conflict at 2. rewrite C.
    destruct b; [rewrite <- app_assoc|]; reflexivity.
Qed.

(** On a sound store [revise] raises nothing, and it leaves a sound
    store. *)
Lemma revise_total x y s :
  In x (Crossword.variables c) -> In y (Crossword.variables c) ->
  sound_store c s ->
  exists b s', revise c x y s = (Ok b, s') /\ sound_store c s'.
Proof.
  intros Ix Iy (D & Hnode & Hnd).
  destruct Hwf as (_ & _ & _ & Hrange).
  unfold revise.
  destruct (Crossword.overlaps c x y) as [[ox oy]|] eqn:O.
  2:{ exists false, s. split; [reflexivity|]. repeat split; assumption. }
  destruct (Hrange _ _ _ _ Ix Iy O) as [Lx Ly].
  destruct (D x Ix) as [dx Gx]. destruct (D y Iy) as [dy Gy].
  run. rewrite Gx. cbn beta iota. rewrite run_bind.
  rewrite (revise_collects_run y ox oy dy s dx [] Gy).
  2:{ intros w1 I1. apply conflict_with_total.
      - rewrite (Hnode x w1 Ix); [exact Lx|].
        rewrite (ArcConsistency.domain_get _ _ _ Gx). exact I1.
      - intros w2 I2. rewrite (Hnode y w2 Iy); [exact Ly|].
        rewrite (ArcConsistency.domain_get _ _ _ Gy). exact I2. }
  cbn beta iota. cbn [app]. run. rewrite Gx. run.
  rewrite remove_each_in.
  2:{ apply NoDup_filter, (Hnd x dx Ix Gx). }
  2:{ intros w I. apply filter_In in I. apply I. }
  run. eexists. eexists. split; [reflexivity|].
  set (dx' := filter _ dx).
  assert (Sub : forall v w,
            In w (domain (mkSelf (set x dx' (domains s)) (dicts s)) v) ->
            In w (domain s v)).
  { intros v w. rewrite ArcConsistency.domain_set.
    destruct (v == x) eqn:E; [|auto].
    apply eqb_iff in E. subst v.
    rewrite (ArcConsistency.domain_get _ _ _ Gx).
    intros I. apply filter_In in I. apply I. }
  split; [|split].
  - intros v Iv. cbn [domains]. rewrite get_set.
    destruct (v == x); [eauto | apply D, Iv].
  - intros v w Iv Iw. apply Hnode; [exact Iv | apply Sub, Iw].
  - intros v d Iv. cbn [domains]. rewrite get_set.
    destruct (v == x).
    + intros E. injection E as <-. apply NoDup_filter, (Hnd x dx Ix Gx).
    + apply Hnd, Iv.
Qed.

Lemma list_sum_decreases {A} (f g : A -> nat) (l : list A) (x : A) :
  (forall v, g v <= f v) -> In x l -> g x < f x ->
  list_sum (map g l) < list_sum (map f l).
Proof.
  intros Le. induction l as [|a l IH]; intros I Lt; [contradiction|].
  cbn [map list_sum fold_right]. unfold list_sum in *.
  cbn [map fold_right].
  assert (Weak : fold_right plus 0 (map g l) <= fold_right plus 0 (map f l)).
  { clear - Le. induction l as [|b l IHl]; cbn [map fold_right]; [lia|].
    specialize (Le b). lia. }
  destruct I as [->|I].
  - lia.
  - specialize (IH I Lt). specialize (Le a). lia.
Qed.

(** A revision that removed something leaves fewer words. *)
Lemma revise_shrinks x y s s' :
  In x (Crossword.variables c) ->
  revise c x y s = (Ok true, s') ->
  total_size c s' < total_size c s.
Proof.
  intros Ix R. apply ArcConsistency.revise_ok in R.
  destruct (Crossword.overlaps c x y) as [[ox oy]|];
    [|destruct R as [_ R]; discriminate R].
  destruct R as (dx & dx' & G & -> & In' & _ & Lt).
  specialize (Lt eq_refl). unfold total_size.
  apply list_sum_decreases with (x := x); [|exact Ix|].
  - intros v. unfold domain_size. rewrite ArcConsistency.domain_set.
    destruct (v == x) eqn:E; [|lia].
    apply eqb_iff in E. subst v.
    rewrite (ArcConsistency.domain_get _ _ _ G). lia.
  - unfold domain_size. rewrite ArcConsistency.domain_set, eqb_refl.
    rewrite (ArcConsistency.domain_get _ _ _ G). exact Lt.
Qed.

Lemma requeue_length x y queue :
  List.length (requeue c x y queue)
  <= List.length queue + List.length (Crossword.variables c).
Proof.
  unfold requeue.
  assert (G : forall l q,
    List.length (fold_left (fun queue z =>
                   if z != y then queue ++ [(z, x)] else queue) l q)
    <= List.length q + List.length l).
  { induction l as [|z l IH]; intros q; cbn [fold_left List.length]; [lia|].
    etransitivity; [apply IH|].
    destruct (z != y); [rewrite length_app; cbn [List.length]|]; lia. }
  etransitivity; [apply G|]. apply Nat.add_le_mono_l.
  unfold Crossword.neighbors. apply filter_length_le.
Qed.

Lemma requeue_ok x y queue :
  In x (Crossword.variables c) ->
  queue_ok c queue -> queue_ok c (requeue c x y queue).
Proof.
  intros Ix Q. unfold requeue.
  assert (G : forall l q,
    incl l (Crossword.variables c) -> queue_ok c q ->
    queue_ok c (fold_left (fun queue z =>
                  if z != y then queue ++ [(z, x)] else queue) l q)).
  { induction l as [|z l IH]; intros q Il Qq; cbn [fold_left]; [exact Qq|].
    apply IH; [intros v Iv; apply Il; right; exact Iv|].
    destruct (z != y); [|exact Qq].
    intros u v I. apply in_app_or in I as [I|[E|[]]]; [apply Qq, I|].
    injection E as <- <-. split; [apply Il; left; reflexivity | exact Ix]. }
  apply G; [|exact Q].
  intros v Iv. apply filter_In in Iv. apply Iv.
Qed.

(** Given as much fuel as [ac3_bound] says, the loop returns. *)
Lemma ac3_loop_total fuel :
  forall queue s,
    queue_ok c queue -> sound_store c s ->
    ac3_bound c s queue <= fuel ->
    exists b s', ac3_loop c fuel queue s = (Ok b, s') /\ sound_store c s'.
Proof.
  induction fuel as [|fuel IH]; intros [|[x y] queue] s Q P B;
    cbn [ac3_loop]; try (exists true, s; split; [reflexivity | exact P]).
  - unfold ac3_bound in B. cbn [List.length] in B. lia.
  - destruct (Q x y (or_introl eq_refl)) as [Ix Iy].
    assert (Q' : queue_ok c queue)
      by (intros u v I; apply Q; right; exact I).
    destruct (revise_total x y s Ix Iy P) as (b & s1 & R & P1).
    run. rewrite R. cbn beta iota. destruct b.
    + destruct P1 as (D1 & Hn1 & Hd1). destruct (D1 x Ix) as [dx Gx].
      run. rewrite Gx. cbn beta iota.
      destruct (List.length dx == 0).
      * exists false, s1. split; [reflexivity | repeat split; assumption].
      * apply IH; [apply requeue_ok; assumption | repeat split; assumption |].
        pose proof (revise_shrinks x y s s1 Ix R) as Lt.
        pose proof (requeue_length x y queue) as Lq.
        unfold ac3_bound, requeue in *. cbn [List.length] in B. nia.
    + apply ArcConsistency.revise_ok in R.
      assert (s1 = s) as ->.
      { destruct (Crossword.overlaps c x y) as [[ox oy]|].
        - destruct R as (dx & dx' & _ & _ & _ & Hf & _). apply Hf. reflexivity.
        - apply R. }
      apply IH; [exact Q' | exact P1 |].
      unfold ac3_bound in *. cbn [List.length] in B. lia.
Qed.

Lemma all_arcs_ok : queue_ok c (all_arcs c).
Proof.
  unfold all_arcs.
  assert (Inner : forall var nbs q,
    In var (Crossword.variables c) -> incl nbs (Crossword.variables c) ->
    queue_ok c q ->
    queue_ok c (fold_left (fun queue neighbour =>
                  if negb (mem (var, neighbour) queue)
                  then queue ++ [(var, neighbour)] else queue) nbs q)).
  { intros var. induction nbs as [|n nbs IH]; intros q Iv Il Qq;
      cbn [fold_left]; [exact Qq|].
    apply IH; [exact Iv | intros v I; apply Il; right; exact I |].
    destruct (negb (mem (var, n) q)); [|exact Qq].
    intros u v I. apply in_app_or in I as [I|[E|[]]]; [apply Qq, I|].
    injection E as <- <-. split; [exact Iv | apply Il; left; reflexivity]. }
  assert (Outer : forall vs q,
    incl vs (Crossword.variables c) -> queue_ok c q ->
    queue_ok c (fold_left (fun queue var =>
      fold_left (fun queue neighbour =>
        if negb (mem (var, neighbour) queue)
        then queue ++ [(var, neighbour)] else queue)
        (Crossword.neighbors c var) queue) vs q)).
  { induction vs as [|v vs IH]; intros q Il Qq; cbn [fold_left]; [exact Qq|].
    apply IH; [intros u I; apply Il; right; exact I|].
    apply Inner; [apply Il; left; reflexivity | | exact Qq].
    intros u I. apply filter_In in I. apply I. }
  apply Outer; [apply incl_refl | intros x y []].
Qed.

(** [ac3], called without arcs on a sound store, returns when given the
    fuel of [ac3_bound], and leaves a sound store. *)
Lemma ac3_total fuel s :
  sound_store c s ->
  ac3_bound c s (all_arcs c) <= fuel ->
  exists b s', ac3 c fuel None s = (Ok b, s') /\ sound_store c s'.
Proof. intros P B. apply ac3_loop_total; [apply all_arcs_ok | exact P | exact B]. Qed.

(** The store that node consistency leaves is sound. *)
Lemma enforce_node_consistency_sound :
  exists s, enforce_node_consistency c (init c) = (Ok tt, s)
            /\ sound_store c s.
Proof.
  destruct Hwf as (Nv & Nw & _ & _).
  destruct (NodeConsistency.enforce_node_consistency_run c Nv Nw)
    as (s & R & Hdom).
  exists s. split; [exact R|]. split; [|split].
  - intros v I. rewrite (Hdom v I). eauto.
  - intros v w I Iw.
    apply (NodeConsistency.filtered_by_length c s v w (Hdom v I)), Iw.
  - intros v d I G. rewrite (Hdom v I) in G. injection G as <-.
    apply NoDup_filter, Nw.
Qed.

(** On a well-formed puzzle, [solve] reaches the search whenever it has
    the fuel of [ac3_bound]: node consistency and AC-3 raise nothing. *)
Lemma before_search_total :
  exists s0,
    enforce_node_consistency c (init c) = (Ok tt, s0)
    /\ forall fuel,
         ac3_bound c s0 (all_arcs c) <= fuel ->
         exists r s, before_search c fuel = (Ok r, s) /\ sound_store c s.
Proof.
  destruct enforce_node_consistency_sound as (s0 & R & P0).
  exists s0. split; [exact R|]. intros fuel B.
  destruct (ac3_total fuel s0 P0 B) as (b & s1 & A & (D1 & Hn1 & Hd1)).
  unfold before_search. rewrite run_bind, R. cbn beta iota.
  rewrite run_bind, A. cbn beta iota. rewrite run_dict_new.
  eexists. eexists. split; [reflexivity|]. repeat split; assumption.
Qed.
End Total.
End Termination.

(* ================================================================= *)
(** ** The search returns *)

Module Totality.
Import CrosswordCreator Spec Laws Run.

(** *** The store *)

Lemma update_length {A} (l : list A) k a :
  List.length (update l k a) = List.length l.
Proof.
  revert k. induction l as [|x l IH]; intros [|k]; cbn [update List.length];
    try reflexivity. rewrite IH. reflexivity.
Qed.

Lemma nth_error_update_same {A} (l : list A) k a :
  k < List.length l -> nth_error (update l k a) k = Some a.
Proof.
  revert k. induction l as [|x l IH]; intros [|k] L; cbn [List.length] in L;
    try lia; cbn [update nth_error]; [reflexivity|]. apply IH. lia.
Qed.

Lemma nth_error_update_other {A} (l : list A) k k' a :
  k' <> k -> nth_error (update l k a) k' = nth_error l k'.
Proof.
  revert k k'. induction l as [|x l IH]; intros [|k] [|k'] N;
    cbn [update nth_error]; try reflexivity; try contradiction.
  apply IH. lia.
Qed.

Lemma holds_lt s r a : holds s r a -> r < List.length (dicts s).
Proof. intros H. apply nth_error_Some. rewrite H. discriminate. Qed.

Lemma deref_holds s r a : holds s r a -> deref r s = (Ok a, s).
Proof. intros H. rewrite run_deref. unfold list_index. rewrite H. reflexivity. Qed.

(** [r.copy()] allocates a dict with the contents of [r]. *)
Lemma dict_copy_holds s r a :
  holds s r a ->
  exists s1,
    dict_copy r s = (Ok (List.length (dicts s)), s1)
    /\ domains s1 = domains s
    /\ holds s1 (List.length (dicts s)) a
    /\ forall q b, holds s q b -> holds s1 q b.
Proof.
  intros H. unfold dict_copy. rewrite run_bind, (deref_holds _ _ _ H).
  cbn beta iota. eexists. split; [reflexivity|]. split; [reflexivity|].
  unfold holds. cbn [dicts]. split.
  - rewrite nth_error_app2, Nat.sub_diag by lia. reflexivity.
  - intros q b Hq. rewrite nth_error_app1; [exact Hq|].
    apply (holds_lt _ _ _ Hq).
Qed.

(** [r[k] = v] changes the dict [r] refers to, and no other. *)
Lemma dict_set_holds s r k v a :
  holds s r a ->
  exists s1,
    dict_set r k v s = (Ok tt, s1)
    /\ domains s1 = domains s
    /\ holds s1 r (set k v a)
    /\ forall q b, q <> r -> holds s q b -> holds s1 q b.
Proof.
  intros H. unfold dict_set. rewrite run_bind, (deref_holds _ _ _ H).
  cbn beta iota. rewrite run_store.
  eexists. split; [reflexivity|]. split; [reflexivity|].
  unfold holds. cbn [dicts]. split.
  - apply nth_error_update_same, (holds_lt _ _ _ H).
  - intros q b N Hq. rewrite nth_error_update_other; assumption.
Qed.

(** *** Partial assignments *)

Section Partial.
Variable c : Crossword.t.

Lemma partial_set a var v :
  In var (Crossword.variables c) ->
  partial c a -> partial c (set var v a) /\ In var (keys (set var v a))
                 /\ incl (keys a) (keys (set var v a)).
Proof.
  intros Iv [N I]. unfold partial. destruct (mem var (keys a)) eqn:E.
  - apply mem_iff in E. rewrite (keys_set_in _ _ _ E).
    split; [split; assumption|]. split; [exact E | apply incl_refl].
  - apply mem_false_iff in E. rewrite (keys_set_new _ _ _ E). split; [split|].
    + apply NoDup_app; [exact N | repeat constructor; intros [] |].
      intros x Ix [<-|[]]. contradiction.
    + intros x Ix. apply in_app_or in Ix as [Ix|[<-|[]]]; auto.
    + split; [apply in_or_app; right; left; reflexivity|].
      intros x Ix. apply in_or_app. left. exact Ix.
Qed.

(** An assignment that [assignment_complete] rejects leaves a variable
    unassigned. *)
Lemma incomplete_unassigned a :
  NoDup (Crossword.variables c) -> partial c a ->
  List.length a <> List.length (Crossword.variables c) ->
  unassigned c a <> [].
Proof.
  intros Nv [Nk Ik] L E. apply L.
  assert (Iv : incl (Crossword.variables c) (keys a)).
  { intros v I. destruct (mem v (keys a)) eqn:M; [apply mem_iff, M|].
    exfalso. assert (Iu : In v (unassigned c a)).
    { apply filter_In. split; [exact I|]. rewrite M. reflexivity. }
    rewrite E in Iu. exact Iu. }
  pose proof (NoDup_incl_length Nk Ik) as L1.
  pose proof (NoDup_incl_length Nv Iv) as L2.
  unfold keys in L1, L2. rewrite length_map in L1, L2. lia.
Qed.

Lemma filter_length_lt {A} (p q : A -> bool) (l : list A) (x : A) :
  (forall y, p y = true -> q y = true) ->
  In x l -> q x = true -> p x = false ->
  List.length (filter p l) < List.length (filter q l).
Proof.
  intros Hpq. induction l as [|a l IH]; intros I Q Px; [contradiction|].
  assert (Weak : List.length (filter p l) <= List.length (filter q l)).
  { clear - Hpq. induction l as [|b l IHl]; cbn [filter List.length]; [lia|].
    specialize (Hpq b). destruct (p b), (q b); cbn [List.length]; try lia.
    all: try discriminate (Hpq eq_refl). }
  cbn [filter]. destruct I as [->|I].
  - rewrite Q, Px. cbn [List.length]. lia.
  - specialize (IH I Q Px). specialize (Hpq a).
    destruct (p a), (q a); cbn [List.length]; try lia.
    all: try discriminate (Hpq eq_refl).
Qed.

(** Assigning an unassigned variable leaves fewer of them. *)
Lemma unassigned_shrinks a a' var :
  incl (keys a) (keys a') -> In var (keys a') -> In var (unassigned c a) ->
  List.length (unassigned c a') < List.length (unassigned c a).
Proof.
  intros I Iv Iu. apply filter_In in Iu as [Ivar Nu].
  unfold unassigned. apply filter_length_lt with (x := var).
  - intros y. rewrite !negb_true_iff, !mem_false_iff. intros N Iy.
    apply N, I, Iy.
  - exact Ivar.
  - exact Nu.
  - apply negb_false_iff, mem_iff, Iv.
Qed.
End Partial.

(** *** The assignment check raises nothing *)

Lemma index_in_range (v : Val) (k : nat) :
  k < len v -> exists ch, index v k = Ok ch.
Proof.
  destruct v as [w|l]; cbn [len index]; intros L.
  - destruct (Ordering.get_in_range w k L) as [ch E].
    unfold str_index. rewrite E. eauto.
  - unfold list_index. destruct (nth_error l k) as [x|] eqn:E; [eauto|].
    apply nth_error_None in E. lia.
Qed.

Section Consistent.
Variable c : Crossword.t.
Hypothesis Hrange : overlaps_in_range c.

Lemma lengths_match_ok a ks :
  incl ks (keys a) ->
  exists b, lengths_match a ks = Ok b
            /\ (b = true -> forall k, In k ks -> fits a k).
Proof.
  induction ks as [|k ks IH]; intros I; cbn [lengths_match].
  - exists true. split; [reflexivity|]. intros _ k [].
  - destruct (proj1 (get_in_keys k a) (I k (or_introl eq_refl))) as [v G].
    rewrite G. cbn [res_bind].
    destruct (Var.length k == len v) eqn:E; cbn [negb].
    + destruct IH as (b & Eb & Hb); [intros x Ix; apply I; right; exact Ix|].
      exists b. split; [exact Eb|]. intros -> k' [<-|Ik'].
      * exists v. split; [exact G | apply eqb_iff, E].
      * apply Hb; [reflexivity | exact Ik'].
    + exists false. split; [reflexivity | discriminate].
Qed.

Lemma agree_with_ok a key rest :
  In key (Crossword.variables c) -> incl rest (Crossword.variables c) ->
  fits a key -> (forall k, In k rest -> fits a k) ->
  exists b, agree_with c a key rest = Ok b.
Proof.
  intros Ik Ir (v & G & L). induction rest as [|k1 rest IH]; intros F;
    cbn [agree_with]; [eauto|].
  assert (IH' : exists b, agree_with c a key rest = Ok b).
  { apply IH; [intros x Ix; apply Ir; right; exact Ix|].
    intros k Ik'. apply F. right. exact Ik'. }
  destruct (Crossword.overlaps c key k1) as [[o o1]|] eqn:O; [|exact IH'].
  destruct (Hrange key k1 o o1 Ik (Ir k1 (or_introl eq_refl)) O) as [Lo Lo1].
  destruct (F k1 (or_introl eq_refl)) as (v1 & G1 & L1).
  rewrite G. cbn [res_bind].
  destruct (index_in_range v o) as [ch E]; [lia|]. rewrite E. cbn [res_bind].
  rewrite G1. cbn [res_bind].
  destruct (index_in_range v1 o1) as [ch1 E1]; [lia|]. rewrite E1.
  cbn [res_bind]. destruct (ch != ch1); [eauto | exact IH'].
Qed.

Lemma agree_ok a ks :
  incl ks (Crossword.variables c) -> (forall k, In k ks -> fits a k) ->
  exists b, agree c a ks = Ok b.
Proof.
  induction ks as [|k ks IH]; intros I F; cbn [agree]; [eauto|].
  destruct (agree_with_ok a k ks) as [b E].
  - apply I. left. reflexivity.
  - intros x Ix. apply I. right. exact Ix.
  - apply F. left. reflexivity.
  - intros x Ix. apply F. right. exact Ix.
  - rewrite E. cbn [res_bind]. destruct b; [|eauto].
    apply IH; [intros x Ix; apply I; right; exact Ix|].
    intros x Ix. apply F. right. exact Ix.
Qed.

(** [consistent] returns on every assignment of variables of the puzzle. *)
Lemma consistent_total r s a :
  holds s r a -> incl (keys a) (Crossword.variables c) ->
  exists b, consistent c r s = (Ok b, s).
Proof.
  intros H I. unfold consistent. rewrite run_bind, (deref_holds _ _ _ H).
  cbn beta iota. destruct (repeated (values a)); cbn beta iota;
    [exists false; reflexivity|].
  destruct (lengths_match_ok a (keys a) (incl_refl _)) as (b & E & F).
  rewrite run_bind, run_lift, E. cbn beta iota.
  destruct b; cbn [negb]; cbn beta iota; [|exists false; reflexivity].
  destruct (agree_ok a (keys a) I (F eq_refl)) as [b E']. rewrite run_lift, E'.
  exists b. reflexivity.
Qed.
End Consistent.

(** *** The search raises nothing and stays within its fuel *)

Section Backtrack.
Variable c : Crossword.t.
Hypothesis Hwf : well_formed c.

Lemma sound_store_domains s s' :
  domains s' = domains s -> sound_store c s -> sound_store c s'.
Proof.
  intros E. unfold sound_store, has_domains, node_consistent, nodup_domains,
    domain. rewrite E. auto.
Qed.

Lemma try_values_total recurse var r (a0 : Assignment) :
  In var (Crossword.variables c) ->
  (forall s a,
     searching c s r a -> incl (keys a0) (keys a) -> In var (keys a) ->
     exists res s', recurse r s = (Ok res, s') /\ returned c s r a s') ->
  forall values s a,
    searching c s r a -> incl (keys a0) (keys a) ->
    exists res s',
      try_values c recurse var r values s = (Ok res, s')
      /\ returned c s r a s'.
Proof.
  intros Iv Hrec. destruct Hwf as (_ & _ & _ & Hrange). intros values.
  induction values as [|value values IH]; intros s a (P & H & Pa) I0;
    cbn [try_values].
  - exists None, s. split; [reflexivity|]. split; [reflexivity|].
    exists a. split; [exact H|]. split; [exact Pa | apply incl_refl].
  - destruct (dict_copy_holds s r a H) as (s1 & E1 & D1 & Hc1 & K1).
    rewrite run_bind, E1. cbn beta iota.
    destruct (dict_set_holds s1 (List.length (dicts s)) var (Str value) a Hc1)
      as (s2 & E2 & D2 & Hc2 & K2).
    rewrite run_bind, E2. cbn beta iota.
    assert (Hr2 : holds s2 r a).
    { apply K2; [|apply K1, H]. pose proof (holds_lt _ _ _ H). lia. }
    destruct (partial_set c a var (Str value) Iv Pa) as (Pa3 & Iv3 & Inc3).
    destruct (consistent_total c Hrange (List.length (dicts s)) s2
                (set var (Str value) a) Hc2 (proj2 Pa3)) as [ok E3].
    rewrite run_bind, E3. cbn beta iota. rewrite run_bind.
    assert (Mid : exists result sx ax,
      (if ok then (dict_set r var (Str value) ;; recurse r)%py else ret None) s2
      = (Ok result, sx)
      /\ domains sx = domains s /\ holds sx r ax /\ partial c ax
      /\ incl (keys a) (keys ax)).
    { destruct ok.
      - destruct (dict_set_holds s2 r var (Str value) a Hr2)
          as (s3 & E & D3 & H3 & _).
        rewrite run_bind, E. cbn beta iota.
        assert (D30 : domains s3 = domains s) by congruence.
        destruct (Hrec s3 (set var (Str value) a))
          as (res & s4 & E4 & D4 & a4 & H4 & P4 & I4).
        + split; [apply (sound_store_domains s), P; exact D30|].
          split; assumption.
        + eapply incl_tran; eassumption.
        + exact Iv3.
        + exists res, s4, a4. split; [exact E4|]. split; [congruence|].
          split; [exact H4|]. split; [exact P4|].
          eapply incl_tran; eassumption.
      - exists None, s2, a. split; [reflexivity|]. split; [congruence|].
        split; [exact Hr2|]. split; [exact Pa | apply incl_refl]. }
    destruct Mid as (result & sx & ax & Em & Dx & Hx & Px & Ix).
    rewrite Em. cbn beta iota. destruct result as [res|].
    + exists (Some res), sx. split; [reflexivity|]. split; [exact Dx|].
      exists ax. auto.
    + rewrite run_bind, (deref_holds _ _ _ Hx). cbn beta iota. rewrite run_bind.
      assert (Undo : exists sy ay,
        (if mem var (keys ax) then
           (cur <- lift (get var ax) ;;
            dict_set r var (without cur value))%py
         else ret tt) sx = (Ok tt, sy)
        /\ domains sy = domains s /\ holds sy r ay /\ partial c ay
        /\ incl (keys a) (keys ay)).
      { destruct (mem var (keys ax)) eqn:Mv.
        - apply mem_iff in Mv.
          destruct (proj1 (get_in_keys var ax) Mv) as [cur G].
          rewrite run_bind, run_lift, G. cbn beta iota.
          destruct (dict_set_holds sx r var (without cur value) ax Hx)
            as (sy & E & Dy & Hy & _).
          exists sy, (set var (without cur value) ax).
          split; [exact E|]. split; [congruence|]. split; [exact Hy|].
          unfold partial. rewrite (keys_set_in _ _ _ Mv). auto.
        - exists sx, ax. split; [reflexivity|]. auto. }
      destruct Undo as (sy & ay & Eu & Dy & Hy & Py & Iy).
      rewrite Eu. cbn beta iota.
      destruct (IH sy ay) as (res & s' & E' & D' & a' & H' & P' & I').
      * split; [apply (sound_store_domains s), P; exact Dy|].
        split; assumption.
      * eapply incl_tran; eassumption.
      * exists res, s'. split; [exact E'|]. split; [congruence|].
        exists a'. split; [exact H'|]. split; [exact P'|].
        eapply incl_tran; eassumption.
Qed.

(** With more fuel than there are unassigned variables, [backtrack]
    returns: it raises nothing and does not run out of fuel. *)
Lemma backtrack_total fuel :
  forall r s a,
    searching c s r a ->
    List.length (unassigned c a) < fuel ->
    exists res s', backtrack c fuel r s = (Ok res, s') /\ returned c s r a s'.
Proof.
  destruct Hwf as (Nv & Nw & Hsym & Hrange).
  induction fuel as [|fuel IH]; intros r s a S L; [lia|].
  pose proof S as ((D & Hn & Hd) & H & Pa).
  cbn [backtrack]. unfold assignment_complete.
  rewrite !run_bind, (deref_holds _ _ _ H). cbn beta iota. rewrite run_ret.
  change (List.length a == List.length (Crossword.variables c))
    with (List.length a =? List.length (Crossword.variables c)).
  destruct (List.length a =? List.length (Crossword.variables c)) eqn:C.
  - exists (Some r), s. split; [reflexivity|]. split; [reflexivity|].
    exists a. split; [exact H|]. split; [exact Pa | apply incl_refl].
  - apply Nat.eqb_neq in C.
    destruct (Selection.select_minimum_remaining_values c Nv r s a D
                (deref_holds _ _ _ H) (incomplete_unassigned c a Nv Pa C))
      as (var & Sel & Iu & _).
    rewrite run_bind, Sel. cbn beta iota.
    assert (Iv : In var (Crossword.variables c))
      by (apply filter_In in Iu; apply Iu).
    destruct (D var Iv) as [dv Gv].
    rewrite run_bind.
    rewrite (Ordering.order_domain_values_run c r s a var dv
               Nv Hsym Hrange D Hn (deref_holds _ _ _ H) Iv Gv).
    destruct (Ordering.sort_rounds_sorts (elimination_count c s a var) dv)
      as (values & Ord & _).
    rewrite Ord. cbn beta iota.
    apply (try_values_total (backtrack c fuel) var r a Iv);
      [|exact S | apply incl_refl].
    intros s1 a1 S1 I1 Iv1. apply IH; [exact S1|].
    pose proof (unassigned_shrinks c a a1 var I1 Iv1 Iu). lia.
Qed.

(** On a well-formed puzzle [solve] returns, an assignment or [None],
    whenever its fuel covers the bound of AC-3 and the number of
    variables. *)
Theorem solve_total :
  exists s0,
    enforce_node_consistency c (init c) = (Ok tt, s0)
    /\ forall fuel,
         ac3_bound c s0 (all_arcs c) <= fuel ->
         List.length (Crossword.variables c) < fuel ->
         exists res s, solve c fuel (init c) = (Ok res, s).
Proof.
  destruct (Termination.before_search_total c Hwf) as (s0 & R & T).
  exists s0. split; [exact R|]. intros fuel B L.
  destruct (T fuel B) as (r & s & Bs & P).
  destruct (Search.before_search_ok c fuel r s Bs) as (_ & Ha & So).
  assert (H : holds s r []).
  { rewrite run_deref in Ha. unfold list_index, holds in *.
    destruct (nth_error (dicts s) r); [|discriminate Ha].
    injection Ha as ->. reflexivity. }
  destruct (backtrack_total fuel r s []) as (res & s' & E & _).
  - split; [exact P|]. split; [exact H|]. split; [constructor | intros x []].
  - rewrite Search.unassigned_nil. exact L.
  - exists res, s'. rewrite So. exact E.
Qed.
End Backtrack.
End Totality.

(* ================================================================= *)
(** ** More on revision and propagation *)

Module Pruning.
Import CrosswordCreator Spec Laws Run Grid GridFacts.

Section Revise.
Variable c : Crossword.t.

Lemma get_set_domain s x dx v :
  v <> x ->
  get v (domains (mkSelf (set x dx (domains s)) (dicts s)))
  = get v (domains s).
Proof. intros N. cbn [domains]. apply get_set_other, N. Qed.

(** X1. When [revise x y] returns, the domain of [x] holds exactly the
    words it held before that agree with some word of the domain of [y]
    at the overlap; no other domain and no dict has changed; and the value
    returned is [False] exactly when the store is unchanged.  Without an
    overlap entry nothing changes. *)
Theorem revise_post x y s b s' :
  revise c x y s = (Ok b, s') ->
  (b = false <-> s' = s)
  /\ dicts s' = dicts s
  /\ (forall v, v <> x -> get v (domains s') = get v (domains s))
  /\ match Crossword.overlaps c x y with
     | None => s' = s
     | Some (ox, oy) =>
         forall w, In w (domain s' x) <->
                   In w (domain s x) /\ supported s y ox oy w
     end.
Proof.
  intros R. apply ArcConsistency.revise_ok in R.
  destruct (Crossword.overlaps c x y) as [[ox oy]|].
  - destruct R as (dx & dx' & G & -> & In' & Hf & Hlt). split; [|split; [|split]].
    + split; [exact Hf|]. intros E. destruct b; [|reflexivity].
      exfalso. specialize (Hlt eq_refl).
      assert (G' : get x (domains s) = Ok dx').
      { rewrite <- E. cbn [domains]. apply get_set_same. }
      rewrite G in G'. injection G' as <-. lia.
    + reflexivity.
    + intros v N. apply get_set_domain, N.
    + intros w. rewrite ArcConsistency.domain_set, eqb_refl.
      rewrite (ArcConsistency.domain_get _ _ _ G). apply In'.
  - destruct R as [-> ->]. repeat split; reflexivity.
Qed.

End Revise.

(** An instance: the top slot against the right one, with the words ABC
    and DEF. *)
Lemma revise_post_witness :
  let s := snd (enforce_node_consistency arch_dead (init arch_dead)) in
  let s' := snd (revise arch_dead top right s) in
  (true = false <-> s' = s)
  /\ dicts s' = dicts s
  /\ (forall v, v <> top -> get v (domains s') = get v (domains s))
  /\ forall w, In w (domain s' top) <->
               In w (domain s top) /\ supported s right 2 0 w.
Proof.
  apply (revise_post arch_dead top right
           (snd (enforce_node_consistency arch_dead (init arch_dead))) true).
  vm_compute. reflexivity.
Defined.

Section Loop.
Variable c : Crossword.t.

Lemma shrinks_refl s : shrinks s s.
Proof. split; [reflexivity|]. split; [reflexivity|]. intros v. apply incl_refl. Qed.

Lemma shrinks_trans s1 s2 s3 : shrinks s1 s2 -> shrinks s2 s3 -> shrinks s1 s3.
Proof.
  intros (D1 & K1 & I1) (D2 & K2 & I2). split; [congruence|].
  split; [congruence|]. intros v. eapply incl_tran; [apply I2 | apply I1].
Qed.

Lemma revise_shrinks_store x y s b s' :
  revise c x y s = (Ok b, s') -> shrinks s s'.
Proof.
  intros R. apply ArcConsistency.revise_ok in R.
  destruct (Crossword.overlaps c x y) as [[ox oy]|].
  - destruct R as (dx & dx' & G & -> & In' & _ & _).
    split; [reflexivity|]. split.
    + cbn [domains]. apply keys_set_in, get_in_keys. eauto.
    + intros v w. rewrite ArcConsistency.domain_set.
      destruct (v == x) eqn:E; [|auto].
      apply eqb_iff in E. subst v.
      rewrite (ArcConsistency.domain_get _ _ _ G). intros I. apply In', I.
  - destruct R as [-> _]. apply shrinks_refl.
Qed.

Lemma ac3_loop_shrinks fuel queue s b s' :
  ac3_loop c fuel queue s = (Ok b, s') -> shrinks s s'.
Proof.
  revert queue s. induction fuel as [|fuel IH]; intros [|[x y] queue] s;
    cbn [ac3_loop]; try discriminate;
    try (intros E; injection E as <- <-; apply shrinks_refl).
  run. destruct (revise c x y s) as [[r| |] s1] eqn:R;
    cbn beta iota; try discriminate.
  apply revise_shrinks_store in R. destruct r.
  - run. destruct (get x (domains s1)) as [dx| |]; cbn beta iota;
      try discriminate.
    destruct (List.length dx == 0).
    + intros E. injection E as <- <-. exact R.
    + intros E. apply IH in E. eapply shrinks_trans; eassumption.
  - intros E. apply IH in E. eapply shrinks_trans; eassumption.
Qed.

Lemma ac3_loop_false fuel queue s s' :
  ac3_loop c fuel queue s = (Ok false, s') ->
  exists x, get x (domains s') = Ok [].
Proof.
  revert queue s. induction fuel as [|fuel IH]; intros [|[x y] queue] s;
    cbn [ac3_loop]; try discriminate.
  run. destruct (revise c x y s) as [[r| |] s1];
    cbn beta iota; try discriminate.
  destruct r; [|apply IH].
  run. destruct (get x (domains s1)) as [dx| |] eqn:G; cbn beta iota;
    try discriminate.
  destruct dx as [|w dx]; [|apply IH].
  intros E. injection E as <-. exists x. exact G.
Qed.

(** A solution drawn from the domains survives a revision. *)
Lemma revise_keeps_solution x y s b s' a :
  In y (Crossword.variables c) ->
  solution c a -> from_domains s a ->
  revise c x y s = (Ok b, s') ->
  from_domains s' a.
Proof.
  intros Iy Sol Fd R. apply ArcConsistency.revise_ok in R.
  destruct (Crossword.overlaps c x y) as [[ox oy]|] eqn:O;
    [|destruct R as [-> _]; exact Fd].
  destruct R as (dx & dx' & G & -> & In' & _ & _).
  intros v w I. rewrite ArcConsistency.domain_set.
  destruct (v == x) eqn:E; [|apply Fd, I].
  apply eqb_iff in E. subst v. apply In'. split.
  - rewrite <- (ArcConsistency.domain_get _ _ _ G). apply Fd, I.
  - destruct Sol as [[_ Ks] Ws _ Ag].
    apply Ks in Iy. unfold keys in Iy. apply in_map_iff in Iy as ([y' val] & Ey & Iy).
    cbn [fst] in Ey. subst y'.
    destruct (Ws y val Iy) as (wy & -> & _).
    exists wy. split; [apply Fd, Iy | apply (Ag x y w wy ox oy I Iy O)].
Qed.

Lemma ac3_loop_keeps_solution fuel queue s b s' a :
  queue_ok c queue ->
  solution c a -> from_domains s a ->
  ac3_loop c fuel queue s = (Ok b, s') ->
  b = true /\ from_domains s' a.
Proof.
  intros Q Sol. revert queue s Q.
  induction fuel as [|fuel IH]; intros [|[x y] queue] s Q Fd;
    cbn [ac3_loop]; try discriminate;
    try (intros E; injection E as <- <-; split; [reflexivity | exact Fd]).
  destruct (Q x y (or_introl eq_refl)) as [Ix Iy].
  assert (Q' : queue_ok c queue) by (intros u v I; apply Q; right; exact I).
  run. destruct (revise c x y s) as [[r| |] s1] eqn:R;
    cbn beta iota; try discriminate.
  pose proof (revise_keeps_solution x y s r s1 a Iy Sol Fd R) as Fd1.
  destruct r; [|apply IH; assumption].
  run. destruct (get x (domains s1)) as [dx| |] eqn:G; cbn beta iota;
    try discriminate.
  destruct dx as [|w dx].
  - exfalso. destruct Sol as [[_ Ks] Ws _ _].
    apply Ks in Ix. unfold keys in Ix.
    apply in_map_iff in Ix as ([x' val] & Ex & Ix). cbn [fst] in Ex. subst x'.
    destruct (Ws x val Ix) as (wx & -> & _).
    specialize (Fd1 x wx Ix).
    rewrite (ArcConsistency.domain_get _ _ _ G) in Fd1. exact Fd1.
  - apply IH; [|exact Fd1].
    apply Termination.requeue_ok; assumption.
Qed.

(** The initial queue goes from variables to their neighbours. *)
Lemma all_arcs_arcs_ok : arcs_ok c (all_arcs c).
Proof.
  unfold all_arcs.
  assert (Inner : forall var nbs q,
    In var (Crossword.variables c) -> incl nbs (Crossword.neighbors c var) ->
    arcs_ok c q ->
    arcs_ok c (fold_left (fun queue neighbour =>
                 if negb (mem (var, neighbour) queue)
                 then queue ++ [(var, neighbour)] else queue) nbs q)).
  { intros var. induction nbs as [|n nbs IH]; intros q Iv Il Qq;
      cbn [fold_left]; [exact Qq|].
    apply IH; [exact Iv | intros v I; apply Il; right; exact I |].
    destruct (negb (mem (var, n) q)); [|exact Qq].
    intros u v I. apply in_app_or in I as [I|[E|[]]]; [apply Qq, I|].
    injection E as <- <-. split; [exact Iv | apply Il; left; reflexivity]. }
  assert (Outer : forall vs q,
    incl vs (Crossword.variables c) -> arcs_ok c q ->
    arcs_ok c (fold_left (fun queue var =>
      fold_left (fun queue neighbour =>
        if negb (mem (var, neighbour) queue)
        then queue ++ [(var, neighbour)] else queue)
        (Crossword.neighbors c var) queue) vs q)).
  { induction vs as [|v vs IH]; intros q Il Qq; cbn [fold_left]; [exact Qq|].
    apply IH; [intros u I; apply Il; right; exact I|].
    apply Inner; [apply Il; left; reflexivity | apply incl_refl | exact Qq]. }
  apply Outer; [apply incl_refl | intros x y []].
Qed.

(** On a sound store where its arc is consistent, [revise] changes
    nothing. *)
Lemma revise_consistent_arc x y s :
  well_formed c -> sound_store c s -> arc_consistent c s ->
  In x (Crossword.variables c) -> In y (Crossword.neighbors c x) ->
  revise c x y s = (Ok false, s).
Proof.
  intros Hwf P A Ix Iy.
  apply (ArcConsistency.neighbors_iff c) in Iy as (Iy & N & _).
  destruct (Termination.revise_total c Hwf x y s Ix Iy P) as (b & s' & R & _).
  pose proof R as R'. apply ArcConsistency.revise_ok in R'.
  destruct (Crossword.overlaps c x y) as [[ox oy]|] eqn:O;
    [|destruct R' as [-> ->]; exact R].
  destruct R' as (dx & dx' & G & E & In' & Hf & Hlt).
  destruct b; [|rewrite <- (Hf eq_refl) at 2; exact R].
  exfalso. specialize (Hlt eq_refl).
  destruct P as (_ & _ & Hnd).
  assert (I : incl dx dx').
  { intros w Iw. apply In'. split; [exact Iw|].
    apply (A x y ox oy w Ix Iy); [auto | exact O |].
    rewrite (ArcConsistency.domain_get _ _ _ G). exact Iw. }
  pose proof (NoDup_incl_length (Hnd x dx Ix G) I). lia.
Qed.

Lemma ac3_loop_consistent fuel queue s :
  well_formed c -> sound_store c s -> arc_consistent c s ->
  arcs_ok c queue -> List.length queue <= fuel ->
  ac3_loop c fuel queue s = (Ok true, s).
Proof.
  intros Hwf P A. revert queue.
  induction fuel as [|fuel IH]; intros [|[x y] queue] Q L;
    cbn [ac3_loop]; try reflexivity; cbn [List.length] in L; [lia|].
  destruct (Q x y (or_introl eq_refl)) as [Ix Iy].
  run. rewrite (revise_consistent_arc x y s Hwf P A Ix Iy). cbn beta iota.
  apply IH; [|lia]. intros u v I. apply Q. right. exact I.
Qed.

(** A loop that returns leaves a sound store. *)
Lemma ac3_loop_sound fuel queue s b s' :
  well_formed c -> queue_ok c queue -> sound_store c s ->
  ac3_loop c fuel queue s = (Ok b, s') -> sound_store c s'.
Proof.
  intros Hwf. revert queue s.
  induction fuel as [|fuel IH]; intros [|[x y] queue] s Q P;
    cbn [ac3_loop]; try discriminate;
    try (intros E; injection E as <- <-; exact P).
  destruct (Q x y (or_introl eq_refl)) as [Ix Iy].
  assert (Q' : queue_ok c queue) by (intros u v I; apply Q; right; exact I).
  destruct (Termination.revise_total c Hwf x y s Ix Iy P) as (r & s1 & R & P1).
  run. rewrite R. cbn beta iota. destruct r; [|apply IH; assumption].
  run. destruct (get x (domains s1)) as [dx| |]; cbn beta iota;
    try discriminate.
  destruct (List.length dx == 0).
  - intros E. injection E as <- <-. exact P1.
  - apply IH; [|exact P1]. apply Termination.requeue_ok; assumption.
Qed.

(** After a run of [ac3] without arcs that returned [True], every arc is
    consistent. *)
Lemma ac3_leaves_consistent fuel s s' :
  symmetric_overlaps c ->
  ac3 c fuel None s = (Ok true, s') -> arc_consistent c s'.
Proof.
  intros Hsym E x y ox oy w Ix Iy N O Iw.
  cbn [ac3] in E. apply (ArcConsistency.ac3_loop_ok c Hsym) in E.
  - destruct (E x y) as [[]|A]; [exact Ix | | exact (A ox oy w O Iw)].
    apply ArcConsistency.neighbors_iff. split; [exact Iy|]. split; [auto|].
    exists (oy, ox). apply Hsym; assumption.
  - intros u v Iu Iv. left. apply ArcConsistency.all_arcs_in; assumption.
Qed.
End Loop.

(** *** The arch grid with the words ABC, ADA and CAB *)

Lemma arch_well_formed words : NoDup words -> well_formed (arch words).
Proof.
  intros N. split; [apply arch_variables|]. split; [exact N|].
  split; [apply arch_symmetric | apply arch_in_range].
Qed.

Lemma arch_sound words :
  NoDup words ->
  sound_store (arch words)
    (snd (enforce_node_consistency (arch words) (init (arch words)))).
Proof.
  intros N.
  destruct (Termination.enforce_node_consistency_sound _ (arch_well_formed _ N))
    as (s & E & P).
  rewrite E. exact P.
Qed.

Lemma arch3_well_formed : well_formed arch3.
Proof. apply arch_well_formed. repeat constructor; cbn; intuition discriminate. Qed.

Lemma arch3_sound :
  sound_store arch3 (snd (enforce_node_consistency arch3 (init arch3))).
Proof. apply arch_sound. repeat constructor; cbn; intuition discriminate. Qed.

Lemma arch3_filled_solution : solution arch3 arch3_filled.
Proof.
  split.
  - split; [apply (arch_variables []) | intros v; reflexivity].
  - intros v val I. unfold arch3_filled in I.
    repeat (destruct I as [I|I]; [injection I as <- <-; eauto|]).
    destruct I.
  - repeat constructor; cbn; intuition discriminate.
  - intros x y wx wy ox oy Ix Iy. unfold arch3_filled in Ix, Iy.
    repeat (destruct Ix as [Ix|Ix]; [injection Ix as <- <-|]); try destruct Ix;
    repeat (destruct Iy as [Iy|Iy]; [injection Iy as <- <-|]); try destruct Iy;
    vm_compute; intros E; try discriminate E; injection E as <- <-;
    eexists; split; reflexivity.
Qed.

Lemma arch3_filled_from_domains :
  from_domains (snd (enforce_node_consistency arch3 (init arch3)))
               arch3_filled.
Proof.
  intros v w I. unfold arch3_filled in I.
  repeat (destruct I as [I|I]; [injection I as <- <-; vm_compute; tauto|]).
  destruct I.
Qed.

(** X2. When [ac3] returns [False], the domain of some variable is empty
    in the store it leaves. *)
Theorem ac3_failure_leaves_empty_domain
  (c : Crossword.t) (fuel : nat) (arcs : option (list Arc)) (s s' : Self) :
  ac3 c fuel arcs s = (Ok false, s') ->
  exists x, get x (domains s') = Ok [].
Proof. destruct arcs; apply ac3_loop_false. Qed.

(** An instance: the arch grid with the words ABC and DEF. *)
Lemma ac3_failure_leaves_empty_domain_witness :
  exists x,
    get x (domains
             (snd (ac3 arch_dead 2 None
                     (snd (enforce_node_consistency arch_dead
                             (init arch_dead))))))
    = Ok [].
Proof.
  apply (ac3_failure_leaves_empty_domain arch_dead 2 None
           (snd (enforce_node_consistency arch_dead (init arch_dead)))).
  vm_compute. reflexivity.
Defined.

(** X3. [ac3] only removes words: whatever arcs it is given and whatever
    it returns, every domain it leaves is included in the domain it found,
    the keys of [self.domains] are the same and no dict was touched. *)
Theorem ac3_only_removes
  (c : Crossword.t) (fuel : nat) (arcs : option (list Arc)) (s s' : Self)
  (b : bool) :
  ac3 c fuel arcs s = (Ok b, s') -> shrinks s s'.
Proof. destruct arcs; apply ac3_loop_shrinks. Qed.

(** An instance: the arch grid with three words. *)
Lemma ac3_only_removes_witness :
  shrinks (snd (enforce_node_consistency arch3 (init arch3)))
          (snd (ac3 arch3 5 None
                  (snd (enforce_node_consistency arch3 (init arch3))))).
Proof.
  apply (ac3_only_removes arch3 5 None
           (snd (enforce_node_consistency arch3 (init arch3))) _ true).
  vm_compute. reflexivity.
Defined.

(** X4. [ac3] prunes no word of a solution: when the domains hold the
    words of a complete valid assignment, [ac3] called without arcs returns
    [True], never [False], and the domains it leaves still hold them. *)
Theorem ac3_keeps_solutions
  (c : Crossword.t) (fuel : nat) (s s' : Self) (b : bool) (a : Assignment) :
  solution c a -> from_domains s a ->
  ac3 c fuel None s = (Ok b, s') ->
  b = true /\ from_domains s' a.
Proof.
  intros Sol Fd. apply ac3_loop_keeps_solution; [|exact Sol | exact Fd].
  apply Termination.all_arcs_ok.
Qed.

(** An instance: the arch grid and its one solution. *)
Lemma ac3_keeps_solutions_witness :
  true = true
  /\ from_domains
       (snd (ac3 arch3 5 None
               (snd (enforce_node_consistency arch3 (init arch3)))))
       arch3_filled.
Proof.
  apply (ac3_keeps_solutions arch3 5
           (snd (enforce_node_consistency arch3 (init arch3)))).
  - exact arch3_filled_solution.
  - exact arch3_filled_from_domains.
  - vm_compute. reflexivity.
Defined.

(** X5. [ac3] is idempotent: on a well-formed puzzle and a sound store,
    once [ac3] called without arcs has returned [True], calling it again
    on the store it left returns [True] and changes nothing, given one unit
    of fuel for each arc. *)
Theorem ac3_idempotent (c : Crossword.t) (fuel fuel' : nat) (s s' : Self) :
  well_formed c -> sound_store c s ->
  ac3 c fuel None s = (Ok true, s') ->
  List.length (all_arcs c) <= fuel' ->
  ac3 c fuel' None s' = (Ok true, s').
Proof.
  intros Hwf P E L. cbn [ac3].
  apply ac3_loop_consistent; try assumption.
  - eapply ac3_loop_sound; [exact Hwf | | exact P | exact E].
    apply Termination.all_arcs_ok.
  - eapply ac3_leaves_consistent; [apply Hwf | exact E].
  - apply all_arcs_arcs_ok.
Qed.

(** An instance: the arch grid with three words. *)
Lemma ac3_idempotent_witness :
  let s' := snd (ac3 arch3 5 None
                   (snd (enforce_node_consistency arch3 (init arch3)))) in
  ac3 arch3 4 None s' = (Ok true, s').
Proof.
  apply (ac3_idempotent arch3 5 4
           (snd (enforce_node_consistency arch3 (init arch3)))).
  - exact arch3_well_formed.
  - exact arch3_sound.
  - vm_compute. reflexivity.
  - vm_compute. repeat constructor.
Defined.

(** X6. On a well-formed puzzle and a sound store, [ac3] called without
    arcs returns: it raises nothing and needs no more iterations than
    [ac3_bound] says; the store it leaves is sound again. *)
Theorem ac3_terminates (c : Crossword.t) (fuel : nat) (s : Self) :
  well_formed c -> sound_store c s ->
  ac3_bound c s (all_arcs c) <= fuel ->
  exists b s', ac3 c fuel None s = (Ok b, s') /\ sound_store c s'.
Proof. intros Hwf. apply Termination.ac3_total, Hwf. Qed.

(** An instance: the arch grid with three words. *)
Lemma ac3_terminates_witness :
  exists b s',
    ac3 arch3 40 None (snd (enforce_node_consistency arch3 (init arch3)))
    = (Ok b, s')
    /\ sound_store arch3 s'.
Proof.
  apply (ac3_terminates arch3 40).
  - exact arch3_well_formed.
  - exact arch3_sound.
  - vm_compute. repeat constructor.
Defined.
End Pruning.

(* ================================================================= *)
(** ** The checks on domains and assignments *)

Module Checks.
Import CrosswordCreator Spec Laws Run Grid GridFacts.

Lemma get_cases {V} (k : Var.t) (d : Dict Var.t V) :
  (exists v, get k d = Ok v) \/ get k d = Raise KeyError.
Proof.
  induction d as [|[k' v'] d IH]; cbn [get]; [right; reflexivity|].
  destruct (k == k'); [left; eauto | exact IH].
Qed.

Section Again.
Variable c : Crossword.t.

(** On node-consistent domains the inner loop of
    [enforce_node_consistency] finds nothing to remove: it stops at the
    first word of another length. *)
Lemma words_again s var ws :
  In var (Crossword.variables c) -> node_consistent c s ->
  for_each ws (fun word =>
    if String.length word != Var.length var then
      (d <- get_domain var ;;
       d' <- lift (remove word d) ;;
       set_domain var d')%py
    else ret tt) s
  = (if existsb (too_long_or_short var) ws then Raise KeyError else Ok tt, s).
Proof.
  intros Iv Hn. induction ws as [|word ws IH]; cbn [for_each existsb];
    [reflexivity|].
  unfold too_long_or_short at 1.
  destruct (String.length word != Var.length var) eqn:E; cbn [orb]; run.
  - destruct (get_cases var (domains s)) as [[d G]| ->]; [|reflexivity].
    rewrite G. cbn beta iota. run. unfold remove.
    assert (M : mem word d = false).
    { apply mem_false_iff. intros I. apply negb_true_iff, eqb_false_iff in E.
      apply E, (Hn var word Iv).
      rewrite (ArcConsistency.domain_get _ _ _ G). exact I. }
    rewrite M. reflexivity.
  - exact IH.
Qed.

Lemma variables_again s vs :
  incl vs (Crossword.variables c) -> node_consistent c s ->
  for_each vs (fun var =>
    for_each (Crossword.words c) (fun word =>
      if String.length word != Var.length var then
        (d <- get_domain var ;;
         d' <- lift (remove word d) ;;
         set_domain var d')%py
      else ret tt)) s
  = (if existsb (fun var =>
                   existsb (too_long_or_short var) (Crossword.words c)) vs
     then Raise KeyError else Ok tt, s).
Proof.
  intros I Hn. induction vs as [|var vs IH]; cbn [for_each existsb];
    [reflexivity|].
  run. rewrite words_again; [|apply I; left; reflexivity | exact Hn].
  destruct (existsb (too_long_or_short var) (Crossword.words c));
    cbn [orb]; [reflexivity|].
  apply IH. intros v Iv. apply I. right. exact Iv.
Qed.
End Again.

(** X7. [enforce_node_consistency] cannot be repeated.  On domains that
    are node consistent already it changes nothing, and unless every word
    of the puzzle has the length of every variable it raises [KeyError]:
    [set.remove] is applied to a word that is no longer in the domain. *)
Theorem enforce_node_consistency_not_repeatable (c : Crossword.t) (s : Self) :
  node_consistent c s ->
  enforce_node_consistency c s
  = (if misfit c then Raise KeyError else Ok tt, s).
Proof. intros Hn. apply variables_again; [apply incl_refl | exact Hn]. Qed.

(** An instance: the arch grid with the words ABC and AB. *)
Lemma enforce_node_consistency_not_repeatable_witness :
  let s := snd (enforce_node_consistency arch_mixed (init arch_mixed)) in
  enforce_node_consistency arch_mixed s = (Raise KeyError, s).
Proof.
  apply (enforce_node_consistency_not_repeatable arch_mixed).
  apply (Pruning.arch_sound ["ABC"; "AB"]%string).
  repeat constructor; cbn; intuition discriminate.
Defined.

Section Consistent.
Variable c : Crossword.t.

Lemma repeated_iff (l : list Val) : repeated l = false <-> NoDup l.
Proof.
  induction l as [|v l IH]; cbn [repeated].
  - split; [constructor | reflexivity].
  - rewrite orb_false_iff, mem_false_iff, IH. split.
    + intros [N D]. constructor; assumption.
    + intros D. inversion D. auto.
Qed.

Lemma lengths_match_inv a ks b :
  lengths_match a ks = Ok b ->
  (b = true <-> forall k, In k ks -> fits a k).
Proof.
  induction ks as [|k ks IH]; cbn [lengths_match].
  - intros E. injection E as <-. split; [intros _ k [] | reflexivity].
  - destruct (get k a) as [v| |] eqn:G; cbn [res_bind]; try discriminate.
    destruct (Var.length k == len v) eqn:L; cbn [negb].
    + intros E. rewrite (IH E). split.
      * intros F k' [<-|I]; [|apply F, I].
        exists v. split; [exact G | apply eqb_iff, L].
      * intros F k' I. apply F. right. exact I.
    + intros E. injection E as <-. split; [discriminate|].
      intros F. destruct (F k (or_introl eq_refl)) as (v' & G' & L').
      rewrite G in G'. injection G' as <-.
      apply eqb_false_iff in L. contradiction.
Qed.

Lemma agree_with_inv a key rest b :
  agree_with c a key rest = Ok b ->
  (b = true <-> Forall (agrees c a key) rest).
Proof.
  induction rest as [|key1 rest IH]; cbn [agree_with].
  - intros E. injection E as <-. split; [constructor | reflexivity].
  - destruct (Crossword.overlaps c key key1) as [[o o1]|] eqn:O.
    + destruct (get key a) as [v| |] eqn:G; cbn [res_bind]; try discriminate.
      destruct (index v o) as [ch| |] eqn:X; cbn [res_bind];
        try discriminate.
      destruct (get key1 a) as [v1| |] eqn:G1; cbn [res_bind];
        try discriminate.
      destruct (index v1 o1) as [ch1| |] eqn:X1; cbn [res_bind];
        try discriminate.
      destruct (ch == ch1) eqn:E; cbn [negb].
      * apply eqb_iff in E. subst ch1. intros R. rewrite (IH R). split.
        -- intros F. constructor; [|exact F].
           intros p p1 Op. rewrite O in Op. injection Op as <- <-.
           exists v, v1, ch. auto.
        -- intros F. inversion F. assumption.
      * intros R. injection R as <-. split; [discriminate|].
        intros F. inversion F as [|? ? Ag _]. subst.
        destruct (Ag o o1 O) as (w & w1 & x & Gw & Gw1 & Xw & Xw1).
        rewrite G in Gw. injection Gw as <-.
        rewrite G1 in Gw1. injection Gw1 as <-.
        rewrite X in Xw. injection Xw as <-.
        rewrite X1 in Xw1. injection Xw1 as <-.
        rewrite eqb_refl in E. discriminate E.
    + intros R. rewrite (IH R). split.
      * intros F. constructor; [|exact F].
        intros p p1 Op. rewrite O in Op. discriminate Op.
      * intros F. inversion F. assumption.
Qed.

Lemma agree_inv a ks b :
  agree c a ks = Ok b ->
  (b = true <-> ForallOrdPairs (agrees c a) ks).
Proof.
  revert b. induction ks as [|key rest IH]; intros b; cbn [agree].
  - intros E. injection E as <-. split; [constructor | reflexivity].
  - destruct (agree_with c a key rest) as [ok| |] eqn:W; cbn [res_bind];
      try discriminate.
    apply agree_with_inv in W. destruct ok.
    + intros E. rewrite (IH _ E). split.
      * intros F. constructor; [apply W; reflexivity | exact F].
      * intros F. inversion F. assumption.
    + intros E. injection E as <-. split; [discriminate|].
      intros F. inversion F as [|? ? Fa _]. subst. apply W, Fa.
Qed.
End Consistent.

(** X8. What [consistent] decides.  When it returns, the store is as it
    was, and the result is [True] exactly when the values of the dict are
    pairwise distinct, every value has the length of its key, and every two
    keys, taken in the order of the dict, carry the same character at
    their overlap, if they have one. *)
Theorem consistent_decides
  (c : Crossword.t) (r : ref) (s s' : Self) (a : Assignment) (b : bool) :
  holds s r a ->
  consistent c r s = (Ok b, s') ->
  s' = s
  /\ (b = true <->
      NoDup (values a)
      /\ (forall k, In k (keys a) -> fits a k)
      /\ ForallOrdPairs (agrees c a) (keys a)).
Proof.
  intros H. unfold consistent. rewrite run_bind, (Totality.deref_holds _ _ _ H).
  cbn beta iota. destruct (repeated (values a)) eqn:Rp; cbn beta iota.
  - rewrite run_ret. intros E. injection E as <- <-.
    split; [reflexivity|]. split; [discriminate|]. intros (N & _).
    apply repeated_iff in N. rewrite N in Rp. discriminate Rp.
  - apply repeated_iff in Rp. rewrite run_bind, run_lift.
    destruct (lengths_match a (keys a)) as [ok| |] eqn:L; cbn beta iota;
      try discriminate.
    apply lengths_match_inv in L. destruct ok; cbn [negb]; cbn beta iota.
    + rewrite run_lift. intros E. injection E as E <-.
      split; [reflexivity|]. rewrite (agree_inv _ _ _ _ E).
      split; [intros F; split; [exact Rp | split; [apply L; reflexivity | exact F]]
             | intros (_ & _ & F); exact F].
    + rewrite run_ret. intros E. injection E as <- <-.
      split; [reflexivity|]. split; [discriminate|]. intros (_ & F & _).
      apply L, F.
Qed.

(** An instance: the filled arch grid. *)
Lemma consistent_decides_witness :
  let s := mkSelf (domains (init arch3)) [arch3_filled] in
  s = s
  /\ (true = true <->
      NoDup (values arch3_filled)
      /\ (forall k, In k (keys arch3_filled) -> fits arch3_filled k)
      /\ ForallOrdPairs (agrees arch3 arch3_filled) (keys arch3_filled)).
Proof.
  apply (consistent_decides arch3 0
           (mkSelf (domains (init arch3)) [arch3_filled])).
  - reflexivity.
  - vm_compute. reflexivity.
Defined.

(** X9. [consistent] raises nothing on a dict whose keys are variables of
    a puzzle with overlaps in range, whatever its values are: a value of
    the wrong length is rejected before any character of it is looked up.
    The store is left as it was. *)
Theorem consistent_never_raises
  (c : Crossword.t) (r : ref) (s : Self) (a : Assignment) :
  overlaps_in_range c ->
  holds s r a -> incl (keys a) (Crossword.variables c) ->
  exists b, consistent c r s = (Ok b, s).
Proof. intros Hr H I. exact (Totality.consistent_total c Hr r s a H I). Qed.

(** An instance: the arch grid with a word that is too short. *)
Lemma consistent_never_raises_witness :
  exists b,
    consistent arch3 0
      (mkSelf (domains (init arch3)) [[(top, Str "AB"%string)]])
    = (Ok b, mkSelf (domains (init arch3)) [[(top, Str "AB"%string)]]).
Proof.
  apply (consistent_never_raises arch3 0 _ [(top, Str "AB"%string)]).
  - apply arch_in_range.
  - reflexivity.
  - intros v [<-|[]]. left. reflexivity.
Defined.

(** X10. On a puzzle whose variables are distinct and a dict whose keys
    are variables of it, [assignment_complete] returns [True] exactly when
    every variable has an entry; the store is left as it was. *)
Theorem assignment_complete_decides
  (c : Crossword.t) (r : ref) (s : Self) (a : Assignment) :
  NoDup (Crossword.variables c) ->
  holds s r a -> partial c a ->
  exists b,
    assignment_complete c r s = (Ok b, s)
    /\ (b = true <-> forall v, In v (Crossword.variables c) -> In v (keys a)).
Proof.
  intros Nv H [Nk Ik]. unfold assignment_complete.
  rewrite run_bind, (Totality.deref_holds _ _ _ H). cbn beta iota.
  rewrite run_ret. eexists. split; [reflexivity|].
  change (List.length a == List.length (Crossword.variables c))
    with (List.length a =? List.length (Crossword.variables c)).
  rewrite Nat.eqb_eq.
  assert (Lk : List.length (keys a) = List.length a)
    by (unfold keys; apply length_map).
  rewrite <- Lk. split.
  - intros L. apply NoDup_length_incl; [exact Nk | lia | exact Ik].
  - intros Iv. apply Nat.le_antisymm.
    + apply NoDup_incl_length; assumption.
    + apply NoDup_incl_length; assumption.
Qed.

(** An instance: the filled arch grid. *)
Lemma assignment_complete_decides_witness :
  exists b,
    assignment_complete arch3 0 (mkSelf (domains (init arch3)) [arch3_filled])
    = (Ok b, mkSelf (domains (init arch3)) [arch3_filled])
    /\ (b = true <->
        forall v, In v (Crossword.variables arch3) -> In v (keys arch3_filled)).
Proof.
  apply (assignment_complete_decides arch3 0 _ arch3_filled).
  - apply arch_variables.
  - reflexivity.
  - split; [apply (arch_variables []) | intros v I; exact I].
Defined.
End Checks.

(* ================================================================= *)
(** ** Which variable is selected *)

Module Choice.
Import CrosswordCreator Spec Laws Run Grid GridFacts.

Section Select.
Variable c : Crossword.t.

(** The entry of [number_of_options] under a size is the last variable of
    that size. *)
Lemma options_of_get_last s us acc k var :
  get k (options_of s us acc) = Ok var ->
  (get k acc = Ok var /\ forall u, In u us -> domain_size s u <> k)
  \/ exists l1 l2,
       us = l1 ++ var :: l2 /\ domain_size s var = k
       /\ forall u, In u l2 -> domain_size s u <> k.
Proof.
  revert acc. induction us as [|u us IH]; intros acc;
    unfold options_of; cbn [fold_left].
  - intros G. left. split; [exact G | intros u []].
  - fold (options_of s us (set (domain_size s u) u acc)). intros G.
    apply IH in G as [[G N]|(l1 & l2 & -> & E & N)].
    + rewrite get_set in G. destruct (k == domain_size s u) eqn:E.
      * injection G as <-. apply eqb_iff in E. right.
        exists [], us. split; [reflexivity|]. split; [auto | exact N].
      * left. split; [exact G|]. intros u' [<-|I]; [|apply N, I].
        apply eqb_false_iff in E. auto.
    + right. exists (u :: l1), l2. split; [reflexivity|]. split; assumption.
Qed.

Lemma number_of_options_inv s us acc noo s' :
  fold_each us acc (fun number_of_options var =>
    (d <- get_domain var ;;
     ret (set (List.length d) var number_of_options))%py) s
  = (Ok noo, s') ->
  s' = s /\ noo = options_of s us acc.
Proof.
  revert acc. induction us as [|u us IH]; intros acc; cbn [fold_each].
  - intros E. injection E as <- <-. split; reflexivity.
  - run. destruct (get u (domains s)) as [d| |] eqn:G; cbn beta iota;
      try discriminate.
    run. intros E. apply IH in E as [-> ->]. split; [reflexivity|].
    unfold options_of. cbn [fold_left]. unfold domain_size.
    rewrite (ArcConsistency.domain_get _ _ _ G). reflexivity.
Qed.

Lemma smallest_options_in (noo : Dict nat Var.t) options todo acc sv :
  smallest_options noo options todo acc = Ok sv ->
  forall v, In v sv -> In v acc \/ exists k, get k noo = Ok v.
Proof.
  revert acc. induction todo as [|[i number] todo IH]; intros acc;
    cbn [smallest_options].
  - intros E. injection E as <-. auto.
  - assert (Step : forall var,
      get number noo = Ok var ->
      smallest_options noo options todo (acc ++ [var]) = Ok sv ->
      forall v, In v sv -> In v acc \/ exists k, get k noo = Ok v).
    { intros var G E v I. destruct (IH _ E v I) as [Ia|X]; [|right; exact X].
      apply in_app_or in Ia as [Ia|[<-|[]]]; [left; exact Ia|].
      right. exists number. exact G. }
    destruct (i == 0).
    + destruct (get number noo) as [var| |] eqn:G; cbn [res_bind];
        try discriminate.
      apply Step. reflexivity.
    + destruct (list_index options (i - 1)) as [previous| |];
        cbn [res_bind]; try discriminate.
      destruct (number == previous).
      * destruct (get number noo) as [var| |] eqn:G; cbn [res_bind];
          try discriminate.
        apply Step. reflexivity.
      * intros E. injection E as <-. auto.
Qed.

(** A variable that [select_unassigned_variable] returns is a variable of
    the puzzle without an entry in the assignment. *)
Lemma select_unassigned r s a var s' :
  holds s r a ->
  select_unassigned_variable c r s = (Ok (Some var), s') ->
  s' = s /\ In var (unassigned c a).
Proof.
  intros H. unfold select_unassigned_variable.
  rewrite run_bind, (Totality.deref_holds _ _ _ H). cbn beta iota.
  rewrite run_bind, run_lift.
  destruct (remove_each _ (Crossword.variables c)) as [us| |] eqn:R;
    cbn beta iota; try discriminate.
  apply remove_each_ok in R. rewrite run_bind.
  match goal with
  | |- context [fold_each us [] ?body s] =>
      destruct (fold_each us [] body s) as [[noo| |] s1] eqn:F
  end; cbn beta iota; try discriminate.
  apply number_of_options_inv in F as [-> ->].
  rewrite run_bind, run_lift.
  match goal with
  | |- context [smallest_options ?n ?o ?t []] =>
      destruct (smallest_options n o t []) as [sv| |] eqn:Sm
  end; cbn beta iota; try discriminate.
  pose proof (smallest_options_in _ _ _ _ _ Sm) as Hin.
  assert (Sub : forall v, In v sv -> In v (unassigned c a)).
  { intros v I. destruct (Hin v I) as [[]|[k G]].
    apply Selection.options_of_get in G as [G|[Iu _]]; [discriminate G|].
    rewrite R in Iu. apply filter_In in Iu as [Iv M].
    apply filter_In. split; [exact Iv|].
    apply negb_true_iff in M. apply negb_true_iff.
    destruct (mem v (keys a)) eqn:Mk; [|reflexivity].
    apply mem_false_iff in M. exfalso. apply M, filter_In. auto. }
  destruct (List.length sv != 1).
  - rewrite run_ret. intros E. injection E as E <-.
    split; [reflexivity|]. apply find_some in E. apply Sub, E.
  - rewrite run_bind, run_lift. unfold list_index.
    destruct (nth_error sv 0) as [v|] eqn:N; cbn beta iota;
      try discriminate.
    rewrite run_ret. intros E. injection E as <- <-.
    split; [reflexivity|]. apply Sub. eapply nth_error_In. exact N.
Qed.

(** With no variable left, the function falls off its end. *)
Lemma select_nothing r s a :
  NoDup (Crossword.variables c) ->
  holds s r a -> unassigned c a = [] ->
  select_unassigned_variable c r s = (Ok None, s).
Proof.
  intros Nv H U. unfold select_unassigned_variable.
  rewrite run_bind, (Totality.deref_holds _ _ _ H). cbn beta iota.
  rewrite run_bind, run_lift, (Selection.unused_variables c Nv), U.
  reflexivity.
Qed.

Lemma select_last_smallest r s a :
  NoDup (Crossword.variables c) -> has_domains c s ->
  holds s r a -> unassigned c a <> [] ->
  exists var l1 l2,
    select_unassigned_variable c r s = (Ok (Some var), s)
    /\ unassigned c a = l1 ++ var :: l2
    /\ (forall u, In u l1 -> domain_size s var <= domain_size s u)
    /\ (forall u, In u l2 -> domain_size s var < domain_size s u).
Proof.
  intros Nv D H Hne. unfold select_unassigned_variable.
  rewrite run_bind, (Totality.deref_holds _ _ _ H). cbn beta iota. run.
  rewrite (Selection.unused_variables c Nv). cbn beta iota. rewrite run_bind.
  rewrite Selection.number_of_options_run.
  2:{ intros u I. apply D. apply filter_In in I. apply I. }
  cbn beta iota. set (noo := options_of s (unassigned c a) []).
  destruct (sorted (keys noo)) as [|k rest] eqn:Es.
  { exfalso. destruct (unassigned c a) as [|u us] eqn:Eu; [auto|].
    assert (I : In (domain_size s u) (keys noo)).
    { apply Selection.options_of_keys. right. exists u.
      split; [left|]; reflexivity. }
    apply (Permutation_in _ (Permutation_sym (Selection.sorted_perm _))) in I.
    rewrite Es in I. exact I. }
  destruct (Selection.sorted_head _ _ _ Es) as (Ik & Hmin & Hd).
  apply get_in_keys in Ik as [var G].
  rewrite run_bind, run_lift.
  rewrite (Selection.smallest_options_first _ _ _ _ G).
  2:{ apply Hd, Selection.options_of_nodup. constructor. }
  cbn beta iota. change (List.length [var] != 1) with false. cbn iota.
  run. cbn [list_index nth_error]. run.
  assert (Least : forall u, In u (unassigned c a) -> k <= domain_size s u).
  { intros u Iu. apply Hmin, Selection.options_of_keys. right. eauto. }
  apply options_of_get_last in G as [[G _]|(l1 & l2 & E & Ek & N)];
    [discriminate G|].
  exists var, l1, l2. split; [reflexivity|]. split; [exact E|].
  rewrite Ek. split.
  - intros u Iu. apply Least. rewrite E. apply in_or_app. left. exact Iu.
  - intros u Iu.
    assert (k <= domain_size s u)
      by (apply Least; rewrite E; apply in_or_app; right; right; exact Iu).
    pose proof (N u Iu). lia.
Qed.
End Select.

(** X11. Which variable [select_unassigned_variable] returns.  As long
    as some variable has no entry, it returns one, leaving the store as it
    was: among the variables without an entry, taken in the order in which
    the variable set is iterated, the last one of those whose domain is as
    small as any.  The number of neighbours plays no part. *)
Theorem select_returns_last_smallest
  (c : Crossword.t) (r : ref) (s : Self) (a : Assignment) :
  NoDup (Crossword.variables c) -> has_domains c s ->
  holds s r a -> unassigned c a <> [] ->
  exists var l1 l2,
    select_unassigned_variable c r s = (Ok (Some var), s)
    /\ unassigned c a = l1 ++ var :: l2
    /\ (forall u, In u l1 -> domain_size s var <= domain_size s u)
    /\ (forall u, In u l2 -> domain_size s var < domain_size s u).
Proof. apply select_last_smallest. Qed.

(** An instance: the arch grid with the words ABA and ACA, nothing
    assigned. *)
Lemma select_returns_last_smallest_witness :
  let s := mkSelf (domains (snd (enforce_node_consistency arch2 (init arch2))))
                  [[]] in
  exists var l1 l2,
    select_unassigned_variable arch2 0 s = (Ok (Some var), s)
    /\ unassigned arch2 [] = l1 ++ var :: l2
    /\ (forall u, In u l1 -> domain_size s var <= domain_size s u)
    /\ (forall u, In u l2 -> domain_size s var < domain_size s u).
Proof.
  apply (select_returns_last_smallest arch2 0 _ []).
  - apply arch_variables.
  - intros v I. each_variable I; vm_compute; eauto.
  - reflexivity.
  - vm_compute. discriminate.
Defined.

(** X12. Called on a dict in which every variable has an entry but whose
    number of entries is not the number of variables, [backtrack] raises
    [KeyError]: [select_unassigned_variable] finds nothing, returns [None],
    and [self.domains[None]] is looked up.  The store is left as it was. *)
Theorem backtrack_raises_on_foreign_entry
  (c : Crossword.t) (fuel : nat) (r : ref) (s : Self) (a : Assignment) :
  NoDup (Crossword.variables c) ->
  holds s r a -> unassigned c a = [] ->
  List.length a <> List.length (Crossword.variables c) ->
  select_unassigned_variable c r s = (Ok None, s)
  /\ backtrack c (S fuel) r s = (Raise KeyError, s).
Proof.
  intros Nv H U L.
  pose proof (select_nothing c r s a Nv H U) as Sel.
  split; [exact Sel|].
  cbn [backtrack]. unfold assignment_complete.
  rewrite !run_bind, (Totality.deref_holds _ _ _ H). cbn beta iota.
  rewrite run_ret.
  change (List.length a == List.length (Crossword.variables c))
    with (List.length a =? List.length (Crossword.variables c)).
  apply Nat.eqb_neq in L. rewrite L. rewrite run_bind, Sel. reflexivity.
Qed.

(** An instance: the filled arch grid with an entry for a slot that the
    grid does not have. *)
Lemma backtrack_raises_on_foreign_entry_witness :
  let a := arch3_filled ++ [(Var.mk 5 5 ACROSS 2, Str "AB"%string)] in
  let s := mkSelf (domains (init arch3)) [a] in
  select_unassigned_variable arch3 0 s = (Ok None, s)
  /\ backtrack arch3 1 0 s = (Raise KeyError, s).
Proof.
  apply (backtrack_raises_on_foreign_entry arch3 0 0 _
           (arch3_filled ++ [(Var.mk 5 5 ACROSS 2, Str "AB"%string)])).
  - apply arch_variables.
  - reflexivity.
  - reflexivity.
  - vm_compute. discriminate.
Defined.
End Choice.

(* ================================================================= *)
(** ** What the search returns *)

Module Results.
Import CrosswordCreator Spec Laws Run Grid GridFacts.

Lemma kept_refl a : kept a a.
Proof. intros k _. reflexivity. Qed.

Lemma kept_trans a1 a2 a3 : kept a1 a2 -> kept a2 a3 -> kept a1 a3.
Proof.
  intros K1 K2 k I. rewrite <- (K1 k I). apply K2.
  apply get_in_keys in I as [v G]. apply get_in_keys. exists v.
  rewrite <- G. apply K1. apply get_in_keys. eauto.
Qed.

Lemma kept_set a0 a var v :
  ~ In var (keys a0) -> kept a0 a -> kept a0 (set var v a).
Proof.
  intros N K k I. rewrite get_set_other; [apply K, I|].
  intros ->. contradiction.
Qed.

Section Search.
Variable c : Crossword.t.

(** A result other than [None] comes from a recursive call. *)
Lemma try_values_some recurse var r (Q : ref -> Self -> Prop) :
  (forall s r' s', recurse r s = (Ok (Some r'), s') -> Q r' s') ->
  forall values s r' s',
    try_values c recurse var r values s = (Ok (Some r'), s') -> Q r' s'.
Proof.
  intros Hrec values.
  induction values as [|value values IH]; intros s r' s' E;
    cbn [try_values] in E; [discriminate E|].
  apply bind_inv in E as (ac & s1 & _ & E).
  apply bind_inv in E as (u & s2 & _ & E).
  apply bind_inv in E as (ok & s3 & _ & E).
  apply bind_inv in E as (result & s4 & Em & E).
  destruct result as [res|].
  - injection E as -> ->. destruct ok; [|discriminate Em].
    apply bind_inv in Em as (u' & s5 & _ & Em). apply (Hrec _ _ _ Em).
  - apply bind_inv in E as (a & s5 & _ & E).
    apply bind_inv in E as (u' & s6 & _ & E).
    apply (IH _ _ _ E).
Qed.

(** The dict that [backtrack] returns is its argument, and it passes the
    test of [assignment_complete]. *)
Lemma backtrack_some fuel :
  forall r s r' s',
    backtrack c fuel r s = (Ok (Some r'), s') ->
    r' = r /\ assignment_complete c r s' = (Ok true, s').
Proof.
  induction fuel as [|fuel IH]; intros r s r' s' E; cbn [backtrack] in E;
    [discriminate E|].
  apply bind_inv in E as (complete & s1 & Ec & E).
  pose proof (assignment_complete_pure c r s) as Pc.
  rewrite Ec in Pc. cbn [snd] in Pc. subst s1.
  destruct complete.
  - injection E as <- <-. split; [reflexivity | exact Ec].
  - apply bind_inv in E as (selected & s1 & _ & E).
    destruct selected as [var|]; [|discriminate E].
    apply bind_inv in E as (values & s2 & _ & E).
    apply (try_values_some (backtrack c fuel) var r
             (fun r' s' =>
                r' = r /\ assignment_complete c r s' = (Ok true, s'))
             (IH r) values s2 r' s' E).
Qed.

(** The entries that the dict had when the loop was entered keep their
    values: the loop writes under [var] only. *)
Lemma try_values_kept recurse var r (a0 : Assignment) :
  ~ In var (keys a0) ->
  (forall s a res s',
     holds s r a -> recurse r s = (Ok res, s') ->
     exists a', holds s' r a' /\ kept a a') ->
  forall values s a res s',
    holds s r a -> kept a0 a ->
    try_values c recurse var r values s = (Ok res, s') ->
    exists a', holds s' r a' /\ kept a0 a'.
Proof.
  intros Nv Hrec values.
  induction values as [|value values IH]; intros s a res s' H K E;
    cbn [try_values] in E.
  - injection E as <- <-. exists a. split; assumption.
  - destruct (Totality.dict_copy_holds s r a H) as (s1 & E1 & _ & Hc1 & K1).
    rewrite run_bind, E1 in E. cbn beta iota in E.
    destruct (Totality.dict_set_holds s1 (List.length (dicts s)) var
                (Str value) a Hc1) as (s2 & E2 & _ & Hc2 & K2).
    rewrite run_bind, E2 in E. cbn beta iota in E.
    assert (Hr2 : holds s2 r a).
    { apply K2; [|apply K1, H]. pose proof (Totality.holds_lt _ _ _ H). lia. }
    rewrite run_bind in E.
    pose proof (consistent_pure c (List.length (dicts s)) s2) as Pc.
    destruct (consistent c (List.length (dicts s)) s2) as [[ok| |] s3];
      try discriminate E.
    cbn [snd] in Pc. subst s3. cbn beta iota in E. rewrite run_bind in E.
    match type of E with
    | context [match ?m s2 with _ => _ end] =>
        destruct (m s2) as [[result| |] sx] eqn:Em
    end; try discriminate E.
    assert (Mid : exists ax, holds sx r ax /\ kept a0 ax).
    { destruct ok.
      - destruct (Totality.dict_set_holds s2 r var (Str value) a Hr2)
          as (s3 & E3 & _ & H3 & _).
        rewrite run_bind, E3 in Em. cbn beta iota in Em.
        destruct (Hrec _ _ _ _ H3 Em) as (a4 & H4 & K4).
        exists a4. split; [exact H4|].
        eapply kept_trans; [apply kept_set; eassumption | exact K4].
      - injection Em as _ <-. exists a. split; assumption. }
    destruct Mid as (ax & Hx & Kx). cbn beta iota in E.
    destruct result as [res0|].
    + injection E as <- <-. exists ax. split; assumption.
    + rewrite run_bind, (Totality.deref_holds _ _ _ Hx) in E.
      cbn beta iota in E. rewrite run_bind in E.
      match type of E with
      | context [match ?m sx with _ => _ end] =>
          destruct (m sx) as [[[]| |] sy] eqn:Eu
      end; try discriminate E.
      assert (Undo : exists ay, holds sy r ay /\ kept a0 ay).
      { destruct (mem var (keys ax)) eqn:Mv.
        - rewrite run_bind, run_lift in Eu.
          destruct (get var ax) as [cur| |]; try discriminate Eu.
          cbn beta iota in Eu.
          destruct (Totality.dict_set_holds sx r var (without cur value) ax Hx)
            as (sz & Ez & _ & Hz & _).
          rewrite Ez in Eu. injection Eu as <-.
          eexists. split; [exact Hz | apply kept_set; assumption].
        - injection Eu as <-. exists ax. split; assumption. }
      destruct Undo as (ay & Hy & Ky). cbn beta iota in E.
      apply (IH _ _ _ _ Hy Ky E).
Qed.

Lemma backtrack_kept fuel :
  forall r s a res s',
    holds s r a -> backtrack c fuel r s = (Ok res, s') ->
    exists a', holds s' r a' /\ kept a a'.
Proof.
  induction fuel as [|fuel IH]; intros r s a res s' H E; cbn [backtrack] in E;
    [discriminate E|].
  unfold assignment_complete in E.
  rewrite !run_bind, (Totality.deref_holds _ _ _ H) in E.
  cbn beta iota in E. rewrite run_ret in E.
  destruct (List.length a == List.length (Crossword.variables c)).
  - injection E as <- <-. exists a. split; [exact H | apply kept_refl].
  - rewrite run_bind in E.
    destruct (select_unassigned_variable c r s) as [[[var|]| |] s1] eqn:Sel;
      try discriminate E.
    apply (Choice.select_unassigned c r s a) in Sel as [-> Iu]; [|exact H].
    cbn beta iota in E. rewrite run_bind in E.
    pose proof (order_domain_values_pure c var r s) as Po.
    destruct (order_domain_values c var r s) as [[values| |] s2];
      try discriminate E.
    cbn [snd] in Po. subst s2. cbn beta iota in E.
    apply (try_values_kept (backtrack c fuel) var r a) with (a := a) in E;
      [exact E | | | exact H | apply kept_refl].
    + apply filter_In in Iu as [_ M]. apply negb_true_iff in M.
      apply mem_false_iff, M.
    + intros s0 a1 res0 s3. apply IH.
Qed.

(** With enough fuel the search returns [None] or its argument, then
    with an entry for every variable. *)
Lemma backtrack_result fuel r s a :
  well_formed c -> searching c s r a ->
  List.length (unassigned c a) < fuel ->
  exists res s' a',
    backtrack c fuel r s = (Ok res, s')
    /\ domains s' = domains s
    /\ holds s' r a' /\ partial c a' /\ incl (keys a) (keys a')
    /\ (res = None
        \/ res = Some r
           /\ forall v, In v (Crossword.variables c) -> In v (keys a')).
Proof.
  intros Hwf S L.
  destruct (Totality.backtrack_total c Hwf fuel r s a S L)
    as (res & s' & E & D & a' & H' & P' & I').
  exists res, s', a'. repeat (split; [assumption|]).
  destruct res as [r'|]; [right | left; reflexivity].
  apply backtrack_some in E as [-> C]. split; [reflexivity|].
  unfold assignment_complete in C.
  rewrite run_bind, (Totality.deref_holds _ _ _ H') in C.
  cbn beta iota in C. rewrite run_ret in C. injection C as C.
  change (List.length a' == List.length (Crossword.variables c))
    with (List.length a' =? List.length (Crossword.variables c)) in C.
  apply Nat.eqb_eq in C. destruct P' as [Nk Ik].
  apply NoDup_length_incl; [exact Nk | | exact Ik].
  unfold keys. rewrite length_map. lia.
Qed.
End Search.

(** The store in which the search of the arch grid starts. *)
Lemma arch3_searching :
  searching arch3
    (mkSelf (domains (snd (enforce_node_consistency arch3 (init arch3))))
            [[]])
    0 [].
Proof.
  split; [|split].
  - apply (Totality.sound_store_domains arch3
             (snd (enforce_node_consistency arch3 (init arch3))));
      [reflexivity | apply Pruning.arch3_sound].
  - reflexivity.
  - split; [constructor | intros v []].
Qed.

(** X13. On a well-formed puzzle, a sound store and a dict whose keys are
    variables of the puzzle, [backtrack] returns once its fuel exceeds the
    number of variables without an entry: it raises nothing.  It leaves the
    domains as they were and removes no key from the dict.  What it returns
    is [None] or the dict it was given, which then has an entry for every
    variable. *)
Theorem backtrack_returns
  (c : Crossword.t) (fuel : nat) (r : ref) (s : Self) (a : Assignment) :
  well_formed c -> searching c s r a ->
  List.length (unassigned c a) < fuel ->
  exists res s' a',
    backtrack c fuel r s = (Ok res, s')
    /\ domains s' = domains s
    /\ holds s' r a' /\ partial c a' /\ incl (keys a) (keys a')
    /\ (res = None
        \/ res = Some r
           /\ forall v, In v (Crossword.variables c) -> In v (keys a')).
Proof. apply backtrack_result. Qed.

(** An instance: the arch grid with three words, nothing assigned. *)
Lemma backtrack_returns_witness :
  let s := mkSelf (domains (snd (enforce_node_consistency arch3 (init arch3))))
                  [[]] in
  exists res s' a',
    backtrack arch3 4 0 s = (Ok res, s')
    /\ domains s' = domains s
    /\ holds s' 0 a' /\ partial arch3 a' /\ incl (keys ([] : Assignment)) (keys a')
    /\ (res = None
        \/ res = Some 0
           /\ forall v, In v (Crossword.variables arch3) -> In v (keys a')).
Proof.
  apply (backtrack_returns arch3 4 0 _ []).
  - exact Pruning.arch3_well_formed.
  - exact arch3_searching.
  - vm_compute. repeat constructor.
Defined.

(** X14. On a well-formed puzzle [solve] returns, given the fuel that
    AC-3 and the search need: it raises nothing.  What it returns is [None]
    or a dict with exactly one entry for each variable of the puzzle. *)
Theorem solve_returns (c : Crossword.t) (fuel : nat) :
  well_formed c ->
  ac3_bound c (snd (enforce_node_consistency c (init c))) (all_arcs c)
    <= fuel ->
  List.length (Crossword.variables c) < fuel ->
  exists res s,
    solve c fuel (init c) = (Ok res, s)
    /\ (res = None
        \/ exists r a,
             res = Some r /\ holds s r a /\ NoDup (keys a)
             /\ forall v, In v (keys a) <-> In v (Crossword.variables c)).
Proof.
  intros Hwf B L.
  destruct (Termination.before_search_total c Hwf) as (s0 & R & T).
  rewrite R in B. cbn [snd] in B.
  destruct (T fuel B) as (r & s & Bs & P).
  destruct (Search.before_search_ok c fuel r s Bs) as (_ & Ha & So).
  assert (H : holds s r []).
  { rewrite run_deref in Ha. unfold list_index, holds in *.
    destruct (nth_error (dicts s) r); [|discriminate Ha].
    injection Ha as ->. reflexivity. }
  destruct (backtrack_result c fuel r s [] Hwf)
    as (res & s' & a' & E & _ & H' & [Nk Ik] & _ & Res).
  - split; [exact P|]. split; [exact H|]. split; [constructor | intros x []].
  - rewrite (Search.unassigned_nil c). exact L.
  - exists res, s'. rewrite So. split; [exact E|].
    destruct Res as [->|[-> Iv]]; [left; reflexivity | right].
    exists r, a'. split; [reflexivity|]. split; [exact H'|].
    split; [exact Nk|]. intros v. split; [apply Ik | apply Iv].
Qed.

(** An instance: the arch grid with three words. *)
Lemma solve_returns_witness :
  exists res s,
    solve arch3 40 (init arch3) = (Ok res, s)
    /\ (res = None
        \/ exists r a,
             res = Some r /\ holds s r a /\ NoDup (keys a)
             /\ forall v, In v (keys a) <-> In v (Crossword.variables arch3)).
Proof.
  apply (solve_returns arch3 40).
  - exact Pruning.arch3_well_formed.
  - vm_compute. repeat constructor.
  - vm_compute. repeat constructor.
Defined.

(** X15. [backtrack] leaves the entries of its caller alone: whenever it
    returns, with a dict or with [None], every key that the dict had when
    it was called is still there with the value it had.  (The entries it
    added itself are another matter.) *)
Theorem backtrack_keeps_entries
  (c : Crossword.t) (fuel : nat) (r : ref) (s s' : Self) (a : Assignment)
  (res : option ref) :
  holds s r a ->
  backtrack c fuel r s = (Ok res, s') ->
  exists a', holds s' r a' /\ forall k, In k (keys a) -> get k a' = get k a.
Proof. apply backtrack_kept. Qed.

(** An instance: the arch grid with three words, the top slot filled. *)
Lemma backtrack_keeps_entries_witness :
  let a := [(top, Str "ABC"%string)] in
  let s := mkSelf (domains (snd (enforce_node_consistency arch3 (init arch3))))
                  [a] in
  exists a',
    holds (snd (backtrack arch3 4 0 s)) 0 a'
    /\ forall k, In k (keys a) -> get k a' = get k a.
Proof.
  eapply (backtrack_keeps_entries arch3 4 0
            (mkSelf
               (domains (snd (enforce_node_consistency arch3 (init arch3))))
               [[(top, Str "ABC"%string)]])
            _ [(top, Str "ABC"%string)]).
  - reflexivity.
  - vm_compute. reflexivity.
Defined.
End Results.

(* ================================================================= *)
(** ** The letter grid *)

Module Rendering.
Import CrosswordCreator Spec Laws Run Grid GridFacts.

Lemma in_update {A} (l : list A) k a x :
  In x (update l k a) -> x = a \/ In x l.
Proof.
  revert k. induction l as [|y l IH]; intros [|k]; cbn [update In]; auto.
  - intros [<-|I]; auto.
  - intros [<-|I]; auto. destruct (IH _ I); auto.
Qed.

(** An index that can be read is in range. *)
Lemma index_ok_lt (word : Val) (k : nat) (x : string) :
  index word k = Ok x -> k < len word.
Proof.
  destruct word as [t|l]; cbn [index len].
  - unfold str_index. destruct (String.get k t) as [ch|] eqn:G;
      [intros _ | discriminate].
    revert k G. induction t as [|ch' t IH]; intros [|k] G;
      cbn [String.get String.length] in *; try discriminate G; try lia.
    apply IH in G. lia.
  - unfold list_index. destruct (nth_error l k) as [y|] eqn:G;
      [intros _ | discriminate].
    apply nth_error_Some. rewrite G. discriminate.
Qed.

(** The indices that the loop computes. *)
Lemma cell_code v k :
  (Var.i v + (if Var.direction v == DOWN then k else 0),
   Var.j v + (if Var.direction v == ACROSS then k else 0))
  = cell v k.
Proof.
  unfold cell. destruct (Var.direction v);
    [change (ACROSS == DOWN) with false; change (ACROSS == ACROSS) with true
    |change (DOWN == DOWN) with true; change (DOWN == ACROSS) with false];
    cbn iota; rewrite Nat.add_0_r; reflexivity.
Qed.

Section Sized.
Variable h : nat.
Variable w : nat.

Lemma blank_sized : sized h w (repeat (repeat None w) h).
Proof.
  split; [apply repeat_length|]. intros row I.
  apply repeat_spec in I. subst row. apply repeat_length.
Qed.

Lemma blank_letter i j : letter (repeat (repeat None w) h) i j = None.
Proof.
  unfold letter.
  destruct (nth_error (repeat (repeat None w) h) i) as [row|] eqn:R;
    [|reflexivity].
  apply nth_error_In, repeat_spec in R. subst row.
  destruct (nth_error (repeat None w) j) as [x|] eqn:X; [|reflexivity].
  apply nth_error_In, repeat_spec in X. exact X.
Qed.

Lemma put_within g i j x :
  sized h w g -> i < h -> j < w ->
  exists g',
    put g i j x = Ok g' /\ sized h w g'
    /\ letter g' i j = Some x
    /\ forall i' j', (i', j') <> (i, j) -> letter g' i' j' = letter g i' j'.
Proof.
  intros [Lh Lw] Li Lj. unfold put, list_index.
  destruct (nth_error g i) as [row|] eqn:R.
  2:{ apply nth_error_None in R. lia. }
  assert (Lr : List.length row = w) by (apply Lw; eapply nth_error_In; exact R).
  cbn [res_bind]. apply Nat.ltb_lt in Lj as Lb. rewrite Lr, Lb.
  eexists. split; [reflexivity|]. split; [|split].
  - split; [rewrite Totality.update_length; exact Lh|].
    intros row' I. apply in_update in I as [->|I]; [|apply Lw, I].
    rewrite Totality.update_length. exact Lr.
  - unfold letter. rewrite Totality.nth_error_update_same by lia.
    rewrite Totality.nth_error_update_same by lia. reflexivity.
  - intros i' j' N. unfold letter. destruct (Nat.eq_dec i' i) as [->|Ni].
    + rewrite Totality.nth_error_update_same by lia. rewrite R.
      rewrite Totality.nth_error_update_other; [reflexivity|].
      intros ->. apply N. reflexivity.
    + rewrite Totality.nth_error_update_other by exact Ni. reflexivity.
Qed.

Lemma put_outside g i j x :
  sized h w g -> ~ within h w (i, j) -> put g i j x = Raise IndexError.
Proof.
  intros [Lh Lw] N. unfold put, list_index, within in *. cbn [fst snd] in N.
  destruct (nth_error g i) as [row|] eqn:R; [|reflexivity].
  assert (Lr : List.length row = w) by (apply Lw; eapply nth_error_In; exact R).
  assert (Li : i < h).
  { rewrite <- Lh. apply nth_error_Some. rewrite R. discriminate. }
  cbn [res_bind]. rewrite Lr.
  destruct (j <? w) eqn:E; [|reflexivity].
  apply Nat.ltb_lt in E. exfalso. auto.
Qed.

Lemma shows_ext (W W' : nat -> nat -> string -> Prop) g :
  (forall i j x, W i j x <-> W' i j x) -> shows h w W g -> shows h w W' g.
Proof.
  intros E [Sz Sh]. split; [exact Sz|]. intros i j Li Lj.
  specialize (Sh i j Li Lj). destruct (letter g i j) as [x|].
  - apply E, Sh.
  - intros x I. apply (Sh x), E, I.
Qed.

(** The inner loop, over the letters of one entry: it stops with
    [IndexError] at the first letter that falls outside of the grid. *)
Lemma word_written v word ks :
  (forall k, In k ks -> k < len word) ->
  forall g (W : nat -> nat -> string -> Prop),
    shows h w W g ->
    (res_fold ks g (fun letters k =>
       (x <- index word k ;;
        put letters
          (Var.i v + (if Var.direction v == DOWN then k else 0))
          (Var.j v + (if Var.direction v == ACROSS then k else 0)) x)%res)
     = Raise IndexError
     /\ exists k, In k ks /\ ~ within h w (cell v k))
    \/ exists g',
         res_fold ks g (fun letters k =>
           (x <- index word k ;;
            put letters
              (Var.i v + (if Var.direction v == DOWN then k else 0))
              (Var.j v + (if Var.direction v == ACROSS then k else 0)) x)%res)
         = Ok g'
         /\ shows h w
              (fun i j x =>
                 W i j x
                 \/ exists k, In k ks /\ cell v k = (i, j)
                             /\ index word k = Ok x) g'
         /\ forall k, In k ks -> within h w (cell v k).
Proof.
  induction ks as [|k ks IH]; intros Lk g W Sh; cbn [res_fold].
  - right. exists g. split; [reflexivity|]. split; [|intros k []].
    apply (shows_ext W); [|exact Sh].
    intros i j x. split; [auto | intros [I|(k & [] & _)]; exact I].
  - destruct (Totality.index_in_range word k (Lk k (or_introl eq_refl)))
      as [x X].
    rewrite X. cbn [res_bind].
    pose proof (cell_code v k) as Ec.
    destruct (cell v k) as [i j] eqn:C. injection Ec as Ei Ej.
    rewrite Ei, Ej.
    destruct (lt_dec i h) as [Li|Ni]; [destruct (lt_dec j w) as [Lj|Nj]|].
    + destruct Sh as [Sz Sh].
      destruct (put_within g i j x Sz Li Lj) as (g1 & P & Sz1 & Same & Other).
      rewrite P. cbn [res_bind].
      destruct (IH (fun k' I => Lk k' (or_intror I)) g1
                  (fun i' j' y =>
                     W i' j' y \/ cell v k = (i', j') /\ index word k = Ok y))
        as [[R (k' & I' & N')]|(g' & R & Sh' & In')].
      * split; [exact Sz1|]. intros i' j' Li' Lj'.
        destruct (Nat.eq_dec i' i) as [->|Ni'];
          [destruct (Nat.eq_dec j' j) as [->|Nj']|].
        -- rewrite Same. right. split; [exact C | exact X].
        -- rewrite Other by congruence. specialize (Sh i j' Li' Lj').
           destruct (letter g i j') as [y|]; [left; exact Sh|].
           intros y [Wy|[E _]]; [exact (Sh y Wy)|]. congruence.
        -- rewrite Other by congruence. specialize (Sh i' j' Li' Lj').
           destruct (letter g i' j') as [y|]; [left; exact Sh|].
           intros y [Wy|[E _]]; [exact (Sh y Wy)|]. congruence.
      * left. split; [exact R|]. exists k'. split; [right; exact I' | exact N'].
      * right. exists g'. split; [exact R|]. split.
        -- revert Sh'. apply shows_ext. intros i' j' y. split.
           ++ intros [[Wy|[E Y]]|(k' & I' & E & Y)].
              ** left. exact Wy.
              ** right. exists k. split; [left; reflexivity | auto].
              ** right. exists k'. split; [right; exact I' | auto].
           ++ intros [Wy|(k' & [<-|I'] & E & Y)].
              ** left. left. exact Wy.
              ** left. right. auto.
              ** right. exists k'. auto.
        -- intros k' [<-|I']; [|apply In', I'].
           rewrite C. split; assumption.
    + left. rewrite (put_outside g i j x (proj1 Sh)).
      * split; [reflexivity|]. exists k. split; [left; reflexivity|].
        rewrite C. intros [_ L]. exact (Nj L).
      * intros [_ L]. exact (Nj L).
    + left. rewrite (put_outside g i j x (proj1 Sh)).
      * split; [reflexivity|]. exists k. split; [left; reflexivity|].
        rewrite C. intros [L _]. exact (Ni L).
      * intros [L _]. exact (Ni L).
Qed.

(** The outer loop, over the entries. *)
Lemma entries_written (a : Assignment) :
  forall g (W : nat -> nat -> string -> Prop),
    shows h w W g ->
    (res_fold a g (fun letters '(variable, word) =>
       res_fold (seq 0 (len word)) letters (fun letters k =>
         (x <- index word k ;;
          put letters
            (Var.i variable
             + (if Var.direction variable == DOWN then k else 0))
            (Var.j variable
             + (if Var.direction variable == ACROSS then k else 0)) x)%res))
     = Raise IndexError
     /\ ~ inside h w a)
    \/ exists g',
         res_fold a g (fun letters '(variable, word) =>
           res_fold (seq 0 (len word)) letters (fun letters k =>
             (x <- index word k ;;
              put letters
                (Var.i variable
                 + (if Var.direction variable == DOWN then k else 0))
                (Var.j variable
                 + (if Var.direction variable == ACROSS then k else 0))
                x)%res))
         = Ok g'
         /\ shows h w (fun i j x => W i j x \/ writes a i j x) g'
         /\ inside h w a.
Proof.
  induction a as [|[v word] a IH]; intros g W Sh; cbn [res_fold].
  - right. exists g. split; [reflexivity|]. split; [|intros v word k []].
    apply (shows_ext W); [|exact Sh].
    intros i j x. split; [auto | intros [I|(v & word & k & [] & _)]; exact I].
  - destruct (word_written v word (seq 0 (len word))
                (fun k I => proj2 (proj1 (in_seq _ _ _) I)) g W Sh)
      as [[R (k & I & N)]|(g1 & R & Sh1 & In1)].
    + left. rewrite R. split; [reflexivity|]. intros Ins. apply N.
      apply (Ins v word k); [left; reflexivity | apply in_seq in I; lia].
    + rewrite R. cbn [res_bind].
      destruct (IH g1 _ Sh1) as [[R' N']|(g' & R' & Sh' & In')].
      * left. split; [exact R'|]. intros Ins. apply N'.
        intros v' word' k' I' L'. apply (Ins v' word' k'); [right|]; assumption.
      * right. exists g'. split; [exact R'|]. split.
        -- revert Sh'. apply shows_ext. intros i j x. split.
           ++ intros [[Wx|(k & I & E & X)]|(v' & word' & k' & I' & E & X)].
              ** left. exact Wx.
              ** right. exists v, word, k. split; [left; reflexivity | auto].
              ** right. exists v', word', k'. split; [right; exact I' | auto].
           ++ intros [Wx|(v' & word' & k' & [Eq|I'] & E & X)].
              ** left. left. exact Wx.
              ** injection Eq as <- <-. left. right. exists k'.
                 split; [|auto]. apply in_seq. split; [lia|]. cbn.
                 apply (index_ok_lt _ _ _ X).
              ** right. exists v', word', k'. auto.
        -- intros v' word' k' [Eq|I'] L'.
           ++ injection Eq as <- <-. apply In1, in_seq. lia.
           ++ apply (In' v' word' k' I' L').
Qed.
End Sized.

(** X16. [letter_grid] on a dict whose letters all fall within the grid
    returns a grid of [height] rows of [width] cells and leaves the store
    as it was.  A cell on which no entry puts a letter holds [None]; any
    other cell holds a letter that some entry puts there, so that where the
    entries agree every entry can be read back from the grid. *)
Theorem letter_grid_shows_entries
  (height width : nat) (r : ref) (s : Self) (a : Assignment) :
  holds s r a -> inside height width a ->
  exists letters,
    letter_grid height width r s = (Ok letters, s)
    /\ sized height width letters
    /\ forall i j, i < height -> j < width ->
         match letter letters i j with
         | None => forall x, ~ writes a i j x
         | Some x => writes a i j x
         end.
Proof.
  intros H Ins. unfold letter_grid.
  rewrite run_bind, (Totality.deref_holds _ _ _ H). cbn beta iota.
  rewrite run_lift.
  destruct (entries_written height width a
              (repeat (repeat None width) height) (fun _ _ _ => False))
    as [[_ N]|(g & R & Sh & _)].
  - split; [apply blank_sized|]. intros i j _ _. rewrite blank_letter.
    intros x F. exact F.
  - contradiction.
  - exists g. rewrite R. split; [reflexivity|].
    apply (shows_ext height width _ (writes a)) in Sh.
    + exact Sh.
    + intros i j x. split; [intros [[]|Wr]; exact Wr | auto].
Qed.

(** An instance: the filled arch grid, three rows of three cells. *)
Lemma letter_grid_shows_entries_witness :
  let s := mkSelf (domains (init arch3)) [arch3_filled] in
  exists letters,
    letter_grid 3 3 0 s = (Ok letters, s)
    /\ sized 3 3 letters
    /\ forall i j, i < 3 -> j < 3 ->
         match letter letters i j with
         | None => forall x, ~ writes arch3_filled i j x
         | Some x => writes arch3_filled i j x
         end.
Proof.
  apply (letter_grid_shows_entries 3 3 0 _ arch3_filled).
  - reflexivity.
  - intros v word k I L. unfold arch3_filled in I.
    repeat (destruct I as [I|I]; [injection I as <- <-|]); try destruct I;
      cbn in L;
      (destruct k as [|[|[|k]]]; [| | |lia]); vm_compute; split; lia.
Defined.

(** X17. [letter_grid] raises [IndexError] as soon as some letter of
    some entry falls outside of the grid; the store is left as it was. *)
Theorem letter_grid_raises_outside
  (height width : nat) (r : ref) (s : Self) (a : Assignment)
  (v : Var.t) (word : Val) (k : nat) :
  holds s r a ->
  In (v, word) a -> k < len word -> ~ within height width (cell v k) ->
  letter_grid height width r s = (Raise IndexError, s).
Proof.
  intros H I L N. unfold letter_grid.
  rewrite run_bind, (Totality.deref_holds _ _ _ H). cbn beta iota.
  rewrite run_lift.
  destruct (entries_written height width a
              (repeat (repeat None width) height) (fun _ _ _ => False))
    as [[R _]|(g & _ & _ & Ins)].
  - split; [apply blank_sized|]. intros i j _ _. rewrite blank_letter.
    intros x F. exact F.
  - rewrite R. reflexivity.
  - exfalso. apply N, (Ins v word k I L).
Qed.

(** An instance: the filled arch grid in two rows of two cells. *)
Lemma letter_grid_raises_outside_witness :
  let s := mkSelf (domains (init arch3)) [arch3_filled] in
  letter_grid 2 2 0 s = (Raise IndexError, s).
Proof.
  apply (letter_grid_raises_outside 2 2 0 _ arch3_filled
           top (Str "ABC"%string) 2).
  - reflexivity.
  - left. reflexivity.
  - cbn. lia.
  - vm_compute. intros [_ L]. lia.
Defined.
End Rendering.

(* ================================================================= *)
(** ** Ties between values *)

Module Ties.
Import CrosswordCreator Spec Laws Run Grid GridFacts.

Section Passes.
Variable f : string -> nat.

Lemma of_count_all n l :
  (forall v, In v l -> f v = n) -> of_count f n l = l.
Proof.
  intros A. unfold of_count. apply forallb_filter_id, forallb_forall.
  intros v I. apply Nat.eqb_eq, A, I.
Qed.

Lemma of_count_none n k l :
  (forall v, In v l -> f v = k) -> n <> k -> of_count f n l = [].
Proof.
  intros A N. unfold of_count. induction l as [|v l IH]; [reflexivity|].
  cbn [filter]. rewrite (A v (or_introl eq_refl)).
  assert (E : (k =? n) = false) by (apply Nat.eqb_neq; auto). rewrite E.
  apply IH. intros u I. apply A. right. exact I.
Qed.

Lemma of_count_cons n v l :
  of_count f n (v :: l)
  = if f v =? n then v :: of_count f n l else of_count f n l.
Proof. reflexivity. Qed.

Lemma of_count_app n l1 l2 :
  of_count f n (l1 ++ l2) = of_count f n l1 ++ of_count f n l2.
Proof. apply filter_app. Qed.

Lemma picked_cons m v e vs ec :
  picked m (v :: vs) (e :: ec)
  = if e == m then v :: picked m vs ec else picked m vs ec.
Proof.
  unfold picked. cbn [combine filter snd]. destruct (e == m); reflexivity.
Qed.

Lemma pending_cons v e vs ec :
  pending (v :: vs) (e :: ec)
  = if is_fin e then v :: pending vs ec else pending vs ec.
Proof.
  unfold pending. cbn [combine filter snd]. destruct (is_fin e); reflexivity.
Qed.

(** A pass moves the values of the least count, in their order, and
    leaves the others where they are. *)
Lemma pass_of_count n k vs ec :
  tracks f vs ec ->
  of_count f n (picked (Fin k) vs ec)
  ++ of_count f n (pending vs (map (mark (Fin k)) ec))
  = of_count f n (pending vs ec).
Proof.
  intros T. induction T as [|v e vs ec He T IH]; [reflexivity|].
  pose proof (fun u => Ordering.picked_count f k vs ec u T) as Pk.
  cbn [map]. rewrite picked_cons, !pending_cons. unfold mark at 1.
  destruct He as [->| ->].
  - change (Inf == Fin k) with false. cbn [is_fin]. exact IH.
  - change (Fin (f v) == Fin k) with (f v =? k).
    destruct (f v =? k) eqn:E; cbn [is_fin]; rewrite !of_count_cons.
    + destruct (f v =? n); cbn [app]; rewrite IH; reflexivity.
    + destruct (f v =? n) eqn:En; [|exact IH].
      apply Nat.eqb_eq in En. apply Nat.eqb_neq in E.
      rewrite <- IH.
      rewrite (of_count_none n k _ Pk) by lia. reflexivity.
Qed.

(** The rounds keep, for every count, the values of that count in the
    order in which [values] lists them. *)
Lemma sort_rounds_stable values k :
  forall ec sv l,
    tracks f values ec ->
    Permutation (sv ++ pending values ec) values ->
    List.length (pending values ec) <= k ->
    sort_rounds k values ec sv = Ok l ->
    forall n,
      of_count f n l = of_count f n sv ++ of_count f n (pending values ec).
Proof.
  induction k as [|k IH]; intros ec sv l T Pm Hk E n; cbn [sort_rounds] in E.
  - injection E as <-. destruct (pending values ec); [|cbn in Hk; lia].
    rewrite app_nil_r. reflexivity.
  - pose proof (Permutation_length Pm) as Len. rewrite length_app in Len.
    change (List.length sv == List.length values)
      with (List.length sv =? List.length values) in E.
    destruct (List.length sv =? List.length values) eqn:El.
    + apply Nat.eqb_eq in El. injection E as <-.
      destruct (pending values ec); [|cbn in Len; lia].
      rewrite app_nil_r. reflexivity.
    + apply Nat.eqb_neq in El.
      destruct (pending values ec) as [|w0 ps] eqn:Ep; [cbn in Len; lia|].
      assert (I0 : In (Fin (f w0)) ec).
      { apply (Ordering.pending_count f values); [exact T|].
        rewrite Ep. left. reflexivity. }
      destruct (Ordering.count_min_ok ec) as (m & Em & Im & Hmin).
      { intros ->. exact I0. }
      assert (exists n0, m = Fin n0) as [n0 ->].
      { pose proof (Hmin _ I0) as H0.
        assert (Hm : m = Inf \/ exists v, m = Fin (f v)).
        { clear - T Im. induction T as [|v e vs ec He _ IHT]; [contradiction|].
          destruct Im as [<-|Im]; [|apply IHT, Im].
          destruct He; eauto. }
        destruct Hm as [->|[v ->]]; [discriminate H0 | eauto]. }
      rewrite Em in E. cbn [res_bind] in E.
      pose proof (Ordering.take_min_run (Fin n0) ec values [] sv
                    (Ordering.tracks_length f _ _ T)) as Tm.
      cbn [app List.length] in Tm. rewrite Tm in E. cbn [res_bind] in E.
      rewrite <- Ep in *. clear Ep.
      apply IH with (n := n) in E.
      * rewrite E, of_count_app, <- app_assoc, pass_of_count by exact T.
        reflexivity.
      * apply Ordering.tracks_mark, T.
      * rewrite <- app_assoc, (Ordering.pass_perm f) by exact T. exact Pm.
      * pose proof (Permutation_length (Ordering.pass_perm f n0 values ec T))
          as Lp.
        rewrite length_app in Lp.
        pose proof (Ordering.picked_nonempty f n0 values ec T Im) as Ne.
        destruct (picked (Fin n0) values ec); [contradiction|].
        cbn [List.length] in Lp. lia.
Qed.

Lemma sort_rounds_keeps_ties values l :
  sort_rounds (List.length values) values
    (map (fun v => Fin (f v)) values) [] = Ok l ->
  forall n, of_count f n l = of_count f n values.
Proof.
  assert (T : tracks f values (map (fun v => Fin (f v)) values)).
  { induction values; constructor; auto. }
  assert (E : pending values (map (fun v => Fin (f v)) values) = values).
  { unfold pending. clear T. induction values as [|v vs IH]; [reflexivity|].
    cbn [map combine filter snd is_fin fst]. f_equal. exact IH. }
  intros R n.
  rewrite (sort_rounds_stable values (List.length values) _ [] l T);
    [| | |exact R]; rewrite E; reflexivity.
Qed.
End Passes.

(** X19. [order_domain_values] breaks ties by the order of the domain:
    for every number [n], the words that eliminate exactly [n] values come
    in the list returned in the order in which the domain of [var] is
    iterated. *)
Theorem order_domain_values_keeps_ties
  (c : Crossword.t) (r : ref) (s : Self) (a : Assignment) (var : Var.t) :
  NoDup (Crossword.variables c) ->
  symmetric_overlaps c -> overlaps_in_range c ->
  has_domains c s -> node_consistent c s ->
  deref r s = (Ok a, s) ->
  In var (Crossword.variables c) ->
  exists l,
    order_domain_values c var r s = (Ok l, s)
    /\ forall n,
         of_count (elimination_count c s a var) n l
         = of_count (elimination_count c s a var) n (domain s var).
Proof.
  intros N Hsym Hrange D Hnode Ha Iv.
  destruct (D var Iv) as [values G].
  rewrite (ArcConsistency.domain_get _ _ _ G).
  rewrite (Ordering.order_domain_values_run c r s a var values) by assumption.
  destruct (Ordering.sort_rounds_sorts (elimination_count c s a var) values)
    as (l & E & _).
  rewrite E. exists l. split; [reflexivity|].
  apply sort_rounds_keeps_ties, E.
Qed.

(** An instance: the top slot of the arch grid with three words. *)
Lemma order_domain_values_keeps_ties_witness :
  let s := snd (before_search arch3 5) in
  exists l,
    order_domain_values arch3 top 0 s = (Ok l, s)
    /\ forall n,
         of_count (elimination_count arch3 s [] top) n l
         = of_count (elimination_count arch3 s [] top) n (domain s top).
Proof.
  apply (order_domain_values_keeps_ties arch3 0
           (snd (before_search arch3 5)) [] top).
  - apply arch_variables.
  - apply arch_symmetric.
  - apply arch_in_range.
  - apply (Search.before_search_ok arch3 5 0). vm_compute. reflexivity.
  - intros v w Iv. each_variable Iv; vm_compute;
      intuition (subst; reflexivity).
  - vm_compute. reflexivity.
  - left. reflexivity.
Defined.
End Ties.
